(** * A shallow embedding of C++Memo and of its concurrent map Fcmm

    Sources: [src/fcmm/fcmm.hpp] (the segmented insert-only hash map) and
    [src/cppmemo.hpp] (the memoization driver).

    Conventions of the embedding:
    - a [std::size_t] is a [Z] in [0, 2^64), with its wrap-around written
      out by [size_t_wrap];
    - a C++ loop whose termination is not structural ([while (1)] with a
      [return] inside) is run by [loop], which executes its body at most a
      given (binary) number of times; the bound used is [2^64], and the
      loops of the source are shown to stop before reaching it;
    - a [std::vector] is a [list], its [back()] being the HEAD of the list
      for the per-thread stack (so [push_back] is [cons]). *)

From Stdlib Require Import ZArith Lia List Bool Znumtheory Permutation Relations.
From Stdlib Require ZmodInv.
Import ListNotations.
Open Scope Z_scope.

(** ** size_t arithmetic *)

Definition size_t_modulus : Z := 2 ^ 64.

Definition size_t_wrap (x : Z) : Z := x mod size_t_modulus.

Definition is_size_t (x : Z) : Prop := 0 <= x < size_t_modulus.

(** ** Bounded execution of a loop body

    [loop body p s] runs [body] from [s] at most [p] times; [inr r] is a
    [return r] out of the loop, [inl s'] the state reached when the bound
    ran out. *)

Fixpoint loop {S R : Type} (body : S -> S + R) (p : positive) (s : S) : S + R :=
  match p with
  | xH => body s
  | xO p' =>
      match loop body p' s with
      | inl s1 => loop body p' s1
      | inr r => inr r
      end
  | xI p' =>
      match body s with
      | inl s0 =>
          match loop body p' s0 with
          | inl s1 => loop body p' s1
          | inr r => inr r
          end
      | inr r => inr r
      end
  end.

Definition loop_bound : positive := 18446744073709551616%positive.

(** ** fcmmIsPrime / fcmmNextPrime (fcmm.hpp, lines 90-125) *)

Module Primes.

(** One iteration of the [while (1)] loop of [fcmmIsPrime]; the state is
    [divisor]. *)
Definition isPrime_body (n divisor : Z) : Z + bool :=
  let quotient := n / divisor in
  if quotient <? divisor then inr true
  else if n =? quotient * divisor then inr false
  else inl (size_t_wrap (divisor + 2)).

Definition fcmmIsPrime (n : Z) : bool :=
  match loop (isPrime_body n) loop_bound 3 with
  | inr b => b
  | inl _ => true (* the [return true] after the loop *)
  end.

(** One iteration of [while (!fcmmIsPrime(n)) n += 2;]. *)
Definition nextPrime_body (n : Z) : Z + Z :=
  if fcmmIsPrime n then inr n else inl (size_t_wrap (n + 2)).

Definition fcmmNextPrime (n : Z) : Z :=
  if n <=? 2 then 2
  else
    let n1 := if n mod 2 =? 0 then size_t_wrap (n + 1) else n in
    match loop nextPrime_body loop_bound n1 with
    | inr p => p
    | inl n2 => n2
    end.

End Primes.

(** * Fcmm (src/fcmm/fcmm.hpp) *)

Module Fcmm.

Definition FCMM_DEFAULT_MAX_NUM_SUBMAPS : Z := 128.
Definition FCMM_NEW_SUBMAPS_CAPACITY_MULTIPLIER : Z := 8.
Definition FCMM_FIRST_SUBMAP_MIN_CAPACITY : Z := 65537.

(** A [std::vector<Bucket>] never holds more than [max_size()] elements;
    constructing a longer one throws [std::length_error].  With libstdc++,
    [max_size()] is [PTRDIFF_MAX / sizeof(Bucket)], and a [Bucket] (lines
    271-281: a 4-byte [std::atomic<State>] followed by the entry, padded to
    the alignment of the [State]) takes at least 8 bytes, so [max_size()]
    is at most [(2^63 - 1) / 8 = 2^60 - 1].  The model uses this bound for
    every [Key] and [Value]: for larger buckets it lets some vectors be
    built that the library refuses, which only adds runs. *)
Definition VECTOR_MAX_SIZE : Z := 2 ^ 60 - 1.

(** Capacity of the first submap (constructor, lines 780-782); [estimate]
    is the [size_t] conversion of the [float] expression
    [FCMM_FIRST_SUBMAP_CAPACITY_MULTIPLIER * estimatedNumEntries / maxLoadFactor]. *)
Definition firstSubmapCapacity (estimate : Z) : Z :=
  Z.max FCMM_FIRST_SUBMAP_MIN_CAPACITY (Primes.fcmmNextPrime estimate).

(** Capacity of the submap created by [expand] (line 663). *)
Definition newSubmapCapacity (lastCapacity : Z) : Z :=
  Primes.fcmmNextPrime (size_t_wrap (lastCapacity * FCMM_NEW_SUBMAPS_CAPACITY_MULTIPLIER)).

(** Capacity of the [k]-th submap the map may create. *)
Fixpoint submapCapacity (estimate : Z) (k : nat) : Z :=
  match k with
  | O => firstSubmapCapacity estimate
  | S k' => newSubmapCapacity (submapCapacity estimate k')
  end.

(** [vector[i] = x]: the list update used for the buckets and the submaps. *)
Fixpoint list_set {A : Type} (l : list A) (i : nat) (x : A) : list A :=
  match l, i with
  | [], _ => []
  | _ :: t, O => x :: t
  | h :: t, S i' => h :: list_set t i' x
  end.

(** ** Buckets (lines 271-281) *)

Inductive State := EMPTY | BUSY | VALID.

Section WithTypes.

Context {Key Value : Type}.

(** [KeyEqual] is [std::equal_to<Key>]. *)
Variable key_eq_dec : forall x y : Key, {x = y} + {x <> y}.
Variable default_key : Key.
Variable default_value : Value.
(** [Submap::isOverloaded] (line 535) compares two [float]s,
    [(float) getNumValidBuckets() / getCapacity() >= maxLoadFactor]; the
    comparison is left abstract: [loadFactorReached numValidBuckets capacity]. *)
Variable loadFactorReached : Z -> Z -> bool.

Definition keyEqual (a b : Key) : bool := if key_eq_dec a b then true else false.

Record Bucket := mkBucket { state : State; entry : Key * Value }.

(** [Bucket() : state(State::EMPTY)], the entry default-constructed. *)
Definition Bucket_new : Bucket := mkBucket EMPTY (default_key, default_value).

(** The three writes the code performs on a bucket (lines 492-498):
    the compare-exchange EMPTY -> BUSY, the payload write, and the
    release store of VALID. *)
Definition bucket_cas (b : Bucket) : option Bucket :=
  match state b with
  | EMPTY => Some (mkBucket BUSY (entry b))
  | _ => None
  end.

Definition bucket_write (b : Bucket) (e : Key * Value) : Bucket := mkBucket (state b) e.

Definition bucket_publish (b : Bucket) : Bucket := mkBucket VALID (entry b).

(** ** Submaps (lines 286-556) *)

Record Submap := mkSubmap { buckets : list Bucket; numValidBuckets : Z }.

Definition Submap_new (capacity : Z) : Submap :=
  mkSubmap (repeat Bucket_new (Z.to_nat capacity)) 0.

Definition getCapacity (sm : Submap) : Z := Z.of_nat (length (buckets sm)).

Definition getBucket (sm : Submap) (index : Z) : Bucket :=
  nth (Z.to_nat index) (buckets sm) Bucket_new.

Definition setBucket (sm : Submap) (index : Z) (b : Bucket) : Submap :=
  mkSubmap (list_set (buckets sm) (Z.to_nat index) b) (numValidBuckets sm).

Definition incrementNumValidBuckets (sm : Submap) : Submap :=
  mkSubmap (buckets sm) (numValidBuckets sm + 1).

Definition calculateProbeIncrement (sm : Submap) (hash2 : Z) : Z :=
  1 + hash2 mod (getCapacity sm - 1).

(** [index = (index + probeIncrement) % getCapacity()] *)
Definition nextIndex (sm : Submap) (probeIncrement index : Z) : Z :=
  size_t_wrap (index + probeIncrement) mod getCapacity sm.

Definition isOverloaded (sm : Submap) : bool :=
  loadFactorReached (numValidBuckets sm) (getCapacity sm).

(** The do-while loop of [Submap::find] (lines 384-408); [fuel] bounds the
    number of further iterations by the capacity, which the loop never
    exceeds since [index] is back at [startIndex] after [capacity] steps. *)
Fixpoint find_probe (sm : Submap) (key : Key) (startIndex probeIncrement : Z)
    (fuel : nat) (index : Z) : Z * bool :=
  let bucket := getBucket sm index in
  match state bucket, keyEqual (fst (entry bucket)) key with
  | VALID, true => (index, true)
  | EMPTY, _ => (0, false)
  | _, _ =>
      let index' := nextIndex sm probeIncrement index in
      if index' =? startIndex then (0, false)
      else match fuel with
           | O => (0, false)
           | S fuel' => find_probe sm key startIndex probeIncrement fuel' index'
           end
  end.

Definition Submap_find (sm : Submap) (key : Key) (hash1 hash2 : Z) : Z * bool :=
  let startIndex := hash1 mod getCapacity sm in
  find_probe sm key startIndex (calculateProbeIncrement sm hash2)
    (length (buckets sm)) startIndex.

Inductive SubmapInsertResult :=
  | SI_Inserted (index : Z)   (* [std::make_pair(index, true)] *)
  | SI_Present (index : Z)    (* [std::make_pair(index, false)] *)
  | SI_Full.                  (* [throw FullSubmapException()] *)

(** The do-while loop of [Submap::insert] (lines 476-525), as run by one
    thread: the compare-exchange on a bucket observed EMPTY succeeds.  The
    value is computed the first time an EMPTY bucket is met, which is also
    the bucket the entry is written to. *)
Fixpoint insert_probe (sm : Submap) (key : Key) (computeValue : Key -> Value)
    (startIndex probeIncrement : Z) (fuel : nat) (index : Z) : Submap * SubmapInsertResult :=
  let bucket := getBucket sm index in
  match bucket_cas bucket with
  | Some busy =>
      let value := computeValue key in
      let bucket' := bucket_publish (bucket_write busy (key, value)) in
      (incrementNumValidBuckets (setBucket sm index bucket'), SI_Inserted index)
  | None =>
      if match state bucket with VALID => keyEqual (fst (entry bucket)) key | _ => false end
      then (sm, SI_Present index)
      else
        let index' := nextIndex sm probeIncrement index in
        if index' =? startIndex then (sm, SI_Full)
        else match fuel with
             | O => (sm, SI_Full)
             | S fuel' => insert_probe sm key computeValue startIndex probeIncrement fuel' index'
             end
  end.

Definition Submap_insert (sm : Submap) (key : Key) (hash1 hash2 : Z)
    (computeValue : Key -> Value) : Submap * SubmapInsertResult :=
  let startIndex := hash1 mod getCapacity sm in
  insert_probe sm key computeValue startIndex (calculateProbeIncrement sm hash2)
    (length (buckets sm)) startIndex.

(** The probe sequence: the index after [i] iterations of the loops above. *)
Fixpoint probe (sm : Submap) (hash1 hash2 : Z) (i : nat) : Z :=
  match i with
  | O => hash1 mod getCapacity sm
  | S i' => nextIndex sm (calculateProbeIncrement sm hash2) (probe sm hash1 hash2 i')
  end.

(** ** The map (lines 558-1000) *)

Variable keyHash1 keyHash2 : Key -> Z.

Record FcmmT := mkFcmm {
  submaps : list Submap;   (* the published submaps, indices [0, numSubmaps) *)
  maxNumSubmaps : Z;       (* [submaps.size()] *)
  numEntries : Z;
  expanding : bool         (* the [std::atomic_flag] *)
}.

Definition getNumSubmaps (m : FcmmT) : Z := Z.of_nat (length (submaps m)).

Definition getMaxNumSubmaps (m : FcmmT) : Z := maxNumSubmaps m.

Definition getSubmap (m : FcmmT) (index : Z) : Submap :=
  nth (Z.to_nat index) (submaps m) (Submap_new 0).

Definition setSubmap (m : FcmmT) (index : Z) (sm : Submap) : FcmmT :=
  mkFcmm (list_set (submaps m) (Z.to_nat index) sm) (maxNumSubmaps m) (numEntries m) (expanding m).

Definition setExpanding (m : FcmmT) (b : bool) : FcmmT :=
  mkFcmm (submaps m) (maxNumSubmaps m) (numEntries m) b.

Definition incrementNumEntries (m : FcmmT) : FcmmT :=
  mkFcmm (submaps m) (maxNumSubmaps m) (numEntries m + 1) (expanding m).

(** [std::runtime_error], [std::length_error], [std::logic_error],
    [std::out_of_range]. *)
Inductive FcmmError := RuntimeError | LengthError | LogicError | OutOfRange.

(** How a mutating operation ends, with the map's state at that point. *)
Inductive Outcome (A : Type) :=
  | Returns (m : FcmmT) (a : A)
  | Throws (m : FcmmT) (e : FcmmError)
  | Diverges (m : FcmmT).   (* never returns: spins on [expanding] forever *)

Arguments Returns {A} m a.
Arguments Throws {A} m e.
Arguments Diverges {A} m.


(** [Fcmm::expand] (lines 641-674), run by one thread: if the flag is
    already set nobody else clears it, and the spin loop never ends. *)
Definition expand (m : FcmmT) : Outcome bool :=
  if expanding m then Diverges m
  else
    let m := setExpanding m true in
    let numSubmapsSnapshot := getNumSubmaps m in
    if numSubmapsSnapshot =? getMaxNumSubmaps m then Throws m RuntimeError
    else
      let lastSubmapIndex := numSubmapsSnapshot - 1 in
      let lastSubmap := getSubmap m lastSubmapIndex in
      if isOverloaded lastSubmap then
        let capacity := newSubmapCapacity (getCapacity lastSubmap) in
        if capacity >? VECTOR_MAX_SIZE then Throws m LengthError
        else
          let m := mkFcmm (submaps m ++ [Submap_new capacity]) (maxNumSubmaps m)
                          (numEntries m) (expanding m) in
          Returns (setExpanding m false) true
      else Returns (setExpanding m false) false.

(** [Fcmm::findHelper] (lines 687-699): submaps [lastSubmapIndex] down to
    [0]; a [const_iterator] is the pair (submap index, bucket index) and
    [end()] is [None]. *)
Fixpoint findHelper_scan (m : FcmmT) (key : Key) (hash1 hash2 : Z) (n : nat) : option (Z * Z) :=
  match n with
  | O => None
  | S n' =>
      let submapIndex := Z.of_nat n' in
      match Submap_find (getSubmap m submapIndex) key hash1 hash2 with
      | (index, true) => Some (submapIndex, index)
      | (_, false) => findHelper_scan m key hash1 hash2 n'
      end
  end.

Definition findHelper (m : FcmmT) (key : Key) (hash1 hash2 lastSubmapIndex : Z) : option (Z * Z) :=
  findHelper_scan m key hash1 hash2 (Z.to_nat (lastSubmapIndex + 1)).

Definition find (m : FcmmT) (key : Key) : option (Z * Z) :=
  findHelper m key (keyHash1 key) (keyHash2 key) (getNumSubmaps m - 1).

Definition entryAt (m : FcmmT) (pos : Z * Z) : Key * Value :=
  entry (getBucket (getSubmap m (fst pos)) (snd pos)).

(** [Fcmm::at] and [operator[]] (lines 808-825). *)
Definition at_ (m : FcmmT) (key : Key) : FcmmError + Value :=
  match find m key with
  | None => inl OutOfRange
  | Some pos => inr (snd (entryAt m pos))
  end.

Definition restartAfterExpand {A : Type} (o : Outcome bool) : FcmmT + Outcome A :=
  match o with
  | Returns m' _ => inl m'
  | Throws m' e => inr (Throws m' e)
  | Diverges m' => inr (Diverges m')
  end.

(** One iteration of the [while (1)] loop of [Fcmm::insertHelper]
    (lines 714-749). *)
Definition insert_body (key : Key) (hash1 hash2 : Z) (computeValue : Key -> Value)
    (m : FcmmT) : FcmmT + Outcome ((Z * Z) * bool) :=
  let lastSubmapIndex := getNumSubmaps m - 1 in
  match (if lastSubmapIndex >? 0 then findHelper m key hash1 hash2 (lastSubmapIndex - 1) else None) with
  | Some pos => inr (Returns m (pos, false))
  | None =>
      let lastSubmap := getSubmap m lastSubmapIndex in
      if isOverloaded lastSubmap then restartAfterExpand (expand m)
      else
        match Submap_insert lastSubmap key hash1 hash2 computeValue with
        | (sm', SI_Inserted index) =>
            inr (Returns (incrementNumEntries (setSubmap m lastSubmapIndex sm'))
                         ((lastSubmapIndex, index), true))
        | (_, SI_Present index) => inr (Returns m ((lastSubmapIndex, index), false))
        | (_, SI_Full) => restartAfterExpand (expand m)
        end
  end.

Definition insertHelper (m : FcmmT) (key : Key) (hash1 hash2 : Z)
    (computeValue : Key -> Value) : Outcome ((Z * Z) * bool) :=
  match loop (insert_body key hash1 hash2 computeValue) loop_bound m with
  | inr o => o
  | inl m' => Diverges m'
  end.

Definition insert (m : FcmmT) (key : Key) (computeValue : Key -> Value) : Outcome ((Z * Z) * bool) :=
  insertHelper m key (keyHash1 key) (keyHash2 key) computeValue.

Definition emplace (m : FcmmT) (key : Key) (value : Value) : Outcome ((Z * Z) * bool) :=
  insert m key (fun _ => value).

(** The constructor (lines 762-787); [estimate] as in [firstSubmapCapacity].
    The check [0 < maxLoadFactor < 1] is on [float]s and is not modelled. *)
Definition Fcmm_new (estimate maxNumSubmaps : Z) : FcmmError + FcmmT :=
  if maxNumSubmaps <? 1 then inl LogicError
  else
    let firstCapacity := firstSubmapCapacity estimate in
    if firstCapacity >? VECTOR_MAX_SIZE then inl LengthError
    else inr (mkFcmm [Submap_new firstCapacity] maxNumSubmaps 0 false).

(** [getNumEntries], [size] and [empty] (lines 876-892). *)
Definition getNumEntries (m : FcmmT) : Z := numEntries m.

Definition size (m : FcmmT) : Z := getNumEntries m.

Definition empty (m : FcmmT) : bool := getNumEntries m =? 0.

(** Iteration with [const_iterator]: the VALID buckets, submap by submap,
    bucket by bucket. *)
Definition submapEntries (sm : Submap) : list (Key * Value) :=
  map entry (filter (fun b => match state b with VALID => true | _ => false end) (buckets sm)).

Definition entries (m : FcmmT) : list (Key * Value) := flat_map submapEntries (submaps m).

(** [Submap::seek] (lines 425-443): one iteration of its [while] loop; the
    state is [index]; [inr (index, found)]. *)
Definition Submap_seek_body (sm : Submap) (index : Z) : Z + (Z * bool) :=
  if index <? getCapacity sm then
    match state (getBucket sm index) with
    | VALID => inr (index, true)
    | _ => inl (size_t_wrap (index + 1))
    end
  else inr (index, false).

Definition Submap_seek (sm : Submap) (index : Z) : Z * bool :=
  match loop (Submap_seek_body sm) loop_bound index with
  | inr r => r
  | inl index' => (index', false)
  end.

(** [const_iterator] (lines 986-1071), without its [map] pointer. *)
Record const_iterator := mkIterator {
  submapIndex : Z;
  bucketIndex : Z;
  iter_end : bool
}.

Definition getLastSubmapIndex (m : FcmmT) : Z := size_t_wrap (getNumSubmaps m - 1).

(** One iteration of the [while (!end)] loop of [const_iterator::seek]
    (lines 1037-1054). *)
Definition iterator_seek_body (m : FcmmT) (it : const_iterator) : const_iterator + const_iterator :=
  if iter_end it then inr it
  else
    match Submap_seek (getSubmap m (submapIndex it)) (bucketIndex it) with
    | (index, true) => inr (mkIterator (submapIndex it) index false)
    | (_, false) =>
        let submapIndex' := size_t_wrap (submapIndex it + 1) in
        if submapIndex' >? getLastSubmapIndex m then inl (mkIterator 0 0 true)
        else inl (mkIterator submapIndex' 0 false)
    end.

Definition iterator_seek (m : FcmmT) (it : const_iterator) : const_iterator :=
  match loop (iterator_seek_body m) loop_bound it with
  | inr it' => it'
  | inl it' => it'
  end.

(** [next] (lines 1057-1060), i.e. [operator++]. *)
Definition iterator_next (m : FcmmT) (it : const_iterator) : const_iterator :=
  iterator_seek m (mkIterator (submapIndex it) (size_t_wrap (bucketIndex it + 1)) (iter_end it)).

(** The constructor [const_iterator(map, end)] (lines 1062-1068), used by
    [begin()] (lines 897-899) and [end()] (lines 911-913). *)
Definition begin (m : FcmmT) : const_iterator := iterator_seek m (mkIterator 0 0 false).

Definition end_ (m : FcmmT) : const_iterator := iterator_seek m (mkIterator 0 0 true).

(** [operator==] (lines 1079-1082), for two iterators of the same map. *)
Definition iterator_eqb (a b : const_iterator) : bool :=
  (iter_end a && iter_end b) ||
  (negb (iter_end a) && negb (iter_end b) &&
   (submapIndex a =? submapIndex b) && (bucketIndex a =? bucketIndex b)).

(** [operator*] (lines 1097-1099). *)
Definition deref (m : FcmmT) (it : const_iterator) : Key * Value :=
  entry (getBucket (getSubmap m (submapIndex it)) (bucketIndex it)).

(** The loop [for (it = begin(); it != end(); ++it) out.push_back( *it);],
    run at most [fuel] times. *)
Fixpoint iterate_from (m : FcmmT) (it : const_iterator) (fuel : nat) : list (Key * Value) :=
  match fuel with
  | O => []
  | S fuel' =>
      if iterator_eqb it (end_ m) then []
      else deref m it :: iterate_from m (iterator_next m it) fuel'
  end.

Definition iterate (m : FcmmT) (fuel : nat) : list (Key * Value) := iterate_from m (begin m) fuel.

(** ** Bucket transitions and sequences of operations

    The writes a thread may perform on one bucket, each an atomic step of
    the concurrent code: the compare-exchange EMPTY -> BUSY (which only
    succeeds on an EMPTY bucket), the payload write by the owner of a BUSY
    bucket, and the release store VALID by that owner. *)
Inductive bucket_step : Bucket -> Bucket -> Prop :=
  | step_cas (b b' : Bucket) : bucket_cas b = Some b' -> bucket_step b b'
  | step_write (b : Bucket) (e : Key * Value) : state b = BUSY -> bucket_step b (bucket_write b e)
  | step_publish (b : Bucket) : state b = BUSY -> bucket_step b (bucket_publish b).

Definition bucket_steps : Bucket -> Bucket -> Prop := clos_refl_trans Bucket bucket_step.

(** The order EMPTY < BUSY < VALID of the lifecycle. *)
Definition state_rank (st : State) : nat :=
  match st with EMPTY => 0 | BUSY => 1 | VALID => 2 end.

(** Bucket [i] of submap [s]; a submap not yet created reads as empty
    buckets. *)
Definition bucket_at (m : FcmmT) (s i : nat) : Bucket :=
  nth i (buckets (nth s (submaps m) (Submap_new 0))) Bucket_new.

Definition outcome_map {A : Type} (o : Outcome A) : FcmmT :=
  match o with
  | Returns m _ => m
  | Throws m _ => m
  | Diverges m => m
  end.

(** The public operations: [find], [at] / [operator[]], [insert],
    [emplace] and iteration; the [const] ones leave the map as it is. *)
Inductive MapOp :=
  | OpFind (key : Key)
  | OpAt (key : Key)
  | OpInsert (key : Key) (computeValue : Key -> Value)
  | OpEmplace (key : Key) (value : Value)
  | OpIterate.

Definition apply_op (m : FcmmT) (op : MapOp) : FcmmT :=
  match op with
  | OpFind _ | OpAt _ | OpIterate => m
  | OpInsert key computeValue => outcome_map (insert m key computeValue)
  | OpEmplace key value => outcome_map (emplace m key value)
  end.

Definition run_ops (m : FcmmT) (ops : list MapOp) : FcmmT := fold_left apply_op ops m.

(** ** The representation invariant of a submap

    Every VALID entry lies on the probe sequence of its key, at a step
    before the sequence returns to its start, with no EMPTY bucket at an
    earlier step; the capacity is a prime that fits in a [std::vector]. *)
Definition submap_wf (sm : Submap) : Prop :=
  Z.prime (getCapacity sm) /\ getCapacity sm <= VECTOR_MAX_SIZE /\
  forall n b, nth_error (buckets sm) n = Some b -> state b = VALID ->
    let k := fst (entry b) in
    exists i, Z.of_nat i < getCapacity sm /\
      probe sm (keyHash1 k) (keyHash2 k) i = Z.of_nat n /\
      forall j, (j < i)%nat -> state (getBucket sm (probe sm (keyHash1 k) (keyHash2 k) j)) <> EMPTY.

(** The submap holds a VALID entry for [key]. *)
Definition submap_contains (sm : Submap) (key : Key) : Prop :=
  exists b, In b (buckets sm) /\ state b = VALID /\ fst (entry b) = key.

End WithTypes.

Arguments Returns {Key Value A} m a.
Arguments Throws {Key Value A} m e.
Arguments Diverges {Key Value A} m.

End Fcmm.

(** * CppMemo (src/cppmemo.hpp) *)

Module CppMemo.

(** [fnv1Hash] (lines 127-135), on the [std::size_t] hashes it is called
    with by [PairHash1] (lines 137-146). *)
Definition FNV_OFFSET_BASIS : Z := 2166136261.

Definition FNV_PRIME : Z := 16777619.

Definition fnv1Hash (hash1 hash2 : Z) : Z :=
  let hash := FNV_OFFSET_BASIS in
  let hash := Z.lxor (size_t_wrap (hash * FNV_PRIME)) hash1 in
  let hash := Z.lxor (size_t_wrap (hash * FNV_PRIME)) hash2 in
  hash.

(** [PairHash1::operator()]: [hash1] and [hash2] are the [std::hash]es of
    the two components. *)
Definition PairHash1 {T1 T2 : Type} (hash1 : T1 -> Z) (hash2 : T2 -> Z) (pair : T1 * T2) : Z :=
  fnv1Hash (hash1 (fst pair)) (hash2 (snd pair)).

Section Driver.

Context {Key Value : Type}.
Variable key_eq_dec : forall x y : Key, {x = y} + {x <> y}.
(** [Value()]: what the provider returns for a missing key in a dry run. *)
Variable dummyValue : Value.

(** A pure, referentially transparent [Compute(key, provider)]: the
    provider calls it makes, each one chosen from the values returned by
    the previous ones, and the value it finally returns. *)
Inductive Comp :=
  | Ret (v : Value)
  | Req (k : Key) (next : Value -> Comp).

(** The map [values], seen through [find] and [insert] only: the list of
    its entries, the most recently inserted first.  [find] returns the
    latest occurrence of a key (claim C2) and no entry ever changes or
    disappears (claim C3). *)
Definition Values := list (Key * Value).

Fixpoint lookup (vals : Values) (k : Key) : option Value :=
  match vals with
  | [] => None
  | (k', v) :: rest => if key_eq_dec k' k then Some v else lookup rest k
  end.

(** [CircularDependencyException], [std::out_of_range],
    [std::runtime_error], [std::logic_error]. *)
Inductive MemoError :=
  | CircularDependency (keysStack : list Key)
  | OutOfRange
  | RuntimeError
  | LogicError.

(** ** ThreadItemsStack (lines 288-379) *)

Record Item := mkItem { item_key : Key; ready : bool }.

Record ThreadItemsStack := mkStack {
  threadNo : Z;
  groupSize : nat;
  detectCircularDependencies : bool;
  items : list Item;    (* [items.back()] is the head *)
  itemsSet : list Key   (* the [std::unordered_set], without duplicates *)
}.

Definition keyEqual (a b : Key) : bool := if key_eq_dec a b then true else false.

Definition set_find (s : list Key) (k : Key) : bool := existsb (fun k' => keyEqual k' k) s.

Definition set_insert (s : list Key) (k : Key) : list Key :=
  if set_find s k then s else k :: s.

Definition set_erase (s : list Key) (k : Key) : list Key :=
  filter (fun k' => negb (keyEqual k' k)) s.

(** The keys from the bottom of the stack to its top. *)
Definition getKeysStack (st : ThreadItemsStack) : list Key := rev (map item_key (items st)).

Definition push (st : ThreadItemsStack) (key : Key) : MemoError + ThreadItemsStack :=
  let items' := mkItem key false :: items st in
  if detectCircularDependencies st && set_find (itemsSet st) key then
    inl (CircularDependency (rev (map item_key items')))
  else
    inr (mkStack (threadNo st) (S (groupSize st)) (detectCircularDependencies st) items' (itemsSet st)).

Definition pop (st : ThreadItemsStack) : MemoError + ThreadItemsStack :=
  if negb (Nat.eqb (groupSize st) 0) then inl RuntimeError
  else
    match items st with
    | [] => inr st   (* [items.back()] of an empty stack: [run] never pops one *)
    | item :: rest =>
        inr (mkStack (threadNo st) (groupSize st) (detectCircularDependencies st) rest
               (if detectCircularDependencies st then set_erase (itemsSet st) (item_key item)
                else itemsSet st))
    end.

(** [finalizeGroup]: thread 1 reverses the group just pushed, threads 2 and
    more shuffle it with their [std::minstd_rand] ([shuffle], of which the
    proofs only use that it permutes the group). *)
Definition finalizeGroup (shuffle : list Item -> list Item) (st : ThreadItemsStack) : ThreadItemsStack :=
  let g := groupSize st in
  let group := firstn g (items st) in
  let group' :=
    if negb (threadNo st =? 0) && Nat.ltb 1 g then
      if threadNo st =? 1 then rev group else shuffle group
    else group in
  let set' :=
    if detectCircularDependencies st then fold_left set_insert (map item_key group') (itemsSet st)
    else itemsSet st in
  mkStack (threadNo st) 0 (detectCircularDependencies st) (group' ++ skipn g (items st)) set'.

(** [item.ready = true] on [stack.back()]. *)
Definition markReady (st : ThreadItemsStack) : ThreadItemsStack :=
  match items st with
  | [] => st
  | item :: rest =>
      mkStack (threadNo st) (groupSize st) (detectCircularDependencies st)
        (mkItem (item_key item) true :: rest) (itemsSet st)
  end.

(** ** PrerequisitesProvider and PrerequisitesGatherer (lines 381-470) *)

Inductive Mode := NORMAL | DRY_RUN.

(** [PrerequisitesProvider::operator()]: in NORMAL mode [( *values)[key]],
    that is [Fcmm::at]; in DRY_RUN mode a missing key is pushed and
    [dummyValue] returned. *)
Definition provide (mode : Mode) (vals : Values) (st : ThreadItemsStack) (key : Key)
    : MemoError + (ThreadItemsStack * Value) :=
  match mode with
  | NORMAL =>
      match lookup vals key with
      | Some v => inr (st, v)
      | None => inl OutOfRange
      end
  | DRY_RUN =>
      match lookup vals key with
      | Some v => inr (st, v)
      | None =>
          match push st key with
          | inl e => inl e
          | inr st' => inr (st', dummyValue)
          end
      end
  end.

(** [compute(key, prerequisitesProvider)]. *)
Fixpoint run_compute (mode : Mode) (vals : Values) (st : ThreadItemsStack) (c : Comp)
    : MemoError + (ThreadItemsStack * Value) :=
  match c with
  | Ret v => inr (st, v)
  | Req k next =>
      match provide mode vals st k with
      | inl e => inl e
      | inr (st', v) => run_compute mode vals st' (next v)
      end
  end.

(** [declarePrerequisites(key, prerequisitesDeclarer)]: the gatherer is
    called on each declared key in turn and pushes the missing ones. *)
Fixpoint gather (vals : Values) (st : ThreadItemsStack) (keys : list Key)
    : MemoError + ThreadItemsStack :=
  match keys with
  | [] => inr st
  | k :: keys' =>
      match lookup vals k with
      | Some _ => gather vals st keys'
      | None =>
          match push st k with
          | inl e => inl e
          | inr st' => gather vals st' keys'
          end
      end
  end.

(** ** CppMemo::run (lines 474-536) *)

(** How [Compute] is used: [DryRun] for the overloads without
    [DeclarePrerequisites] ([providedDeclarePrerequisites] false), or the
    given [declarePrerequisites] function. *)
Inductive Discovery :=
  | DryRun
  | Declared (declarePrerequisites : Key -> list Key).

(** The calls of [compute] made by a run, the latest first.  A dry-run call
    records how many missing prerequisites it pushed ([getGroupSize()] just
    after it). *)
Inductive Event :=
  | DryRunCall (key : Key) (missing : nat)
  | NormalCall (key : Key).

(** [values.insert(item.key, ...)] with [compute] in NORMAL mode.  With
    [race] set, the entry of the key inserted by another thread is not seen
    and a second entry is added (the duplicates fcmm tolerates). *)
Definition insertNormal (compute : Key -> Comp) (race : bool) (vals : Values)
    (log : list Event) (st : ThreadItemsStack) (key : Key) : MemoError + (Values * list Event) :=
  match lookup vals key, race with
  | Some _, false => inr (vals, log)
  | _, _ =>
      match run_compute NORMAL vals st (compute key) with
      | inl e => inl e
      | inr (_, v) => inr ((key, v) :: vals, NormalCall key :: log)
      end
  end.

(** [values.emplace(itemKey, itemValue)]. *)
Definition emplace (race : bool) (vals : Values) (key : Key) (v : Value) : Values :=
  match lookup vals key, race with
  | Some _, false => vals
  | _, _ => (key, v) :: vals
  end.

Inductive IterResult :=
  | Finished                      (* the stack is empty: [run] returns *)
  | Raised (e : MemoError)        (* an exception leaves [run] *)
  | Continue (vals : Values) (log : list Event) (st : ThreadItemsStack).

(** One iteration of the [while (!stack.empty())] loop of [run]. *)
Definition run_iteration (compute : Key -> Comp) (disc : Discovery)
    (shuffle : list Item -> list Item) (race : bool)
    (vals : Values) (log : list Event) (st : ThreadItemsStack) : IterResult :=
  match items st with
  | [] => Finished
  | item :: _ =>
      let itemKey := item_key item in
      if ready item then
        match insertNormal compute race vals log st itemKey with
        | inl e => Raised e
        | inr (vals', log') =>
            match pop st with
            | inl e => Raised e
            | inr st' => Continue vals' log' st'
            end
        end
      else
        let st1 := markReady st in
        match lookup vals itemKey with
        | Some _ => Continue vals log st1
        | None =>
            match disc with
            | Declared declarePrerequisites =>
                match gather vals st1 (declarePrerequisites itemKey) with
                | inl e => Raised e
                | inr st2 => Continue vals log (finalizeGroup shuffle st2)
                end
            | DryRun =>
                match run_compute DRY_RUN vals st1 (compute itemKey) with
                | inl e => Raised e
                | inr (st2, itemValue) =>
                    let log' := DryRunCall itemKey (groupSize st2) :: log in
                    if Nat.eqb (groupSize st2) 0 then
                      match pop st2 with
                      | inl e => Raised e
                      | inr st3 => Continue (emplace race vals itemKey itemValue) log' (finalizeGroup shuffle st3)
                      end
                    else Continue vals log' (finalizeGroup shuffle st2)
                end
            end
        end
  end.

(** The first two statements of [run]: [stack.push(key); stack.finalizeGroup();]. *)
Definition run_start (tn : Z) (detect : bool) (key : Key) : MemoError + ThreadItemsStack :=
  match push (mkStack tn 0 detect [] []) key with
  | inl e => inl e
  | inr st => inr (finalizeGroup (fun l => l) st)
  end.

(** The loop of a single-threaded [run(0, ...)], for at most [fuel]
    iterations ([None] when the fuel runs out). *)
Fixpoint run_loop (compute : Key -> Comp) (disc : Discovery) (fuel : nat)
    (vals : Values) (log : list Event) (st : ThreadItemsStack)
    : option (MemoError + (Values * list Event)) :=
  match fuel with
  | O => None
  | S fuel' =>
      match run_iteration compute disc (fun l => l) false vals log st with
      | Finished => Some (inr (vals, log))
      | Raised e => Some (inl e)
      | Continue vals' log' st' => run_loop compute disc fuel' vals' log' st'
      end
  end.

(** [getValue] with [numThreads <= 1]: the fast path, [run(0, ...)], then
    [values[key]]. *)
Definition getValue_single (compute : Key -> Comp) (disc : Discovery) (detect : bool)
    (fuel : nat) (key : Key) (vals : Values)
    : option (MemoError + (Value * Values * list Event)) :=
  match lookup vals key with
  | Some v => Some (inr (v, vals, []))
  | None =>
      match run_start 0 detect key with
      | inl e => Some (inl e)
      | inr st =>
          match run_loop compute disc fuel vals [] st with
          | None => None
          | Some (inl e) => Some (inl e)
          | Some (inr (vals', log)) =>
              match lookup vals' key with
              | Some v => Some (inr (v, vals', log))
              | None => Some (inl OutOfRange)
              end
          end
      end
  end.

(** The read-only [getValue(key)] (lines 716-723). *)
Definition getValue_readonly (vals : Values) (key : Key) : MemoError + Value :=
  match lookup vals key with
  | Some v => inr v
  | None => inl LogicError
  end.

(** Each entry of the map was inserted after the declared prerequisites
    of its key: they are all found in the older entries. *)
Fixpoint prereqs_memoized (declarePrerequisites : Key -> list Key) (vals : Values) : Prop :=
  match vals with
  | [] => True
  | (k, _) :: rest =>
      (forall p, In p (declarePrerequisites k) -> lookup rest p <> None) /\
      prereqs_memoized declarePrerequisites rest
  end.

(** ** Multi-threaded [getValue] (lines 546-563)

    [numThreads] threads run [run(threadNo, ...)] on the shared map.  Each
    iteration of a thread's loop is taken as one atomic step; any
    interleaving of these steps is allowed, a thread may miss an insertion
    made concurrently by another one ([race]), and the shuffle of a thread
    numbered 2 or more is any permutation.  An exception leaving a
    [std::thread] calls [std::terminate]. *)

Inductive ThreadState :=
  | Running (st : ThreadItemsStack)
  | Joined
  | Terminated (e : MemoError).

Definition after_iteration (vals : Values) (log : list Event) (ths : list ThreadState)
    (i : nat) (r : IterResult) : Values * list Event * list ThreadState :=
  match r with
  | Finished => (vals, log, Fcmm.list_set ths i Joined)
  | Raised e => (vals, log, Fcmm.list_set ths i (Terminated e))
  | Continue vals' log' st' => (vals', log', Fcmm.list_set ths i (Running st'))
  end.

Inductive mt_step (compute : Key -> Comp) (disc : Discovery)
    : Values * list Event * list ThreadState -> Values * list Event * list ThreadState -> Prop :=
  | mt_step_iteration vals log ths i st shuffle race :
      nth_error ths i = Some (Running st) ->
      (forall l, Permutation l (shuffle l)) ->
      mt_step compute disc (vals, log, ths)
        (after_iteration vals log ths i (run_iteration compute disc shuffle race vals log st)).

Definition thread_start (detect : bool) (key : Key) (tn : nat) : ThreadState :=
  match run_start (Z.of_nat tn) detect key with
  | inl e => Terminated e
  | inr st => Running st
  end.

(** [getValue(key, ..., numThreads)] with [numThreads > 1] returns [v],
    leaving the map [vals']: every thread is joined after its [run]
    returned, and [values[key]] finds [v]. *)
Inductive getValue_multi (compute : Key -> Comp) (disc : Discovery) (detect : bool)
    (numThreads : nat) (key : Key) (vals : Values) : Value -> Values -> Prop :=
  | getValue_multi_found v :
      lookup vals key = Some v ->
      getValue_multi compute disc detect numThreads key vals v vals
  | getValue_multi_run vals' log ths v :
      lookup vals key = None ->
      (1 < numThreads)%nat ->
      clos_refl_trans _ (mt_step compute disc)
        (vals, [], map (thread_start detect key) (seq 0 numThreads)) (vals', log, ths) ->
      Forall (fun t => t = Joined) ths ->
      lookup vals' key = Some v ->
      getValue_multi compute disc detect numThreads key vals v vals'.

(** ** The values [getValue] should return

    [denotes c v]: run with a provider that returns, for every key, the
    value obtained by applying [compute] recursively, [c] returns [v]. *)
Variable compute : Key -> Comp.

Inductive denotes : Comp -> Value -> Prop :=
  | denotes_ret v : denotes (Ret v) v
  | denotes_req k next w v :
      denotes (compute k) w -> denotes (next w) v -> denotes (Req k next) v.

(** [requests c k]: [c], so provided, asks for [k]; [compute key]
    depends on [k] when [requests (compute key) k]. *)
Inductive requests : Comp -> Key -> Prop :=
  | requests_here k next : requests (Req k next) k
  | requests_later k next w k' :
      denotes (compute k) w -> requests (next w) k' -> requests (Req k next) k'.

(** One iteration of the single-threaded [run(0, ...)] after which the
    loop goes on. *)
Inductive run_step (disc : Discovery)
    : Values * list Event * ThreadItemsStack -> Values * list Event * ThreadItemsStack -> Prop :=
  | run_step_continue vals log st vals' log' st' :
      run_iteration compute disc (fun l => l) false vals log st = Continue vals' log' st' ->
      run_step disc (vals, log, st) (vals', log', st').

(** Every entry of the map holds the value of its key. *)
Definition vals_correct (vals : Values) : Prop :=
  forall k v, In (k, v) vals -> denotes (compute k) v.

(** [compute key] asks only for keys [declarePrerequisites key] declares,
    whatever values it is given. *)
Inductive requests_within (ks : list Key) : Comp -> Prop :=
  | within_ret v : requests_within ks (Ret v)
  | within_req k next :
      In k ks -> (forall v, requests_within ks (next v)) -> requests_within ks (Req k next).

End Driver.

Arguments Comp : clear implicits.
Arguments Values : clear implicits.
Arguments MemoError : clear implicits.
Arguments Item : clear implicits.
Arguments ThreadItemsStack : clear implicits.
Arguments Discovery : clear implicits.
Arguments Event : clear implicits.
Arguments IterResult : clear implicits.
Arguments ThreadState : clear implicits.

End CppMemo.

(** * Sample [Compute] functions, on integer keys and values ([Value()] is 0) *)

Module MemoExamples.

Import CppMemo.

(** [Compute(i, p) = if i == 0 then 0 else 1 + p(i - 1)] and its declared
    prerequisites. *)
Definition chain_compute (i : Z) : Comp Z Z :=
  if i =? 0 then Ret 0 else Req (i - 1) (fun p => Ret (1 + p)).

Definition chain_declare (i : Z) : list Z := if i =? 0 then [] else [i - 1].

(** The map and the log a single-threaded [getValue(200)] ends with. *)
Definition chain_values : Values Z Z :=
  map (fun n => (Z.of_nat n, Z.of_nat n)) (rev (seq 0 201)).

Definition chain_log : list (Event Z) :=
  map (fun n => NormalCall (Z.of_nat n)) (rev (seq 0 201)).

(** The stack of thread [tn] when its loop starts. *)
Definition chain_start (tn : Z) : ThreadItemsStack Z :=
  finalizeGroup Z.eq_dec (fun l => l) (mkStack tn 1 false [mkItem 200 false] []).

(** Key 2 asks for 1 and, when 1's value is not 0, for 0 as well; 1 and 0
    are leaves. *)
Definition branch_compute (k : Z) : Comp Z Z :=
  if k =? 2 then Req 1 (fun v => if v =? 0 then Ret 0 else Req 0 (fun w => Ret w))
  else if k =? 1 then Ret 5 else Ret 7.

Definition branch_declare (k : Z) : list Z := if k =? 2 then [1; 0] else [].

(** Key 0 asks for 1 and, when 1's value is not 0, for 0 itself. *)
Definition self_compute (k : Z) : Comp Z Z :=
  if k =? 0 then Req 1 (fun v => if v =? 0 then Ret 0 else Req 0 (fun w => Ret w))
  else if k =? 1 then Ret 5 else Ret 0.

Definition self_declare (k : Z) : list Z := if k =? 0 then [1; 0] else [].

(** Every key is a leaf. *)
Definition leaf_compute (k : Z) : Comp Z Z := Ret 5.

(** Key 0 asks for 1 and 2, key 2 asks for 1, and 1 is a leaf: an acyclic
    graph in which 1 is reached twice. *)
Definition shared_compute (k : Z) : Comp Z Z :=
  if k =? 0 then Req 1 (fun a => Req 2 (fun b => Ret (a + b)))
  else if k =? 2 then Req 1 (fun a => Ret (a + 1)) else Ret 5.

Definition shared_declare (k : Z) : list Z :=
  if k =? 0 then [1; 2] else if k =? 2 then [1] else [].

(** Key [k] asks for [k + 1]: an infinite acyclic graph. *)
Definition up_compute (k : Z) : Comp Z Z := Req (k + 1) (fun v => Ret v).

Definition up_declare (k : Z) : list Z := [k + 1].

(** Key 0 asks for -1 and 1, a negative key asks for itself and a positive
    key [k] for [k + 1]: an infinite graph with a cycle on -1. *)
Definition cyc_compute (k : Z) : Comp Z Z :=
  if k <? 0 then Req k (fun v => Ret v)
  else if k =? 0 then Req (-1) (fun a => Req 1 (fun b => Ret (a + b)))
  else Req (k + 1) (fun v => Ret v).

Definition cyc_declare (k : Z) : list Z :=
  if k <? 0 then [k] else if k =? 0 then [-1; 1] else [k + 1].

End MemoExamples.

(** * Sample maps, on integer keys and values (default key 0, default value 0) *)

Module FcmmExamples.

Import Fcmm.

(** The first hash of a key is the key itself, the second one is 0. *)
Definition sample_hash1 (k : Z) : Z := k.

Definition sample_hash2 (k : Z) : Z := 0.

(** A load-factor test that always reports the submap as overloaded. *)
Definition always_overloaded (numValidBuckets capacity : Z) : bool := true.

(** A load-factor test that never reports the submap as overloaded. *)
Definition never_overloaded (numValidBuckets capacity : Z) : bool := false.

(** A fresh submap of capacity 3. *)
Definition sample_empty_submap : @Submap Z Z := Submap_new 0 0 3.

(** A submap of capacity 3 holding the entry [(0, 10)] in bucket 0, the
    first index of the probe sequence of key 0. *)
Definition sample_submap : @Submap Z Z :=
  mkSubmap [mkBucket VALID (0, 10); mkBucket EMPTY (0, 0); mkBucket EMPTY (0, 0)] 1.

(** A map made of [sample_submap] alone, which may not create any other
    submap. *)
Definition sample_map : @FcmmT Z Z := mkFcmm [sample_submap] 1 1 false.

End FcmmExamples.

(** ** Generic lemmas about [loop] *)

Section LoopFacts.

Context {S R : Type} (body : S -> S + R) (Inv : S -> Prop) (Q : R -> Prop).

Hypothesis body_inv :
  forall s, Inv s -> match body s with inl s' => Inv s' | inr r => Q r end.

Lemma loop_inv :
  forall p s, Inv s -> match loop body p s with inl s' => Inv s' | inr r => Q r end.
Proof.
  induction p as [p IH|p IH|]; intros s Hs; simpl.
  - pose proof (body_inv s Hs) as H0. destruct (body s) as [s0|r]; [|exact H0].
    pose proof (IH s0 H0) as H1. destruct (loop body p s0) as [s1|r]; [|exact H1].
    apply IH; exact H1.
  - pose proof (IH s Hs) as H1. destruct (loop body p s) as [s1|r]; [|exact H1].
    apply IH; exact H1.
  - apply body_inv; exact Hs.
Qed.

Variable m : S -> Z.
Hypothesis m_nonneg : forall s, Inv s -> 0 <= m s.
Hypothesis m_dec : forall s s', Inv s -> body s = inl s' -> m s' + 1 <= m s.

Lemma loop_measure :
  forall p s s', Inv s -> loop body p s = inl s' -> m s' + Zpos p <= m s.
Proof.
  induction p as [p IH|p IH|]; intros s s' Hs Hl; simpl in Hl.
  - destruct (body s) as [s0|r] eqn:Hb; [|discriminate].
    pose proof (m_dec _ _ Hs Hb) as D0.
    assert (Hs0 : Inv s0) by (pose proof (body_inv s Hs) as X; rewrite Hb in X; exact X).
    destruct (loop body p s0) as [s1|r] eqn:Hl0; [|discriminate].
    pose proof (IH _ _ Hs0 Hl0) as D1.
    assert (Hs1 : Inv s1) by (pose proof (loop_inv p s0 Hs0) as X; rewrite Hl0 in X; exact X).
    pose proof (IH _ _ Hs1 Hl) as D2. rewrite Pos2Z.inj_xI. lia.
  - destruct (loop body p s) as [s1|r] eqn:Hl0; [|discriminate].
    pose proof (IH _ _ Hs Hl0) as D1.
    assert (Hs1 : Inv s1) by (pose proof (loop_inv p s Hs) as X; rewrite Hl0 in X; exact X).
    pose proof (IH _ _ Hs1 Hl) as D2. rewrite Pos2Z.inj_xO. lia.
  - pose proof (m_dec _ _ Hs Hl). lia.
Qed.

Lemma loop_returns :
  forall p s, Inv s -> m s < Zpos p -> exists r, loop body p s = inr r /\ Q r.
Proof.
  intros p s Hs Hm.
  pose proof (loop_inv p s Hs) as X.
  destruct (loop body p s) as [s'|r] eqn:Hl.
  - pose proof (loop_measure p s s' Hs Hl). pose proof (m_nonneg s' X). lia.
  - exists r; auto.
Qed.

Lemma loop_first_inr :
  forall p s r, body s = inr r -> loop body p s = inr r.
Proof.
  induction p as [p IH|p IH|]; intros s r Hb; simpl.
  - rewrite Hb. reflexivity.
  - rewrite (IH s r Hb). reflexivity.
  - exact Hb.
Qed.

End LoopFacts.

(** ** Correctness of fcmmIsPrime and fcmmNextPrime *)

Module PrimeFacts.
Import Primes.

Lemma odd_divisor (f n : Z) : (f | n) -> Z.odd n = true -> Z.odd f = true.
Proof.
  intros [g ->] Hn. rewrite Z.odd_mul in Hn. apply andb_prop in Hn. tauto.
Qed.

Lemma odd_witness (x : Z) : Z.odd x = true -> exists a, x = 2 * a + 1.
Proof. intros H. apply Z.odd_spec in H. destruct H as [a Ha]. exists a; lia. Qed.

Definition isPrime_inv (n d : Z) : Prop :=
  3 <= d /\ d <= n + 2 /\ Z.odd d = true /\
  (forall e, 3 <= e < d -> Z.odd e = true -> ~ (e | n)).

Definition isPrime_post (n : Z) (b : bool) : Prop :=
  if b then n = 1 \/ Z.prime n else ~ Z.prime n.

Lemma isPrime_body_ok (n : Z) :
  1 <= n < size_t_modulus -> Z.odd n = true ->
  forall d, isPrime_inv n d ->
  match isPrime_body n d with inl d' => isPrime_inv n d' | inr b => isPrime_post n b end.
Proof.
  intros Hn Hodd d (Hd3 & Hdn & Hdodd & Hnodiv).
  unfold isPrime_body.
  pose proof (Z.div_mod n d ltac:(lia)) as Hdm.
  pose proof (Z.mod_pos_bound n d ltac:(lia)) as Hmb.
  set (q := n / d) in *.
  destruct (Z.ltb_spec q d) as [Hqd|Hqd].
  - (* quotient < divisor: no divisor up to the square root *)
    simpl. destruct (Z.eq_dec n 1) as [->|Hn1]; [left; reflexivity|right].
    split; [lia|]. intros f Hf Hdiv.
    destruct Hdiv as [g Hg].
    assert (Hg1 : 1 < g) by nia.
    assert (Hfo : Z.odd f = true) by (apply (odd_divisor f n); [exists g; lia|exact Hodd]).
    assert (Hgo : Z.odd g = true) by (apply (odd_divisor g n); [exists f; lia|exact Hodd]).
    destruct (Z.le_ge_cases f g) as [Hfg|Hfg].
    + apply (Hnodiv f).
      * destruct (odd_witness f Hfo). split; [lia|]. nia.
      * exact Hfo.
      * exists g; lia.
    + apply (Hnodiv g).
      * destruct (odd_witness g Hgo). split; [lia|]. nia.
      * exact Hgo.
      * exists f; lia.
  - destruct (Z.eqb_spec n (q * d)) as [Heq|Hne].
    + simpl. intros [_ Hp]. apply (Hp d); [nia|exists q; lia].
    + assert (Hdd : d * d <= n) by nia.
      unfold isPrime_inv. unfold size_t_wrap, size_t_modulus in *.
      rewrite Z.mod_small by nia.
      split; [lia|]. split; [nia|]. split.
      * rewrite Z.odd_add, Hdodd. reflexivity.
      * intros e He Heo Hediv.
        destruct (Z.lt_ge_cases e d) as [Hlt|Hge].
        -- exact (Hnodiv e ltac:(lia) Heo Hediv).
        -- destruct (Z.eq_dec e d) as [->|Hed].
           ++ apply Hne. destruct Hediv as [k Hk].
              assert (k = q) by (unfold q; rewrite Hk, Z.div_mul by lia; reflexivity). subst k; lia.
           ++ assert (e = d + 1) by lia. subst e.
              rewrite Z.odd_add, Hdodd in Heo. discriminate.
Qed.

Lemma isPrime_body_next (n d d' : Z) :
  1 <= n < size_t_modulus -> isPrime_inv n d -> isPrime_body n d = inl d' -> d' = d + 2.
Proof.
  intros Hn (Hd3 & _ & _ & _) Hb. unfold isPrime_body in Hb.
  destruct (Z.ltb_spec (n / d) d) as [_|Hqd]; [discriminate|].
  destruct (n =? n / d * d); [discriminate|].
  injection Hb as <-.
  pose proof (Z.mul_div_le n d ltac:(lia)) as Hle.
  assert (d * d <= n) by nia.
  unfold size_t_wrap, size_t_modulus in *. apply Z.mod_small. nia.
Qed.

Lemma fcmmIsPrime_spec (n : Z) :
  1 <= n < size_t_modulus -> Z.odd n = true -> isPrime_post n (fcmmIsPrime n).
Proof.
  intros Hn Hodd. unfold fcmmIsPrime.
  destruct (loop_returns (isPrime_body n) (isPrime_inv n) (isPrime_post n)
              (isPrime_body_ok n Hn Hodd) (fun d => n + 2 - d)) with (p := loop_bound) (s := 3)
    as [b [Hb Hpost]].
  - intros d (H1 & H2 & _). lia.
  - intros d d' Hinv Hb. rewrite (isPrime_body_next n d d' Hn Hinv Hb). lia.
  - split; [lia|]. split; [lia|]. split; [reflexivity|]. intros e He. lia.
  - unfold loop_bound, size_t_modulus in *. lia.
  - rewrite Hb. exact Hpost.
Qed.

Lemma fcmmIsPrime_1 : fcmmIsPrime 1 = true.
Proof. vm_compute. reflexivity. Qed.

Lemma prime_odd (q : Z) : Z.prime q -> q <> 2 -> Z.odd q = true.
Proof.
  intros Hq Hq2. destruct (Z.odd q) eqn:E; [reflexivity|exfalso].
  assert (He : Z.even q = true) by (rewrite <- Z.negb_odd, E; reflexivity).
  apply Z.even_spec in He. destruct He as [k Hk].
  pose proof (Z.prime_ge_2 q Hq). apply (proj2 Hq 2); [lia|exists k; lia].
Qed.

Definition np_inv (c : Z) : Prop := 1 <= c < size_t_modulus /\ Z.odd c = true.

Definition np_measure (c : Z) : Z := if c =? 1 then 0 else (size_t_modulus + 1 - c) / 2.

Lemma np_measure_nonneg (c : Z) : np_inv c -> 0 <= np_measure c.
Proof.
  intros [Hc _]. unfold np_measure. destruct (c =? 1); [lia|].
  apply Z.div_pos; unfold size_t_modulus in *; lia.
Qed.

Lemma np_measure_bound (c : Z) : np_inv c -> np_measure c < Zpos loop_bound.
Proof.
  intros [Hc _]. unfold np_measure. destruct (c =? 1); [reflexivity|].
  assert ((size_t_modulus + 1 - c) / 2 <= 2 ^ 63)
    by (apply Z.div_le_upper_bound; unfold size_t_modulus in *; lia).
  unfold loop_bound, size_t_modulus in *. lia.
Qed.

Lemma nextPrime_body_ok (c : Z) :
  np_inv c -> match nextPrime_body c with inl c' => np_inv c' | inr r => r = 1 \/ Z.prime r end.
Proof.
  intros [Hc Hodd]. unfold nextPrime_body.
  pose proof (fcmmIsPrime_spec c Hc Hodd) as Hs.
  destruct (fcmmIsPrime c); [exact Hs|].
  unfold np_inv, size_t_wrap. unfold size_t_modulus in *.
  destruct (Z.lt_ge_cases (c + 2) (2 ^ 64)) as [Hlt|Hge].
  - rewrite Z.mod_small by lia. split; [lia|]. rewrite Z.odd_add, Hodd. reflexivity.
  - destruct (odd_witness c Hodd) as [a Ha].
    assert (Hc' : c = 2 ^ 64 - 1) by lia. rewrite Hc'.
    assert (E : (2 ^ 64 - 1 + 2) mod 2 ^ 64 = 1) by (vm_compute; reflexivity).
    rewrite E. split; [lia|reflexivity].
Qed.

Lemma np_measure_dec_gen (M c : Z) :
  2 < M -> Z.even M = true -> 1 <= c < M -> Z.odd c = true -> c <> 1 ->
  (if (c + 2) mod M =? 1 then 0 else (M + 1 - (c + 2) mod M) / 2) + 1 <=
  (if c =? 1 then 0 else (M + 1 - c) / 2).
Proof.
  intros HM HeM Hc Hodd Hc1.
  destruct (odd_witness c Hodd) as [a Ha].
  apply Zeven_bool_iff, Zeven_ex in HeM. destruct HeM as [b Hb].
  destruct (Z.eqb_spec c 1) as [|_]; [contradiction|].
  destruct (Z.lt_ge_cases (c + 2) M) as [Hlt|Hge].
  - rewrite Z.mod_small by lia.
    destruct (Z.eqb_spec (c + 2) 1) as [|_]; [lia|].
    rewrite Ha, Hb.
    replace (2 * b + 1 - (2 * a + 1 + 2)) with ((b - a - 1) * 2) by lia.
    replace (2 * b + 1 - (2 * a + 1)) with ((b - a) * 2) by lia.
    rewrite !Z.div_mul by lia. lia.
  - assert (E : (c + 2) mod M = 1).
    { rewrite (Z.mod_unique (c + 2) M 1 1); lia. }
    rewrite E, Z.eqb_refl. rewrite Hb.
    replace (2 * b + 1 - c) with (1 * 2) by lia. rewrite Z.div_mul by lia. lia.
Qed.

Lemma nextPrime_body_inl (c c' : Z) :
  nextPrime_body c = inl c' -> fcmmIsPrime c = false /\ c' = size_t_wrap (c + 2).
Proof.
  unfold nextPrime_body. destruct (fcmmIsPrime c); [discriminate|].
  intros H; injection H as <-. auto.
Qed.
Lemma fcmmIsPrime_false_not_1 (c : Z) : fcmmIsPrime c = false -> c <> 1.
Proof. intros Hp ->. rewrite fcmmIsPrime_1 in Hp; discriminate. Qed.
Lemma nextPrime_measure_dec (c c' : Z) :
  np_inv c -> nextPrime_body c = inl c' -> np_measure c' + 1 <= np_measure c.
Proof.
  intros [Hc Hodd] Hb. apply nextPrime_body_inl in Hb. destruct Hb as [Hp ->].
  apply np_measure_dec_gen; [unfold size_t_modulus; lia|reflexivity|exact Hc|exact Hodd|].
  apply fcmmIsPrime_false_not_1; exact Hp.
Qed.

Lemma nextPrime_start (n : Z) :
  is_size_t n -> 2 < n ->
  np_inv (if n mod 2 =? 0 then size_t_wrap (n + 1) else n) /\
  n <= (if n mod 2 =? 0 then size_t_wrap (n + 1) else n) /\
  (n mod 2 = 0 -> (if n mod 2 =? 0 then size_t_wrap (n + 1) else n) = n + 1).
Proof.
  intros Hn H2. unfold is_size_t, np_inv, size_t_wrap, size_t_modulus in *.
  pose proof (Z.div_mod n 2 ltac:(lia)) as Hdm.
  pose proof (Z.mod_pos_bound n 2 ltac:(lia)) as Hmb.
  destruct (Z.eqb_spec (n mod 2) 0) as [He|Ho].
  - assert (Hlt : n + 1 < 2 ^ 64) by lia.
    rewrite Z.mod_small by lia. split; [split; [lia|]|split; [lia|reflexivity]].
    replace (n + 1) with (1 + 2 * (n / 2)) by lia. rewrite Z.odd_add_mul_2. reflexivity.
  - split; [split; [lia|]|split; [lia|intros; lia]].
    replace n with (1 + 2 * (n / 2)) by lia. rewrite Z.odd_add_mul_2. reflexivity.
Qed.

(** Whatever its argument, [fcmmNextPrime] returns a prime or, after the
    [n += 2] of its loop wrapped around [2^64], the number [1]. *)
Lemma fcmmNextPrime_prime_or_one (n : Z) :
  is_size_t n -> fcmmNextPrime n = 1 \/ Z.prime (fcmmNextPrime n).
Proof.
  intros Hn. unfold fcmmNextPrime.
  destruct (Z.leb_spec n 2) as [Hle|Hgt]; [right; exact Z.prime_2|].
  destruct (nextPrime_start n Hn Hgt) as [Hinv _].
  destruct (loop_returns nextPrime_body np_inv (fun r => r = 1 \/ Z.prime r)
              nextPrime_body_ok np_measure np_measure_nonneg nextPrime_measure_dec
              loop_bound _ Hinv (np_measure_bound _ Hinv)) as [r [Hr HQ]].
  rewrite Hr. exact HQ.
Qed.

Definition np_inv_between (lo q c : Z) : Prop := np_inv c /\ 3 <= c /\ lo <= c <= q.

Lemma nextPrime_body_between (lo q : Z) :
  Z.prime q -> q < size_t_modulus -> forall c, np_inv_between lo q c ->
  match nextPrime_body c with
  | inl c' => np_inv_between lo q c'
  | inr r => Z.prime r /\ lo <= r
  end.
Proof.
  intros Hq Hqb c [[Hc Hodd] [H3 Hcq]]. unfold nextPrime_body.
  pose proof (fcmmIsPrime_spec c Hc Hodd) as Hs.
  destruct (fcmmIsPrime c); simpl in Hs.
  - split; [|lia]. destruct Hs as [->|Hs]; [lia|exact Hs].
  - assert (Hcq' : c < q) by (destruct (Z.eq_dec c q) as [->|]; [contradiction|lia]).
    assert (Hqo : Z.odd q = true) by (apply prime_odd; [exact Hq|lia]).
    destruct (odd_witness c Hodd) as [a Ha]. destruct (odd_witness q Hqo) as [b Hb].
    unfold np_inv_between, np_inv, size_t_wrap, size_t_modulus in *.
    rewrite Z.mod_small by lia. split; [split; [lia|]|lia].
    rewrite Z.odd_add, Hodd. reflexivity.
Qed.

(** When some prime [q >= n] fits in a [size_t], [fcmmNextPrime n] is a
    prime, at least [n]. *)
Lemma fcmmNextPrime_prime (n q : Z) :
  0 <= n -> n <= q -> q < size_t_modulus -> Z.prime q ->
  Z.prime (fcmmNextPrime n) /\ n <= fcmmNextPrime n.
Proof.
  intros Hn0 Hnq Hqb Hq. unfold fcmmNextPrime.
  destruct (Z.leb_spec n 2) as [Hle|Hgt]; [split; [exact Z.prime_2|lia]|].
  assert (Hn : is_size_t n) by (unfold is_size_t; lia).
  destruct (nextPrime_start n Hn Hgt) as [Hinv [Hge Heven]].
  set (n1 := if n mod 2 =? 0 then size_t_wrap (n + 1) else n) in *.
  assert (Hb : np_inv_between n q n1).
  { split; [exact Hinv|]. split; [lia|]. split; [lia|].
    destruct (Z.eq_dec (n mod 2) 0) as [He|Ho].
    - rewrite (Heven He).
      assert (Hqo : Z.odd q = true) by (apply prime_odd; [exact Hq|lia]).
      destruct (odd_witness q Hqo) as [b Hb].
      pose proof (Z.div_mod n 2 ltac:(lia)). lia.
    - unfold n1. destruct (Z.eqb_spec (n mod 2) 0); [contradiction|lia]. }
  destruct (loop_returns nextPrime_body (np_inv_between n q) (fun r => Z.prime r /\ n <= r)
              (nextPrime_body_between n q Hq Hqb) np_measure
              (fun c Hc => np_measure_nonneg c (proj1 Hc))
              (fun c c' Hc => nextPrime_measure_dec c c' (proj1 Hc))
              loop_bound _ Hb (np_measure_bound _ Hinv)) as [r [Hr HQ]].
  rewrite Hr. exact HQ.
Qed.

Definition np_inv_from (lo c : Z) : Prop := np_inv c /\ (lo <= c \/ c = 1).

Lemma nextPrime_body_from (lo : Z) :
  forall c, np_inv_from lo c ->
  match nextPrime_body c with
  | inl c' => np_inv_from lo c'
  | inr r => r = 1 \/ (Z.prime r /\ lo <= r < size_t_modulus)
  end.
Proof.
  intros c [[Hc Hodd] Hlo]. unfold nextPrime_body.
  pose proof (fcmmIsPrime_spec c Hc Hodd) as Hs.
  destruct (fcmmIsPrime c) eqn:Hp; simpl in Hs.
  - destruct Hs as [->|Hs]; [left; reflexivity|].
    destruct Hlo as [Hlo| ->]; [right; split; [assumption|lia]|left; reflexivity].
  - assert (Hc1 : c <> 1) by (apply fcmmIsPrime_false_not_1; exact Hp).
    destruct (odd_witness c Hodd) as [a Ha].
    unfold np_inv_from, np_inv, size_t_wrap. unfold size_t_modulus in *.
    destruct (Z.lt_ge_cases (c + 2) (2 ^ 64)) as [Hlt|Hge].
    + rewrite Z.mod_small by lia. split; [split; [lia|]|lia].
      rewrite Z.odd_add, Hodd. reflexivity.
    + assert (E : (c + 2) mod 2 ^ 64 = 1).
      { rewrite (Z.mod_unique (c + 2) (2 ^ 64) 1 1); lia. }
      rewrite E. split; [split; [lia|reflexivity]|right; reflexivity].
Qed.

(** [fcmmNextPrime n] is either a prime at least [n], or [1]. *)
Lemma fcmmNextPrime_ge_or_one (n : Z) :
  is_size_t n ->
  fcmmNextPrime n = 1 \/
  (Z.prime (fcmmNextPrime n) /\ n <= fcmmNextPrime n < size_t_modulus).
Proof.
  intros Hn. unfold fcmmNextPrime.
  destruct (Z.leb_spec n 2) as [Hle|Hgt].
  { right; split; [exact Z.prime_2|unfold size_t_modulus; lia]. }
  destruct (nextPrime_start n Hn Hgt) as [Hinv [Hge _]].
  destruct (loop_returns nextPrime_body (np_inv_from n) (fun r => r = 1 \/ (Z.prime r /\ n <= r < size_t_modulus))
              (nextPrime_body_from n) np_measure
              (fun c Hc => np_measure_nonneg c (proj1 Hc))
              (fun c c' Hc => nextPrime_measure_dec c c' (proj1 Hc))
              loop_bound _ (conj Hinv (or_introl Hge)) (np_measure_bound _ Hinv)) as [r [Hr HQ]].
  rewrite Hr. exact HQ.
Qed.

Lemma fcmmIsPrime_true_prime (n : Z) :
  1 < n < size_t_modulus -> Z.odd n = true -> fcmmIsPrime n = true -> Z.prime n.
Proof.
  intros Hn Hodd Hp. pose proof (fcmmIsPrime_spec n ltac:(lia) Hodd) as Hs.
  revert Hp Hs. destruct (fcmmIsPrime n); intros Hp Hs; [|discriminate].
  destruct Hs as [Hs|Hs]; [lia|exact Hs].
Qed.

Lemma prime_65537 : Z.prime 65537.
Proof.
  apply fcmmIsPrime_true_prime; [unfold size_t_modulus; lia|reflexivity|].
  vm_compute. reflexivity.
Qed.

(** A primality certificate for the prime past [2^63] used below
    (Proth's theorem: [N = k * 2^e + 1] with [k < 2^e] is prime as soon
    as [a^((N - 1) / 2) = -1 (mod N)] for some [a]). *)

(** Modular exponentiation by squaring. *)
Fixpoint pow_mod_pos (a : Z) (e : positive) (m : Z) : Z :=
  match e with
  | xH => a mod m
  | xO e' => let r := pow_mod_pos a e' m in (r * r) mod m
  | xI e' => let r := pow_mod_pos a e' m in (r * r * a) mod m
  end.

Lemma pow_mod_pos_spec a e m : 0 < m -> pow_mod_pos a e m = a ^ Zpos e mod m.
Proof.
  intros Hm. induction e as [e IH|e IH|]; simpl pow_mod_pos.
  - rewrite IH. set (x := a ^ Zpos e).
    replace (a ^ Zpos e~1) with (x * x * a)
      by (subst x; rewrite Pos2Z.inj_xI, Z.pow_add_r, Z.pow_1_r, <- Z.add_diag, Z.pow_add_r by lia; ring).
    rewrite <- (Z.mul_assoc (x mod m)), Z.mul_mod_idemp_l by lia.
    rewrite (Z.mul_comm (x mod m) a), Z.mul_assoc, Z.mul_mod_idemp_r by lia.
    f_equal. ring.
  - rewrite IH. set (x := a ^ Zpos e).
    replace (a ^ Zpos e~0) with (x * x)
      by (subst x; rewrite Pos2Z.inj_xO, <- Z.add_diag, Z.pow_add_r by lia; ring).
    rewrite Z.mul_mod_idemp_l, Z.mul_mod_idemp_r by lia. reflexivity.
  - rewrite Z.pow_1_r. reflexivity.
Qed.

(** Every positive number is [2^s * t] with [t] odd. *)
Lemma two_adic x : 0 < x -> exists s t, 0 <= s /\ Z.odd t = true /\ x = 2 ^ s * t.
Proof.
  intros Hx. assert (H : forall n : nat, forall x, 0 < x <= Z.of_nat n ->
    exists s t, 0 <= s /\ Z.odd t = true /\ x = 2 ^ s * t).
  { induction n as [|n IH]; intros y Hy; [lia|].
    destruct (Z.odd y) eqn:Ho.
    - exists 0, y. split; [lia|]. split; [exact Ho|]. rewrite Z.pow_0_r. lia.
    - assert (Hy2 : y = 2 * Z.div2 y) by (rewrite (Z.div2_odd y) at 1; rewrite Ho; simpl; lia).
      destruct (IH (Z.div2 y) ltac:(lia)) as (s & t & Hs & Ht & E).
      exists (s + 1), t. split; [lia|]. split; [exact Ht|].
      rewrite Z.pow_add_r by lia. rewrite Hy2, E. ring. }
  exact (H (Z.to_nat x) x ltac:(lia)).
Qed.


Lemma mod_minus_one p : 2 <= p -> (-1) mod p = p - 1.
Proof. intros Hp. symmetry. apply Z.mod_unique with (-1); lia. Qed.

Lemma pow_mod_one x n p : 0 < p -> 0 <= n -> x mod p = 1 mod p -> x ^ n mod p = 1 mod p.
Proof.
  intros Hp Hn Hx. rewrite <- Z.mod_pow_l, Hx, Z.mod_pow_l, Z.pow_1_l by lia. reflexivity.
Qed.

Lemma pow_mod_minus_one x n p : 0 < p -> 0 <= n -> Z.odd n = true -> x mod p = (-1) mod p ->
  x ^ n mod p = (-1) mod p.
Proof.
  intros Hp Hn0 Hn Hx. rewrite <- Z.mod_pow_l, Hx, Z.mod_pow_l.
  replace (-1) with (- (1)) by reflexivity.
  rewrite Z.pow_opp_odd, Z.pow_1_l by (first [apply Z.odd_spec; exact Hn | lia]). reflexivity.
Qed.

(** Each prime factor [p] of a Proth number has [2^e | p - 1]. *)
Lemma proth_divisor a k e N p :
  1 <= e -> 0 < k -> N = k * 2 ^ e + 1 -> a ^ (k * 2 ^ (e - 1)) mod N = N - 1 ->
  Z.prime p -> (p | N) -> (2 ^ e | p - 1).
Proof.
  intros He Hk HN Ha Hp Hd.
  pose proof (Z.prime_ge_2 _ Hp) as Hp2.
  assert (H2e : 0 < 2 ^ (e - 1)) by (apply Z.pow_pos_nonneg; lia).
  assert (H2e' : 2 ^ e = 2 * 2 ^ (e - 1))
    by (rewrite <- Z.pow_succ_r by lia; f_equal; lia).
  set (M := k * 2 ^ (e - 1)).
  assert (HM : a ^ M mod p = (-1) mod p).
  { destruct Hd as [c Hc].
    unfold M. rewrite <- (Z.mod_mod_divide (a ^ (k * 2 ^ (e - 1))) N p) by (exists c; lia). rewrite Ha.
    replace (N - 1) with (-1 + c * p) by lia. apply Z.mod_add; lia. }
  assert (Hap : a mod p <> 0).
  { intros H0. rewrite <- Z.mod_pow_l, H0, Z.pow_0_l in HM by (unfold M; nia).
    rewrite Z.mod_0_l, mod_minus_one in HM; lia. }
  pose proof (ZmodInv.Z.fermat_nz p a Hp Hap) as HF.
  destruct (two_adic (p - 1) ltac:(lia)) as (s & t & Hs & Ht & Hpt).
  destruct (Z.le_gt_cases e s) as [Hes|Hse].
  - rewrite Hpt. apply Z.divide_mul_l. exists (2 ^ (s - e)).
    rewrite <- Z.pow_add_r by lia. f_equal; lia.
  - exfalso. set (y := a ^ (2 ^ (e - 1))).
    assert (Ht0 : 0 < t) by (destruct (Z.lt_ge_cases 0 t); [lia|];
      assert (0 < 2 ^ s) by (apply Z.pow_pos_nonneg; lia); nia).
    assert (Hyt : y ^ t mod p = 1 mod p).
    { unfold y. rewrite <- Z.pow_mul_r by lia.
      replace (2 ^ (e - 1) * t) with ((p - 1) * 2 ^ (e - 1 - s)).
      - rewrite Z.pow_mul_r by (try apply Z.pow_nonneg; lia).
        apply pow_mod_one; [lia | apply Z.pow_nonneg; lia |]. rewrite HF, Z.mod_1_l; lia.
      - rewrite Hpt, <- Z.mul_assoc, (Z.mul_comm t), Z.mul_assoc, <- Z.pow_add_r by lia.
        f_equal. f_equal. lia. }
    assert (Hyk : y ^ k mod p = (-1) mod p).
    { unfold y. rewrite <- Z.pow_mul_r by lia. rewrite Z.mul_comm. exact HM. }
    assert (E1 : (y ^ k) ^ t mod p = (-1) mod p) by (apply pow_mod_minus_one; first [exact Ht | lia]).
    assert (E2 : (y ^ t) ^ k mod p = 1 mod p) by (apply pow_mod_one; lia).
    rewrite <- !Z.pow_mul_r in E1, E2 by lia. rewrite (Z.mul_comm t k) in E2.
    rewrite E1, mod_minus_one, Z.mod_1_l in E2 by lia.
    assert (p = 2) by lia. subst p.
    destruct Hd as [c Hc]. rewrite HN, H2e' in Hc. lia.
Qed.

Lemma proth a k e N :
  1 <= e -> 0 < k < 2 ^ e -> N = k * 2 ^ e + 1 -> a ^ (k * 2 ^ (e - 1)) mod N = N - 1 ->
  Z.prime N.
Proof.
  intros He Hk HN Ha.
  assert (Hpos : 0 < 2 ^ e) by (apply Z.pow_pos_nonneg; lia).
  assert (Hdiv : forall n d, Z.of_nat n = d -> 1 < d -> (d | N) -> 2 ^ e + 1 <= d).
  { intros n. induction n as [n IH] using (well_founded_induction lt_wf).
    intros d Hnd Hd1 HdN. destruct (prime_dec d) as [Hpr|Hpr].
    - apply prime_alt in Hpr.
      pose proof (proth_divisor a k e N d He ltac:(lia) HN Ha Hpr HdN) as H.
      apply Z.divide_pos_le in H; lia.
    - destruct (not_prime_divide d Hd1 Hpr) as (m & Hm & Hmd).
      assert (2 ^ e + 1 <= m).
      { apply (IH (Z.to_nat m)); [lia | lia | lia | eapply Z.divide_trans; eassumption]. }
      lia. }
  apply prime_alt. destruct (prime_dec N) as [Hpr|Hpr]; [exact Hpr|].
  exfalso. destruct (not_prime_divide N ltac:(nia) Hpr) as (m & Hm & [c Hc]).
  assert (Hm' : 2 ^ e + 1 <= m) by (apply (Hdiv (Z.to_nat m)); [lia | lia | exists c; lia]).
  assert (Hc1 : 1 < c) by nia.
  assert (Hc' : 2 ^ e + 1 <= c) by (apply (Hdiv (Z.to_nat c)); [lia | lia | exists m; lia]).
  nia.
Qed.

Lemma prime_9223372195768565761 : Z.prime 9223372195768565761.
Proof.
  apply (proth 7 2147483685 32); [lia | split; [lia | reflexivity] | reflexivity |].
  change (2147483685 * 2 ^ (32 - 1)) with (Zpos 4611686097884282880).
  rewrite <- pow_mod_pos_spec by lia. vm_compute. reflexivity.
Qed.

End PrimeFacts.


(** ** Facts about Fcmm *)

Module FcmmFacts.

Import Fcmm.

(** [a mod c = b mod c] as soon as [c] divides [a - b]. *)
Lemma mod_eq_of_divide (c a b : Z) : 0 < c -> (c | a - b) -> a mod c = b mod c.
Proof.
  intros Hc [k Hk]. replace a with (b + k * c) by lia. apply Z.mod_add. lia.
Qed.

(** The capacity of the first submap is prime for every [size_t] estimate. *)
Lemma firstSubmapCapacity_prime (estimate : Z) :
  is_size_t estimate -> Z.prime (firstSubmapCapacity estimate).
Proof.
  intros He. unfold firstSubmapCapacity, FCMM_FIRST_SUBMAP_MIN_CAPACITY.
  destruct (PrimeFacts.fcmmNextPrime_ge_or_one estimate He) as [E|[Hp _]].
  - rewrite E. exact PrimeFacts.prime_65537.
  - destruct (Z.max_spec 65537 (Primes.fcmmNextPrime estimate)) as [[_ ->]|[_ ->]];
      [exact Hp|exact PrimeFacts.prime_65537].
Qed.

(** For a capacity that fits in a [std::vector], [8 * capacity] does not
    wrap around, and [nextPrime] of it is prime: the prime
    [9223372195768565761] lies between [8 * VECTOR_MAX_SIZE] and [2^64]. *)
Lemma newSubmapCapacity_prime (c : Z) :
  0 <= c <= VECTOR_MAX_SIZE ->
  newSubmapCapacity c = Primes.fcmmNextPrime (8 * c) /\ Z.prime (newSubmapCapacity c).
Proof.
  intros Hc. unfold newSubmapCapacity, size_t_wrap, FCMM_NEW_SUBMAPS_CAPACITY_MULTIPLIER.
  unfold VECTOR_MAX_SIZE in Hc.
  rewrite Z.mod_small by (unfold size_t_modulus; lia). rewrite Z.mul_comm.
  split; [reflexivity|].
  exact (proj1 (PrimeFacts.fcmmNextPrime_prime (8 * c) 9223372195768565761 ltac:(lia) ltac:(lia)
                  ltac:(unfold size_t_modulus; lia) PrimeFacts.prime_9223372195768565761)).
Qed.

Lemma nth_list_set_eq {A : Type} (l : list A) (i : nat) (x d : A) :
  (i < length l)%nat -> nth i (list_set l i x) d = x.
Proof.
  revert i. induction l as [|h t IH]; intros i Hi; simpl in Hi; [lia|].
  destruct i as [|i]; simpl; [reflexivity|]. apply IH. lia.
Qed.

Lemma nth_list_set_neq {A : Type} (l : list A) (i j : nat) (x d : A) :
  i <> j -> nth j (list_set l i x) d = nth j l d.
Proof.
  revert i j. induction l as [|h t IH]; intros i j Hij; [reflexivity|].
  destruct i as [|i], j as [|j]; simpl; try reflexivity; [contradiction|].
  apply IH. lia.
Qed.

Lemma list_set_out {A : Type} (l : list A) (i : nat) (x : A) :
  (length l <= i)%nat -> list_set l i x = l.
Proof.
  revert i. induction l as [|h t IH]; intros i Hi; [reflexivity|].
  destruct i as [|i]; simpl in *; [lia|]. rewrite IH by lia. reflexivity.
Qed.

Lemma length_list_set {A : Type} (l : list A) (i : nat) (x : A) :
  length (list_set l i x) = length l.
Proof.
  revert i. induction l as [|h t IH]; intros i; [reflexivity|].
  destruct i as [|i]; simpl; [reflexivity|]. rewrite IH. reflexivity.
Qed.

Section Probing.

Context {Key Value : Type}.

(** The increment lies in [1, capacity - 1] as soon as the capacity is at least 2. *)
Lemma probeIncrement_range (sm : @Submap Key Value) (hash2 : Z) :
  2 <= getCapacity sm ->
  1 <= calculateProbeIncrement sm hash2 <= getCapacity sm - 1.
Proof.
  intros Hc. unfold calculateProbeIncrement.
  pose proof (Z.mod_pos_bound hash2 (getCapacity sm - 1) ltac:(lia)). lia.
Qed.

(** While the capacity fits in a [std::vector], [index + probeIncrement]
    does not wrap around, and the probe sequence is the arithmetic one. *)
Lemma probe_formula (sm : @Submap Key Value) (hash1 hash2 : Z) :
  2 <= getCapacity sm -> getCapacity sm <= VECTOR_MAX_SIZE ->
  forall i, probe sm hash1 hash2 i =
            (hash1 + Z.of_nat i * calculateProbeIncrement sm hash2) mod getCapacity sm.
Proof.
  intros Hc Hmax. pose proof (probeIncrement_range sm hash2 Hc) as Hinc.
  set (inc := calculateProbeIncrement sm hash2) in *. set (c := getCapacity sm) in *.
  induction i as [|i IH]; simpl probe.
  - f_equal. lia.
  - fold c. fold inc. rewrite IH. unfold nextIndex, size_t_wrap. fold c.
    pose proof (Z.mod_pos_bound (hash1 + Z.of_nat i * inc) c ltac:(lia)) as Hb.
    rewrite (Z.mod_small (_ + inc)) by (unfold size_t_modulus, VECTOR_MAX_SIZE in *; lia).
    rewrite Z.add_mod_idemp_l by lia. f_equal. lia.
Qed.

Lemma probe_range (sm : @Submap Key Value) (hash1 hash2 : Z) (i : nat) :
  2 <= getCapacity sm -> getCapacity sm <= VECTOR_MAX_SIZE ->
  0 <= probe sm hash1 hash2 i < getCapacity sm.
Proof.
  intros Hc Hmax. rewrite probe_formula by assumption. apply Z.mod_pos_bound. lia.
Qed.

Lemma probe_injective (sm : @Submap Key Value) (hash1 hash2 : Z) :
  Z.prime (getCapacity sm) -> getCapacity sm <= VECTOR_MAX_SIZE ->
  forall i j, Z.of_nat i < getCapacity sm -> Z.of_nat j < getCapacity sm ->
  probe sm hash1 hash2 i = probe sm hash1 hash2 j -> i = j.
Proof.
  intros Hp Hmax i j Hi Hj.
  pose proof (Z.prime_ge_2 _ Hp) as Hc.
  pose proof (probeIncrement_range sm hash2 Hc) as Hinc.
  rewrite !probe_formula by assumption.
  set (inc := calculateProbeIncrement sm hash2) in *. set (c := getCapacity sm) in *.
  intros E.
  rewrite (Z.mod_eq (hash1 + Z.of_nat i * inc)), (Z.mod_eq (hash1 + Z.of_nat j * inc)) in E by lia.
  assert (Hd : (c | (Z.of_nat i - Z.of_nat j) * inc)).
  { exists ((hash1 + Z.of_nat i * inc) / c - (hash1 + Z.of_nat j * inc) / c). lia. }
  destruct (proj1 (Z.divide_prime_mul _ _ _ Hp) Hd) as [[k Hk]|Hd'].
  - assert (k = 0) by nia. lia.
  - apply Z.divide_pos_le in Hd'; lia.
Qed.

Lemma probe_surjective (sm : @Submap Key Value) (hash1 hash2 : Z) :
  Z.prime (getCapacity sm) -> getCapacity sm <= VECTOR_MAX_SIZE ->
  forall x, 0 <= x < getCapacity sm ->
  exists i, Z.of_nat i < getCapacity sm /\ probe sm hash1 hash2 i = x.
Proof.
  intros Hp Hmax x Hx.
  pose proof (Z.prime_ge_2 _ Hp) as Hc.
  pose proof (probeIncrement_range sm hash2 Hc) as Hinc.
  set (inc := calculateProbeIncrement sm hash2) in *. set (c := getCapacity sm) in *.
  assert (Hco : Z.coprime c inc) by (apply Z.coprime_prime_small; [exact Hp|lia]).
  destruct (Z.Bezout_coprime _ _ Hco) as [u [v Huv]].
  pose proof (Z.mod_pos_bound ((x - hash1) * v) c ltac:(lia)) as Hr.
  exists (Z.to_nat (((x - hash1) * v) mod c)). split; [lia|].
  rewrite probe_formula by assumption. fold c. fold inc.
  rewrite Z2Nat.id by lia.
  rewrite <- (Z.mod_small x c) at 2 by lia.
  apply mod_eq_of_divide; [lia|].
  rewrite (Z.mod_eq ((x - hash1) * v)) by lia.
  exists (- (x - hash1) * u - ((x - hash1) * v / c) * inc).
  replace (hash1 + ((x - hash1) * v - c * ((x - hash1) * v / c)) * inc - x)
    with ((x - hash1) * (v * inc - 1) - c * ((x - hash1) * v / c) * inc) by ring.
  replace (v * inc - 1) with (- (u * c)) by lia. ring.
Qed.

Lemma probe_period (sm : @Submap Key Value) (hash1 hash2 : Z) :
  2 <= getCapacity sm -> getCapacity sm <= VECTOR_MAX_SIZE ->
  probe sm hash1 hash2 (Z.to_nat (getCapacity sm)) = probe sm hash1 hash2 0.
Proof.
  intros Hc Hmax. rewrite !probe_formula by assumption.
  rewrite Z2Nat.id by lia. simpl Z.of_nat. rewrite Z.mul_0_l, Z.add_0_r.
  rewrite Z.mul_comm. apply Z.mod_add. lia.
Qed.

(** Claim C4: for a submap whose capacity [c] is prime (and fits in a
    [std::vector]), the probe increment [1 + hash2 mod (c - 1)] lies in
    [1, c - 1], the index after [i] steps is [(hash1 + i * increment) mod c],
    the first [c] indices are pairwise distinct and cover every bucket index
    of [0, c), and step [c] is back at the start index. *)
Theorem probe_sequence_bijective (sm : @Submap Key Value) (hash1 hash2 : Z) :
  Z.prime (getCapacity sm) -> getCapacity sm <= VECTOR_MAX_SIZE ->
  let c := getCapacity sm in
  let inc := calculateProbeIncrement sm hash2 in
  (1 <= inc <= c - 1) /\
  (forall i, probe sm hash1 hash2 i = (hash1 + Z.of_nat i * inc) mod c) /\
  (forall i j, Z.of_nat i < c -> Z.of_nat j < c ->
     probe sm hash1 hash2 i = probe sm hash1 hash2 j -> i = j) /\
  (forall x, 0 <= x < c -> exists i, Z.of_nat i < c /\ probe sm hash1 hash2 i = x) /\
  probe sm hash1 hash2 (Z.to_nat c) = probe sm hash1 hash2 0.
Proof.
  intros Hp Hmax c inc. pose proof (Z.prime_ge_2 _ Hp) as Hc.
  split; [apply probeIncrement_range; exact Hc|].
  split; [apply probe_formula; assumption|].
  split; [apply probe_injective; assumption|].
  split; [apply probe_surjective; assumption|].
  apply probe_period; assumption.
Qed.

End Probing.

Section MapOps.

Context {Key Value : Type}.
Variable key_eq_dec : forall x y : Key, {x = y} + {x <> y}.
Variable default_key : Key.
Variable default_value : Value.
Variable loadFactorReached : Z -> Z -> bool.
Variable keyHash1 keyHash2 : Key -> Z.

Local Abbreviation FcmmT := (@FcmmT Key Value).
Local Abbreviation getSubmap := (Fcmm.getSubmap default_key default_value).
Local Abbreviation getBucket := (Fcmm.getBucket default_key default_value).
Local Abbreviation expand := (Fcmm.expand default_key default_value loadFactorReached).
Local Abbreviation Submap_find := (Fcmm.Submap_find key_eq_dec default_key default_value).
Local Abbreviation findHelper_scan := (Fcmm.findHelper_scan key_eq_dec default_key default_value).
Local Abbreviation find := (Fcmm.find key_eq_dec default_key default_value keyHash1 keyHash2).
Local Abbreviation at_ := (Fcmm.at_ key_eq_dec default_key default_value keyHash1 keyHash2).
Local Abbreviation insert_body := (Fcmm.insert_body key_eq_dec default_key default_value loadFactorReached).
Local Abbreviation insert :=
  (Fcmm.insert key_eq_dec default_key default_value loadFactorReached keyHash1 keyHash2).
Local Abbreviation Bucket_new := (Fcmm.Bucket_new default_key default_value).
Local Abbreviation Submap_new := (Fcmm.Submap_new default_key default_value).
Local Abbreviation bucket_at := (Fcmm.bucket_at default_key default_value).
Local Abbreviation insert_probe := (Fcmm.insert_probe key_eq_dec default_key default_value).
Local Abbreviation Submap_insert := (Fcmm.Submap_insert key_eq_dec default_key default_value).
Local Abbreviation run_ops :=
  (Fcmm.run_ops key_eq_dec default_key default_value loadFactorReached keyHash1 keyHash2).
Local Abbreviation Fcmm_new := (Fcmm.Fcmm_new default_key default_value).
Local Abbreviation keyEqual := (Fcmm.keyEqual key_eq_dec).
Local Abbreviation find_probe := (Fcmm.find_probe key_eq_dec default_key default_value).
Local Abbreviation submap_wf := (Fcmm.submap_wf default_key default_value keyHash1 keyHash2).
Local Abbreviation entryAt := (Fcmm.entryAt default_key default_value).

(** [m'] is reached from [m] by bucket transitions only. *)
Definition buckets_evolve (m m' : FcmmT) : Prop :=
  forall s i, bucket_steps (bucket_at m s i) (bucket_at m' s i).

Lemma buckets_evolve_refl (m : FcmmT) : buckets_evolve m m.
Proof. intros s i. apply rt_refl. Qed.

Lemma buckets_evolve_trans (m1 m2 m3 : FcmmT) :
  buckets_evolve m1 m2 -> buckets_evolve m2 m3 -> buckets_evolve m1 m3.
Proof. intros H1 H2 s i. eapply rt_trans; [apply H1|apply H2]. Qed.

Lemma bucket_steps_valid (b b' : @Bucket Key Value) :
  bucket_steps b b' -> state b = VALID -> b' = b.
Proof.
  induction 1 as [x y Hs|x|x y z _ IH1 _ IH2]; intros Hv.
  - destruct Hs as [x y Hc|x e Hb|x Hb].
    + unfold bucket_cas in Hc. rewrite Hv in Hc. discriminate.
    + rewrite Hv in Hb. discriminate.
    + rewrite Hv in Hb. discriminate.
  - reflexivity.
  - pose proof (IH1 Hv) as E. subst y. apply IH2. exact Hv.
Qed.

Lemma bucket_steps_rank (b b' : @Bucket Key Value) :
  bucket_steps b b' -> (state_rank (state b) <= state_rank (state b'))%nat.
Proof.
  induction 1 as [x y Hs|x|x y z _ IH1 _ IH2]; [|lia|lia].
  destruct Hs as [x y Hc|x e Hb|x Hb].
  - unfold bucket_cas in Hc. destruct (state x); try discriminate.
    injection Hc as <-. simpl. lia.
  - simpl. lia.
  - rewrite Hb. simpl. lia.
Qed.

(** The buckets [insert_probe] writes go through the three transitions. *)
Lemma insert_probe_steps (sm : @Submap Key Value) key computeValue startIndex probeIncrement :
  forall fuel index j,
  bucket_steps (nth j (buckets sm) Bucket_new)
    (nth j (buckets (fst (insert_probe sm key computeValue startIndex probeIncrement fuel index)))
       Bucket_new).
Proof.
  induction fuel as [|fuel IH]; intros index j; simpl insert_probe;
  destruct (bucket_cas (getBucket sm index)) as [busy|] eqn:Hc.
  1, 3: simpl fst; unfold setBucket, incrementNumValidBuckets; simpl buckets;
    destruct (Nat.eq_dec (Z.to_nat index) j) as [<-|Hne];
    [destruct (Nat.lt_ge_cases (Z.to_nat index) (length (buckets sm))) as [Hin|Hout];
       [rewrite nth_list_set_eq by exact Hin|rewrite list_set_out by exact Hout; apply rt_refl]
    |rewrite nth_list_set_neq by exact Hne; apply rt_refl];
    assert (Hbusy : state busy = BUSY)
      by (unfold bucket_cas in Hc; destruct (state _); try discriminate;
          injection Hc as <-; reflexivity);
    eapply rt_trans; [apply rt_step; apply step_cas; exact Hc|];
    eapply rt_trans; [apply rt_step; apply step_write; exact Hbusy|];
    apply rt_step; apply step_publish; exact Hbusy.
  - destruct (match state _ with VALID => _ | _ => false end); [apply rt_refl|].
    destruct (_ =? startIndex); apply rt_refl.
  - destruct (match state _ with VALID => _ | _ => false end); [apply rt_refl|].
    destruct (_ =? startIndex); [apply rt_refl|]. apply IH.
Qed.


Lemma setSubmap_evolve (m : FcmmT) (idx : Z) (sm' : Submap) :
  (forall j, bucket_steps (nth j (buckets (getSubmap m idx)) Bucket_new) (nth j (buckets sm') Bucket_new)) ->
  buckets_evolve m (setSubmap m idx sm').
Proof.
  intros Hsm s i. unfold Fcmm.bucket_at, setSubmap. simpl submaps.
  destruct (Nat.eq_dec (Z.to_nat idx) s) as [<-|Hne].
  - destruct (Nat.lt_ge_cases (Z.to_nat idx) (length (submaps m))) as [Hin|Hout].
    + rewrite nth_list_set_eq by exact Hin. apply Hsm.
    + rewrite list_set_out by exact Hout. apply rt_refl.
  - rewrite nth_list_set_neq by exact Hne. apply rt_refl.
Qed.

Lemma bucket_at_append (m : FcmmT) (c : Z) (s i : nat) :
  nth i (buckets (nth s (submaps m ++ [Submap_new c]) (Submap_new 0))) Bucket_new =
  nth i (buckets (nth s (submaps m) (Submap_new 0))) Bucket_new.
Proof.
  destruct (Nat.lt_ge_cases s (length (submaps m))) as [Hin|Hout].
  - rewrite app_nth1 by exact Hin. reflexivity.
  - rewrite app_nth2 by exact Hout. rewrite (nth_overflow (submaps m)) by exact Hout.
    simpl buckets at 2. destruct i; simpl nth at 2;
    (destruct (s - length (submaps m))%nat as [|k];
       [simpl; apply nth_repeat|simpl; destruct k; reflexivity]).
Qed.

Lemma expand_evolve (m : FcmmT) : forall s i, bucket_at (outcome_map (expand m)) s i = bucket_at m s i.
Proof.
  intros s i. unfold Fcmm.expand.
  destruct (expanding m); [reflexivity|].
  destruct (_ =? _); [reflexivity|].
  destruct (isOverloaded _ _); [|reflexivity].
  destruct (_ >? VECTOR_MAX_SIZE); [reflexivity|].
  unfold Fcmm.bucket_at. simpl. apply bucket_at_append.
Qed.

Lemma restartAfterExpand_evolve {A : Type} (m : FcmmT) :
  match (restartAfterExpand (expand m) : FcmmT + Outcome A) with
  | inl m' => buckets_evolve m m'
  | inr o => buckets_evolve m (outcome_map o)
  end.
Proof.
  pose proof (expand_evolve m) as E. unfold restartAfterExpand.
  destruct (expand m) as [m' b|m' e|m']; simpl in *; intros s i; rewrite E; apply rt_refl.
Qed.

Lemma insert_body_evolve key hash1 hash2 computeValue (m : FcmmT) :
  match insert_body key hash1 hash2 computeValue m with
  | inl m' => buckets_evolve m m'
  | inr o => buckets_evolve m (outcome_map o)
  end.
Proof.
  unfold Fcmm.insert_body.
  destruct (if _ >? 0 then _ else None) as [pos|]; [apply buckets_evolve_refl|].
  destruct (isOverloaded _ _); [apply restartAfterExpand_evolve|].
  destruct (Submap_insert _ key hash1 hash2 computeValue) as [sm' r] eqn:Hi.
  destruct r as [index|index|].
  - simpl outcome_map. intros s i.
    change (bucket_at (incrementNumEntries (setSubmap m (getNumSubmaps m - 1) sm')) s i)
      with (bucket_at (setSubmap m (getNumSubmaps m - 1) sm') s i).
    apply setSubmap_evolve. intros j.
    unfold Fcmm.Submap_insert in Hi.
    lazymatch type of Hi with
    | Fcmm.insert_probe _ _ _ ?sm ?k ?cv ?a ?b ?f ?ix = _ =>
        pose proof (insert_probe_steps sm k cv a b f ix j) as Hs
    end.
    rewrite Hi in Hs. exact Hs.
  - apply buckets_evolve_refl.
  - apply restartAfterExpand_evolve.
Qed.

Lemma insert_evolve (m : FcmmT) key computeValue :
  buckets_evolve m (outcome_map (insert m key computeValue)).
Proof.
  unfold Fcmm.insert, Fcmm.insertHelper.
  pose proof (loop_inv (insert_body key (keyHash1 key) (keyHash2 key) computeValue)
    (buckets_evolve m) (fun o => buckets_evolve m (outcome_map o))) as L.
  assert (Hb : forall m1, buckets_evolve m m1 ->
    match insert_body key (keyHash1 key) (keyHash2 key) computeValue m1 with
    | inl m2 => buckets_evolve m m2
    | inr o => buckets_evolve m (outcome_map o)
    end).
  { intros m1 H1. pose proof (insert_body_evolve key (keyHash1 key) (keyHash2 key) computeValue m1) as H2.
    destruct (insert_body _ _ _ _ m1); eapply buckets_evolve_trans; eassumption. }
  specialize (L Hb loop_bound m (buckets_evolve_refl m)).
  destruct (loop _ loop_bound m); exact L.
Qed.

Lemma run_ops_evolve (ops : list MapOp) : forall m, buckets_evolve m (run_ops m ops).
Proof.
  induction ops as [|op ops IH]; intros m; [apply buckets_evolve_refl|].
  unfold Fcmm.run_ops. simpl fold_left. fold (run_ops (Fcmm.apply_op key_eq_dec default_key default_value loadFactorReached keyHash1 keyHash2 m op) ops).
  eapply buckets_evolve_trans; [|apply IH].
  destruct op as [k|k|k cv|k v|]; simpl; try apply buckets_evolve_refl; apply insert_evolve.
Qed.

(** Claim C3: a bucket is constructed EMPTY (so are all buckets of a new
    submap and of a newly constructed map); each transition moves its state
    up the order EMPTY < BUSY < VALID and none leaves VALID; every sequence
    of [find], [at], [insert], [emplace] and iteration operations changes
    each bucket only through such transitions, so a bucket that is VALID
    keeps its state and its (key, value) entry. *)
Theorem valid_buckets_stable :
  state Bucket_new = EMPTY /\
  (forall c i, state (nth i (buckets (Submap_new c)) Bucket_new) = EMPTY) /\
  (forall estimate maxNum m, Fcmm_new estimate maxNum = inr m ->
     forall s i, state (bucket_at m s i) = EMPTY) /\
  (forall b b' : @Bucket Key Value, bucket_steps b b' -> (state_rank (state b) <= state_rank (state b'))%nat) /\
  (forall b b' : @Bucket Key Value, bucket_steps b b' -> state b = VALID -> b' = b) /\
  (forall m ops s i, bucket_steps (bucket_at m s i) (bucket_at (run_ops m ops) s i)) /\
  (forall m ops s i, state (bucket_at m s i) = VALID ->
     bucket_at (run_ops m ops) s i = bucket_at m s i).
Proof.
  assert (Hnew : forall c i, state (nth i (buckets (Submap_new c)) Bucket_new) = EMPTY).
  { intros c i. simpl. destruct (Nat.lt_ge_cases i (Z.to_nat c)) as [Hi|Hi].
    - rewrite nth_repeat. reflexivity.
    - rewrite nth_overflow by (rewrite repeat_length; exact Hi). reflexivity. }
  split; [reflexivity|]. split; [exact Hnew|]. split.
  { intros e mx m Hm s i. unfold Fcmm.Fcmm_new in Hm.
    destruct (mx <? 1); [discriminate|]. destruct (_ >? VECTOR_MAX_SIZE); [discriminate|].
    injection Hm as <-. unfold Fcmm.bucket_at. simpl submaps.
    destruct s as [|[|s]]; simpl nth at 2; apply Hnew. }
  split; [exact bucket_steps_rank|]. split; [exact bucket_steps_valid|].
  split; [intros m ops s i; apply run_ops_evolve|].
  intros m ops s i Hv. apply bucket_steps_valid; [apply run_ops_evolve|exact Hv].
Qed.

Lemma keyEqual_true (a b : Key) : keyEqual a b = true <-> a = b.
Proof. unfold Fcmm.keyEqual. destruct (key_eq_dec a b); split; congruence. Qed.

Lemma find_probe_sound (sm : @Submap Key Value) key startIndex probeIncrement :
  forall fuel index idx,
  find_probe sm key startIndex probeIncrement fuel index = (idx, true) ->
  state (getBucket sm idx) = VALID /\ fst (entry (getBucket sm idx)) = key.
Proof.
  induction fuel as [|fuel IH]; intros index idx H; simpl find_probe in H;
  destruct (state (getBucket sm index)) eqn:Hs;
  destruct (keyEqual (fst (entry (getBucket sm index))) key) eqn:Hk;
  try discriminate;
  try (injection H as <-; split; [exact Hs|apply keyEqual_true; exact Hk]);
  destruct (_ =? startIndex); try discriminate; eapply IH; exact H.
Qed.

Lemma find_probe_complete (sm : @Submap Key Value) key hash1 hash2 (i : nat) :
  Z.prime (getCapacity sm) -> getCapacity sm <= VECTOR_MAX_SIZE ->
  Z.of_nat i < getCapacity sm ->
  state (getBucket sm (probe sm hash1 hash2 i)) = VALID ->
  fst (entry (getBucket sm (probe sm hash1 hash2 i))) = key ->
  (forall j, (j < i)%nat -> state (getBucket sm (probe sm hash1 hash2 j)) <> EMPTY) ->
  forall fuel j, (j <= i)%nat -> (i <= j + fuel)%nat ->
  snd (find_probe sm key (probe sm hash1 hash2 0) (calculateProbeIncrement sm hash2) fuel
         (probe sm hash1 hash2 j)) = true.
Proof.
  intros Hp Hmax Hi Hv Hk Hne.
  induction fuel as [|fuel IH]; intros j Hji Hf; simpl find_probe;
  change (hash1 mod getCapacity sm) with (probe sm hash1 hash2 0);
  (destruct (Nat.eq_dec j i) as [->|Hji'];
   [rewrite Hv, (proj2 (keyEqual_true _ _) Hk); reflexivity|]);
  (assert (Hj : (j < i)%nat) by lia);
  (destruct (state (getBucket sm (probe sm hash1 hash2 j))) eqn:Hs;
   [exfalso; exact (Hne j Hj Hs)| |
    destruct (keyEqual (fst (entry (getBucket sm (probe sm hash1 hash2 j)))) key);
      [reflexivity|]]);
  change (nextIndex sm (calculateProbeIncrement sm hash2) (probe sm hash1 hash2 j))
    with (probe sm hash1 hash2 (S j));
  (destruct (Z.eqb_spec (probe sm hash1 hash2 (S j)) (probe sm hash1 hash2 0)) as [E|_];
   [apply (probe_injective sm hash1 hash2 Hp Hmax) in E; lia|]);
  try lia; apply IH; lia.
Qed.

Lemma Submap_find_complete (sm : @Submap Key Value) key :
  submap_wf sm -> submap_contains sm key ->
  exists idx, Submap_find sm key (keyHash1 key) (keyHash2 key) = (idx, true).
Proof.
  intros (Hp & Hmax & Hwf) (b & Hin & Hv & Hk).
  destruct (In_nth_error _ _ Hin) as [n Hn].
  destruct (Hwf n b Hn Hv) as (i & Hi & Hpi & Hne). simpl in Hpi, Hne. rewrite Hk in Hpi, Hne.
  assert (Hb : getBucket sm (probe sm (keyHash1 key) (keyHash2 key) i) = b).
  { rewrite Hpi. unfold getBucket. rewrite Nat2Z.id. apply nth_error_nth. exact Hn. }
  pose proof (find_probe_complete sm key (keyHash1 key) (keyHash2 key) i Hp Hmax Hi
    ltac:(rewrite Hb; exact Hv) ltac:(rewrite Hb; exact Hk) Hne (length (buckets sm)) 0
    ltac:(lia) ltac:(unfold getCapacity in Hi; lia)) as H.
  unfold Fcmm.Submap_find. cbv zeta.
  change (probe sm (keyHash1 key) (keyHash2 key) 0) with (keyHash1 key mod getCapacity sm) in H.
  destruct (find_probe sm key (keyHash1 key mod getCapacity sm)
              (calculateProbeIncrement sm (keyHash2 key)) (length (buckets sm))
              (keyHash1 key mod getCapacity sm)) as [idx found] eqn:E.
  exists idx. simpl in H. subst found. reflexivity.
Qed.

Lemma Submap_find_sound (sm : @Submap Key Value) key hash1 hash2 idx :
  Submap_find sm key hash1 hash2 = (idx, true) ->
  state (getBucket sm idx) = VALID /\ fst (entry (getBucket sm idx)) = key /\
  submap_contains sm key.
Proof.
  unfold Fcmm.Submap_find. intros H. apply find_probe_sound in H. destruct H as [Hv Hk].
  split; [exact Hv|]. split; [exact Hk|].
  exists (getBucket sm idx). split; [|split; assumption].
  unfold getBucket in *. apply nth_In.
  destruct (Nat.lt_ge_cases (Z.to_nat idx) (length (buckets sm))) as [Hl|Hl]; [exact Hl|].
  rewrite nth_overflow in Hv by exact Hl. discriminate.
Qed.

Lemma findHelper_scan_spec (m : FcmmT) key hash1 hash2 (n : nat) :
  match findHelper_scan m key hash1 hash2 n with
  | Some (s, idx) =>
      0 <= s < Z.of_nat n /\ Submap_find (getSubmap m s) key hash1 hash2 = (idx, true) /\
      forall s', s < s' < Z.of_nat n -> snd (Submap_find (getSubmap m s') key hash1 hash2) = false
  | None => forall s', 0 <= s' < Z.of_nat n -> snd (Submap_find (getSubmap m s') key hash1 hash2) = false
  end.
Proof.
  induction n as [|n IH]; simpl findHelper_scan; [intros s' Hs'; simpl in Hs'; lia|].
  rewrite Nat2Z.inj_succ in *.
  destruct (Submap_find (getSubmap m (Z.of_nat n)) key hash1 hash2) as [index found] eqn:E.
  destruct found.
  - split; [lia|]. split; [exact E|]. intros; lia.
  - destruct (findHelper_scan m key hash1 hash2 n) as [[s idx]|].
    + destruct IH as (Hs & Hf & Hgt). split; [lia|]. split; [exact Hf|].
      intros s' Hs'. destruct (Z.eq_dec s' (Z.of_nat n)) as [->|]; [rewrite E; reflexivity|].
      apply Hgt. lia.
    + intros s' Hs'. destruct (Z.eq_dec s' (Z.of_nat n)) as [->|]; [rewrite E; reflexivity|].
      apply IH. lia.
Qed.

(** Claim C2: [find] scans the submaps from [numSubmaps - 1] down to [0]
    and returns the first hit of [Submap::find], the one in the
    highest-indexed submap that holds an entry for the key; it returns
    [end()] exactly when no submap holds an entry for the key (given the
    representation invariant of each submap). *)
Theorem find_latest (m : FcmmT) (key : Key) :
  Forall submap_wf (submaps m) ->
  match find m key with
  | Some (s, idx) =>
      0 <= s < getNumSubmaps m /\
      Submap_find (getSubmap m s) key (keyHash1 key) (keyHash2 key) = (idx, true) /\
      state (getBucket (getSubmap m s) idx) = VALID /\ fst (entryAt m (s, idx)) = key /\
      (forall s', s < s' < getNumSubmaps m ->
         snd (Submap_find (getSubmap m s') key (keyHash1 key) (keyHash2 key)) = false /\
         ~ submap_contains (getSubmap m s') key)
  | None => forall s, 0 <= s < getNumSubmaps m -> ~ submap_contains (getSubmap m s) key
  end.
Proof.
  intros Hwf.
  assert (Hwf' : forall s, 0 <= s < getNumSubmaps m -> submap_wf (getSubmap m s)).
  { intros s Hs. rewrite Forall_forall in Hwf. apply Hwf. unfold getSubmap. apply nth_In.
    unfold getNumSubmaps in Hs. lia. }
  assert (Hmiss : forall s, 0 <= s < getNumSubmaps m ->
            snd (Submap_find (getSubmap m s) key (keyHash1 key) (keyHash2 key)) = false ->
            ~ submap_contains (getSubmap m s) key).
  { intros s Hs Hf Hc. destruct (Submap_find_complete _ key (Hwf' s Hs) Hc) as [idx E].
    rewrite E in Hf. discriminate. }
  unfold Fcmm.find, Fcmm.findHelper.
  replace (Z.to_nat (getNumSubmaps m - 1 + 1)) with (length (submaps m))
    by (unfold getNumSubmaps; lia).
  pose proof (findHelper_scan_spec m key (keyHash1 key) (keyHash2 key) (length (submaps m))) as H.
  fold (getNumSubmaps m) in H.
  destruct (findHelper_scan m key (keyHash1 key) (keyHash2 key) (length (submaps m)))
    as [[s idx]|].
  - destruct H as (Hs & Hf & Hgt).
    destruct (Submap_find_sound _ _ _ _ _ Hf) as (Hv & Hk & _).
    split; [exact Hs|]. split; [exact Hf|]. split; [exact Hv|]. split; [exact Hk|].
    intros s' Hs'. split; [apply Hgt; exact Hs'|]. apply Hmiss; [lia|]. apply Hgt. exact Hs'.
  - intros s' Hs'. apply Hmiss; [exact Hs'|]. apply H. exact Hs'.
Qed.

(** Claim C6 (the divergence): once the maximum number of submaps is
    reached, [expand] throws [std::runtime_error] with the [expanding] flag
    still set and the submaps unchanged, and it throws exactly in that case
    (the flag being free); any later [expand] then spins forever.  Through
    [insert]: on a map whose single allowed submap is overloaded, a first
    [insert] throws, and every later [insert] never returns. *)
Theorem expand_full_keeps_flag (m : FcmmT) :
  expanding m = false ->
  ((exists m', expand m = Throws m' RuntimeError) <-> getNumSubmaps m = getMaxNumSubmaps m) /\
  (getNumSubmaps m = getMaxNumSubmaps m ->
     expand m = Throws (setExpanding m true) RuntimeError /\
     expanding (setExpanding m true) = true /\
     submaps (setExpanding m true) = submaps m /\
     expand (setExpanding m true) = Diverges (setExpanding m true) /\
     (getNumSubmaps m = 1 -> isOverloaded loadFactorReached (getSubmap m 0) = true ->
      forall key computeValue key' computeValue',
        insert m key computeValue = Throws (setExpanding m true) RuntimeError /\
        insert (setExpanding m true) key' computeValue' = Diverges (setExpanding m true))).
Proof.
  intros Hexp.
  assert (Hfull : getNumSubmaps m = getMaxNumSubmaps m ->
                  expand m = Throws (setExpanding m true) RuntimeError).
  { intros Heq. unfold Fcmm.expand. rewrite Hexp.
    change (getNumSubmaps (setExpanding m true)) with (getNumSubmaps m).
    change (getMaxNumSubmaps (setExpanding m true)) with (getMaxNumSubmaps m).
    rewrite Heq, Z.eqb_refl. reflexivity. }
  split.
  - split; [|intros Heq; exists (setExpanding m true); exact (Hfull Heq)].
    intros [m' Hm']. unfold Fcmm.expand in Hm'. rewrite Hexp in Hm'.
    change (getNumSubmaps (setExpanding m true)) with (getNumSubmaps m) in Hm'.
    change (getMaxNumSubmaps (setExpanding m true)) with (getMaxNumSubmaps m) in Hm'.
    destruct (Z.eqb_spec (getNumSubmaps m) (getMaxNumSubmaps m)) as [E|_]; [exact E|].
    exfalso. revert Hm'.
    destruct (isOverloaded loadFactorReached _); [|discriminate].
    destruct (_ >? VECTOR_MAX_SIZE); discriminate.
  - intros Heq. pose proof (Hfull Heq) as E1.
    assert (E2 : expand (setExpanding m true) = Diverges (setExpanding m true)) by reflexivity.
    split; [exact E1|]. split; [reflexivity|]. split; [reflexivity|]. split; [exact E2|].
    intros H1 Hov key cv key' cv'. unfold Fcmm.insert, Fcmm.insertHelper.
    assert (B1 : insert_body key (keyHash1 key) (keyHash2 key) cv m =
                 inr (Throws (setExpanding m true) RuntimeError)).
    { unfold Fcmm.insert_body. rewrite H1. simpl (1 - 1 >? 0). simpl (1 - 1).
      rewrite Hov. rewrite E1. reflexivity. }
    assert (B2 : insert_body key' (keyHash1 key') (keyHash2 key') cv' (setExpanding m true) =
                 inr (Diverges (setExpanding m true))).
    { unfold Fcmm.insert_body.
      change (getNumSubmaps (setExpanding m true)) with (getNumSubmaps m).
      rewrite H1. simpl (1 - 1 >? 0). simpl (1 - 1).
      change (getSubmap (setExpanding m true) 0) with (getSubmap m 0).
      rewrite Hov. rewrite E2. reflexivity. }
    rewrite (loop_first_inr _ _ _ _ B1), (loop_first_inr _ _ _ _ B2). split; reflexivity.
Qed.

End MapOps.

(** ** Concrete instances *)

(** The submap of [FcmmExamples.sample_map] satisfies the representation
    invariant. *)
Lemma sample_submap_wf :
  Forall (submap_wf 0 0 FcmmExamples.sample_hash1 FcmmExamples.sample_hash2)
    (submaps FcmmExamples.sample_map).
Proof.
  constructor; [|constructor].
  split; [exact Z.prime_3|]. split; [vm_compute; discriminate|].
  intros n b Hn Hv. destruct n as [|[|[|n]]]; simpl in Hn.
  - injection Hn as <-. exists 0%nat. split; [reflexivity|]. split; [reflexivity|].
    intros j Hj. lia.
  - injection Hn as <-. discriminate.
  - injection Hn as <-. discriminate.
  - destruct n; discriminate.
Qed.

(** Claim C2, at a concrete map: [find] of key 0 in [sample_map]. *)
Lemma find_latest_witness :
  Forall (submap_wf 0 0 FcmmExamples.sample_hash1 FcmmExamples.sample_hash2)
    (submaps FcmmExamples.sample_map) /\
  find Z.eq_dec 0 0 FcmmExamples.sample_hash1 FcmmExamples.sample_hash2
    FcmmExamples.sample_map 0 = Some (0, 0) /\
  Submap_find Z.eq_dec 0 0 (getSubmap 0 0 FcmmExamples.sample_map 0) 0
    (FcmmExamples.sample_hash1 0) (FcmmExamples.sample_hash2 0) = (0, true).
Proof.
  pose proof (find_latest Z.eq_dec 0 0 FcmmExamples.sample_hash1 FcmmExamples.sample_hash2
                FcmmExamples.sample_map 0 sample_submap_wf) as H.
  assert (E : find Z.eq_dec 0 0 FcmmExamples.sample_hash1 FcmmExamples.sample_hash2
                FcmmExamples.sample_map 0 = Some (0, 0)) by (vm_compute; reflexivity).
  rewrite E in H. destruct H as (_ & Hf & _).
  split; [exact sample_submap_wf|]. split; [exact E|exact Hf].
Defined.

(** Claim C4, at a concrete submap: the probe sequence of capacity 3 with
    hashes 1 and 5. *)
Lemma probe_sequence_bijective_witness :
  Z.prime (getCapacity FcmmExamples.sample_empty_submap) /\
  getCapacity FcmmExamples.sample_empty_submap <= VECTOR_MAX_SIZE /\
  calculateProbeIncrement FcmmExamples.sample_empty_submap 5 = 2 /\
  (forall x, 0 <= x < 3 ->
     exists i, Z.of_nat i < 3 /\ probe FcmmExamples.sample_empty_submap 1 5 i = x).
Proof.
  assert (Hp : Z.prime (getCapacity FcmmExamples.sample_empty_submap)) by exact Z.prime_3.
  assert (Hm : getCapacity FcmmExamples.sample_empty_submap <= VECTOR_MAX_SIZE)
    by (vm_compute; discriminate).
  pose proof (probe_sequence_bijective FcmmExamples.sample_empty_submap 1 5 Hp Hm) as H.
  cbv zeta in H. destruct H as (_ & _ & _ & Hs & _).
  split; [exact Hp|]. split; [exact Hm|]. split; [reflexivity|exact Hs].
Defined.

(** Claim C6, at a concrete map: [sample_map] may hold one submap only and
    its submap counts as overloaded; its first [expand] throws and leaves
    the flag set, and the next one never returns. *)
Lemma expand_full_keeps_flag_witness :
  expanding FcmmExamples.sample_map = false /\
  expand 0 0 FcmmExamples.always_overloaded FcmmExamples.sample_map =
    Throws (setExpanding FcmmExamples.sample_map true) RuntimeError /\
  expanding (setExpanding FcmmExamples.sample_map true) = true /\
  expand 0 0 FcmmExamples.always_overloaded (setExpanding FcmmExamples.sample_map true) =
    Diverges (setExpanding FcmmExamples.sample_map true) /\
  insert Z.eq_dec 0 0 FcmmExamples.always_overloaded FcmmExamples.sample_hash1
    FcmmExamples.sample_hash2 (setExpanding FcmmExamples.sample_map true) 5 (fun _ => 1) =
    Diverges (setExpanding FcmmExamples.sample_map true).
Proof.
  pose proof (expand_full_keeps_flag Z.eq_dec 0 0 FcmmExamples.always_overloaded
                FcmmExamples.sample_hash1 FcmmExamples.sample_hash2 FcmmExamples.sample_map
                eq_refl) as [_ H].
  destruct (H eq_refl) as (E1 & F & _ & E2 & I).
  destruct (I eq_refl eq_refl 7 (fun _ => 2) 5 (fun _ => 1)) as [_ I2].
  split; [reflexivity|]. split; [exact E1|]. split; [exact F|]. split; [exact E2|exact I2].
Defined.

End FcmmFacts.

(** * Facts about the memoization driver *)

Module MemoFacts.

Import CppMemo.

Section Runs.

Context {Key Value : Type}.
Variable key_eq_dec : forall x y : Key, {x = y} + {x <> y}.
Variable dummyValue : Value.
Variable compute : Key -> Comp Key Value.

Local Abbreviation lookup := (CppMemo.lookup key_eq_dec).
Local Abbreviation push := (CppMemo.push key_eq_dec).
Local Abbreviation provide := (CppMemo.provide key_eq_dec dummyValue).
Local Abbreviation run_compute := (CppMemo.run_compute key_eq_dec dummyValue).
Local Abbreviation insertNormal := (CppMemo.insertNormal key_eq_dec dummyValue compute).
Local Abbreviation emplace := (CppMemo.emplace key_eq_dec).
Local Abbreviation run_iteration := (CppMemo.run_iteration key_eq_dec dummyValue compute).
Local Abbreviation run_loop := (CppMemo.run_loop key_eq_dec dummyValue compute).
Local Abbreviation getValue_single := (CppMemo.getValue_single key_eq_dec dummyValue compute).
Local Abbreviation getValue_multi := (CppMemo.getValue_multi key_eq_dec dummyValue compute).
Local Abbreviation mt_step := (CppMemo.mt_step key_eq_dec dummyValue compute).
Local Abbreviation run_step := (CppMemo.run_step key_eq_dec dummyValue compute).
Local Abbreviation denotes := (CppMemo.denotes compute).
Local Abbreviation vals_correct := (CppMemo.vals_correct compute).

Lemma lookup_In (vals : Values Key Value) k v : lookup vals k = Some v -> In (k, v) vals.
Proof.
  induction vals as [|[k' v'] rest IH]; simpl; [discriminate|].
  destruct (key_eq_dec k' k) as [->|_].
  - intros [= <-]. left. reflexivity.
  - intros H. right. exact (IH H).
Qed.

Lemma lookup_not_In (vals : Values Key Value) k v : lookup vals k = None -> ~ In (k, v) vals.
Proof.
  induction vals as [|[k' v'] rest IH]; simpl; [tauto|].
  destruct (key_eq_dec k' k) as [->|Hne]; [discriminate|].
  intros H [E|Hin]; [injection E; intros; congruence | exact (IH H Hin)].
Qed.

Lemma lookup_cons_same (vals : Values Key Value) k v : lookup ((k, v) :: vals) k = Some v.
Proof. simpl. destruct (key_eq_dec k k); congruence. Qed.

Lemma denotes_unique c v1 v2 : denotes c v1 -> denotes c v2 -> v1 = v2.
Proof.
  intros H. revert v2. induction H as [v|k next w v Hw IHw Hn IHn]; intros v2 H2;
    inversion H2; subst; [reflexivity|].
  match goal with
  | Hk : CppMemo.denotes compute (compute k) ?w0 |- _ => apply IHw in Hk; subst w0
  end.
  apply IHn. assumption.
Qed.

Lemma push_groupSize st k st' : push st k = inr st' -> groupSize st' = S (groupSize st).
Proof. unfold CppMemo.push. destruct (_ && _); [discriminate|]. intros [= <-]. reflexivity. Qed.

Lemma vals_correct_lookup vals k v : vals_correct vals -> lookup vals k = Some v -> denotes (compute k) v.
Proof. intros Hc Hl. apply Hc, lookup_In, Hl. Qed.

Lemma vals_correct_cons vals k v :
  denotes (compute k) v -> vals_correct vals -> vals_correct ((k, v) :: vals).
Proof. intros Hk Hc k' v' [E|Hin]; [injection E; intros; subst; exact Hk | exact (Hc _ _ Hin)]. Qed.

(** A NORMAL run of [compute] returns the right value and leaves the stack. *)
Lemma run_compute_normal vals st c st' v :
  vals_correct vals -> run_compute NORMAL vals st c = inr (st', v) -> st' = st /\ denotes c v.
Proof.
  intros Hc. revert st. induction c as [v0|k next IH]; intros st; simpl.
  - intros [= <- <-]. split; [reflexivity | constructor].
  - destruct (lookup vals k) as [w|] eqn:E; [|discriminate].
    intros H. destruct (IH w st H) as [-> Hd]. split; [reflexivity|].
    econstructor; [exact (vals_correct_lookup _ _ _ Hc E) | exact Hd].
Qed.

(** A dry run only pushes; if it pushed nothing, its value is the right one. *)
Lemma run_compute_dry vals st c st' v :
  vals_correct vals -> run_compute DRY_RUN vals st c = inr (st', v) ->
  (groupSize st <= groupSize st')%nat /\ (groupSize st' = groupSize st -> denotes c v).
Proof.
  intros Hc. revert st. induction c as [v0|k next IH]; intros st; simpl.
  - intros [= <- <-]. split; [lia | constructor].
  - destruct (lookup vals k) as [w|] eqn:E.
    + intros H. destruct (IH w st H) as [Hle Hd]. split; [exact Hle|].
      intros Heq. econstructor; [exact (vals_correct_lookup _ _ _ Hc E) | exact (Hd Heq)].
    + destruct (push st k) as [e|st1] eqn:P; [discriminate|].
      intros H. destruct (IH dummyValue st1 H) as [Hle _].
      rewrite (push_groupSize _ _ _ P) in Hle. split; [lia | intros; lia].
Qed.

Lemma insertNormal_correct race vals log st key vals' log' :
  vals_correct vals -> insertNormal race vals log st key = inr (vals', log') -> vals_correct vals'.
Proof.
  intros Hc. unfold CppMemo.insertNormal.
  assert (Hadd : forall r, (match run_compute NORMAL vals st (compute key) with
                            | inl e => inl e
                            | inr (_, v) => inr ((key, v) :: vals, NormalCall key :: log)
                            end = r) -> r = inr (vals', log') -> vals_correct vals').
  { intros r <-. destruct (run_compute NORMAL vals st (compute key)) as [e|[st1 v]] eqn:R;
      [discriminate|]. intros [= <- _].
    apply vals_correct_cons; [exact (proj2 (run_compute_normal _ _ _ _ _ Hc R)) | exact Hc]. }
  destruct (lookup vals key), race; try (intros [= <- _]; exact Hc); apply (Hadd _ eq_refl).
Qed.

Lemma emplace_correct race vals k v :
  denotes (compute k) v -> vals_correct vals -> vals_correct (emplace race vals k v).
Proof.
  intros Hk Hc. unfold CppMemo.emplace.
  destruct (lookup vals k), race; try exact Hc; apply vals_correct_cons; assumption.
Qed.

(** One iteration of [run] (any thread, any shuffle, racing or not)
    only adds right values to the map. *)
Lemma run_iteration_correct disc shuffle race vals log st vals' log' st' :
  vals_correct vals ->
  run_iteration disc shuffle race vals log st = Continue vals' log' st' -> vals_correct vals'.
Proof.
  intros Hc. unfold CppMemo.run_iteration.
  destruct (items st) as [|item rest]; [discriminate|].
  destruct (ready item).
  - destruct (insertNormal race vals log st (item_key item)) as [e|[vals1 log1]] eqn:I;
      [discriminate|].
    destruct (CppMemo.pop _ st); [discriminate|]. intros [= <- _ _].
    exact (insertNormal_correct _ _ _ _ _ _ _ Hc I).
  - destruct (lookup vals (item_key item)); [intros [= <- _ _]; exact Hc|].
    destruct disc as [|declare].
    + destruct (run_compute DRY_RUN vals (markReady st) (compute (item_key item)))
        as [e|[st2 v]] eqn:R; [discriminate|].
      destruct (Nat.eqb_spec (groupSize st2) 0) as [G|G].
      * destruct (CppMemo.pop _ st2); [discriminate|]. intros [= <- _ _].
        apply emplace_correct; [|exact Hc].
        destruct (run_compute_dry _ _ _ _ _ Hc R) as [Hle Hd]. apply Hd.
        revert Hle. rewrite G. lia.
      * intros [= <- _ _]. exact Hc.
    + destruct (CppMemo.gather _ _ _ _); [discriminate|]. intros [= <- _ _]. exact Hc.
Qed.

Lemma run_loop_correct disc fuel vals log st vals' log' :
  vals_correct vals -> run_loop disc fuel vals log st = Some (inr (vals', log')) ->
  vals_correct vals'.
Proof.
  revert vals log st. induction fuel as [|fuel IH]; intros vals log st Hc; simpl; [discriminate|].
  destruct (run_iteration disc (fun l => l) false vals log st) as [| e | vals1 log1 st1] eqn:E.
  - intros [= <- _]. exact Hc.
  - discriminate.
  - apply IH. exact (run_iteration_correct _ _ _ _ _ _ _ _ _ Hc E).
Qed.

Lemma mt_step_correct disc s s' :
  mt_step disc s s' -> vals_correct (fst (fst s)) -> vals_correct (fst (fst s')).
Proof.
  intros H. destruct H as [vals log ths i st shuffle race Hi Hp]. simpl. intros Hc.
  unfold after_iteration.
  destruct (run_iteration disc shuffle race vals log st) eqn:E; simpl; try exact Hc.
  exact (run_iteration_correct _ _ _ _ _ _ _ _ _ Hc E).
Qed.

Lemma mt_steps_correct disc s s' :
  clos_refl_trans _ (mt_step disc) s s' -> vals_correct (fst (fst s)) -> vals_correct (fst (fst s')).
Proof.
  intros H. induction H as [s s' H| s | s1 s2 s3 _ IH1 _ IH2]; auto.
  exact (mt_step_correct _ _ _ H).
Qed.

Lemma getValue_single_correct disc detect fuel key vals v vals' log :
  vals_correct vals ->
  getValue_single disc detect fuel key vals = Some (inr (v, vals', log)) ->
  denotes (compute key) v /\ vals_correct vals'.
Proof.
  intros Hc. unfold CppMemo.getValue_single.
  destruct (lookup vals key) as [w|] eqn:E.
  - intros [= <- <- _]. split; [exact (vals_correct_lookup _ _ _ Hc E) | exact Hc].
  - destruct (CppMemo.run_start _ _ _ _); [discriminate|].
    destruct (run_loop disc fuel vals [] t) as [[e|[vals1 log1]]|] eqn:R; try discriminate.
    pose proof (run_loop_correct _ _ _ _ _ _ _ Hc R) as Hc1.
    destruct (lookup vals1 key) eqn:E1; [|discriminate]. intros [= <- <- _].
    split; [exact (vals_correct_lookup _ _ _ Hc1 E1) | exact Hc1].
Qed.

Lemma getValue_multi_correct disc detect n key vals v vals' :
  vals_correct vals -> getValue_multi disc detect n key vals v vals' ->
  denotes (compute key) v /\ vals_correct vals'.
Proof.
  intros Hc H. destruct H as [v E | vals1 log ths v E Hn Hsteps Hj E1].
  - split; [exact (vals_correct_lookup _ _ _ Hc E) | exact Hc].
  - pose proof (mt_steps_correct _ _ _ Hsteps Hc) as Hc1. simpl in Hc1.
    split; [exact (vals_correct_lookup _ _ _ Hc1 E1) | exact Hc1].
Qed.

Lemma nth_error_list_set_eq {A : Type} (l : list A) i (x y : A) :
  nth_error l i = Some y -> nth_error (Fcmm.list_set l i x) i = Some x.
Proof.
  revert i. induction l as [|h t IH]; intros [|i]; simpl; try discriminate; auto.
Qed.

Lemma list_set_list_set {A : Type} (l : list A) i (x y : A) :
  Fcmm.list_set (Fcmm.list_set l i x) i y = Fcmm.list_set l i y.
Proof.
  revert i. induction l as [|h t IH]; intros [|i]; simpl; try reflexivity. rewrite IH. reflexivity.
Qed.

(** A run that returns, performed by one thread with the other threads
    idle, is an interleaving of the multi-threaded model. *)
Lemma run_loop_mt_steps disc fuel vals log st ths i vals' log' :
  nth_error ths i = Some (Running st) ->
  run_loop disc fuel vals log st = Some (inr (vals', log')) ->
  clos_refl_trans _ (mt_step disc) (vals, log, ths) (vals', log', Fcmm.list_set ths i Joined).
Proof.
  revert vals log st ths. induction fuel as [|fuel IH]; intros vals log st ths Hi; simpl;
    [discriminate|].
  pose proof (mt_step_iteration key_eq_dec dummyValue compute disc vals log ths i st
                (fun l => l) false Hi (@Permutation_refl _)) as Hs.
  destruct (run_iteration disc (fun l => l) false vals log st) as [| e | vals1 log1 st1] eqn:E.
  - intros [= <- <-]. apply rt_step. exact Hs.
  - discriminate.
  - intros H. eapply rt_trans; [apply rt_step; exact Hs|]. simpl.
    rewrite <- (list_set_list_set ths i (Running st1) Joined).
    apply (IH vals1 log1 st1); [exact (nth_error_list_set_eq _ _ _ _ Hi) | exact H].
Qed.

(** ** The thread's stack *)

(** [st'] is [st] with not-ready items pushed on top. *)
Definition pushed (st st' : ThreadItemsStack Key) : Prop :=
  exists new, items st' = new ++ items st /\ (length new + groupSize st)%nat = groupSize st' /\
    Forall (fun it => ready it = false) new /\ itemsSet st' = itemsSet st /\
    threadNo st' = threadNo st /\ detectCircularDependencies st' = detectCircularDependencies st.

Lemma pushed_refl st : pushed st st.
Proof. exists []. repeat split; auto. Qed.

Lemma pushed_trans st1 st2 st3 : pushed st1 st2 -> pushed st2 st3 -> pushed st1 st3.
Proof.
  intros (n1 & I1 & G1 & F1 & S1 & T1 & D1) (n2 & I2 & G2 & F2 & S2 & T2 & D2).
  exists (n2 ++ n1). rewrite I2, I1, app_assoc. rewrite length_app.
  repeat split; try congruence; [lia | apply Forall_app; auto].
Qed.

Lemma push_pushed st k st' : push st k = inr st' -> pushed st st'.
Proof.
  unfold CppMemo.push. destruct (_ && _); [discriminate|]. intros [= <-].
  exists [mkItem k false]. repeat split; simpl; auto.
Qed.

Lemma push_error st k e :
  push st k = inl e ->
  e = CircularDependency (getKeysStack (mkStack (threadNo st) (groupSize st)
        (detectCircularDependencies st) (mkItem k false :: items st) (itemsSet st))) /\
  detectCircularDependencies st = true /\ set_find key_eq_dec (itemsSet st) k = true.
Proof.
  unfold CppMemo.push. destruct (detectCircularDependencies st), (set_find _ _ _);
    simpl; try discriminate. intros [= <-]. auto.
Qed.

Lemma run_compute_normal_stack vals st c st' v :
  run_compute NORMAL vals st c = inr (st', v) -> st' = st.
Proof.
  revert st. induction c as [v0|k next IH]; intros st; simpl; [congruence|].
  destruct (lookup vals k) as [w|]; [apply IH | discriminate].
Qed.

Lemma run_compute_dry_pushed vals st c st' v :
  run_compute DRY_RUN vals st c = inr (st', v) -> pushed st st'.
Proof.
  revert st. induction c as [v0|k next IH]; intros st; simpl.
  - intros [= <- _]. apply pushed_refl.
  - destruct (lookup vals k) as [w|]; [apply IH|].
    destruct (push st k) as [e|st1] eqn:P; [discriminate|].
    intros H. exact (pushed_trans _ _ _ (push_pushed _ _ _ P) (IH _ _ H)).
Qed.

(** The gatherer pushes every declared key that is missing. *)
Lemma gather_pushed (vals : Values Key Value) st ks st' :
  CppMemo.gather key_eq_dec vals st ks = inr st' ->
  pushed st st' /\
  forall p, In p ks -> lookup vals p <> None \/
    exists new, items st' = new ++ items st /\ In p (map item_key new).
Proof.
  revert st. induction ks as [|k ks IH]; intros st; simpl.
  - intros [= <-]. split; [apply pushed_refl | tauto].
  - destruct (lookup vals k) as [w|] eqn:E.
    + intros H. destruct (IH st H) as [Hp Hin]. split; [exact Hp|].
      intros p [<-|Hp']; [left; congruence | exact (Hin p Hp')].
    + destruct (push st k) as [e|st1] eqn:P; [discriminate|].
      intros H. destruct (IH st1 H) as [Hp Hin].
      pose proof (push_pushed _ _ _ P) as Hp1.
      split; [exact (pushed_trans _ _ _ Hp1 Hp)|].
      assert (I1 : items st1 = mkItem k false :: items st).
      { revert P. unfold CppMemo.push. destruct (_ && _); [discriminate|]. intros [= <-]. reflexivity. }
      destruct Hp as (n2 & I2 & _).
      intros p [<-|Hp'].
      * right. exists (n2 ++ [mkItem k false]). rewrite I2, I1, <- app_assoc. split; [reflexivity|].
        rewrite map_app, in_app_iff. right. left. reflexivity.
      * destruct (Hin p Hp') as [L | (n3 & I3 & In3)]; [left; exact L|].
        right. exists (n3 ++ [mkItem k false]). rewrite I3, I1, <- app_assoc.
        split; [reflexivity|]. rewrite map_app, in_app_iff. left. exact In3.
Qed.

Lemma gather_error (vals : Values Key Value) st ks e :
  CppMemo.gather key_eq_dec vals st ks = inl e ->
  exists st1 k, pushed st st1 /\ push st1 k = inl e.
Proof.
  revert st. induction ks as [|k ks IH]; intros st; simpl; [discriminate|].
  destruct (lookup vals k); [apply IH|].
  destruct (push st k) as [e'|st1] eqn:P.
  - intros [= <-]. exists st, k. split; [apply pushed_refl | exact P].
  - intros H. destruct (IH st1 H) as (st2 & k2 & Hp & Hk).
    exists st2, k2. split; [exact (pushed_trans _ _ _ (push_pushed _ _ _ P) Hp) | exact Hk].
Qed.

Lemma run_compute_dry_error vals st c e :
  run_compute DRY_RUN vals st c = inl e ->
  exists st1 k, pushed st st1 /\ push st1 k = inl e.
Proof.
  revert st. induction c as [v0|k next IH]; intros st; simpl; [discriminate|].
  destruct (lookup vals k) as [w|]; [apply IH|].
  destruct (push st k) as [e'|st1] eqn:P.
  - intros [= <-]. exists st, k. split; [apply pushed_refl | exact P].
  - intros H. destruct (IH _ st1 H) as (st2 & k2 & Hp & Hk).
    exists st2, k2. split; [exact (pushed_trans _ _ _ (push_pushed _ _ _ P) Hp) | exact Hk].
Qed.

Lemma stack_keyEqual_true a b : keyEqual key_eq_dec a b = true <-> a = b.
Proof. unfold CppMemo.keyEqual. destruct (key_eq_dec a b); split; congruence. Qed.

Lemma set_find_In s k : set_find key_eq_dec s k = true <-> In k s.
Proof.
  unfold set_find. rewrite existsb_exists. split.
  - intros (x & Hx & E). apply stack_keyEqual_true in E. subst x. exact Hx.
  - intros Hk. exists k. split; [exact Hk | apply stack_keyEqual_true; reflexivity].
Qed.

Lemma set_insert_In s k x : In x (set_insert key_eq_dec s k) <-> x = k \/ In x s.
Proof.
  unfold set_insert. destruct (set_find key_eq_dec s k) eqn:E.
  - apply set_find_In in E. split; [tauto|]. intros [->|H]; assumption.
  - simpl. split; intros [H|H]; auto.
Qed.

Lemma fold_set_insert_In l s x : In x (fold_left (set_insert key_eq_dec) l s) <-> In x l \/ In x s.
Proof.
  revert s. induction l as [|k l IH]; intros s; simpl; [tauto|].
  rewrite IH, set_insert_In. split; intros H; intuition (subst; auto).
Qed.

Lemma set_erase_In s k x : In x (set_erase key_eq_dec s k) <-> In x s /\ x <> k.
Proof.
  unfold set_erase. rewrite filter_In. destruct (keyEqual key_eq_dec x k) eqn:E; simpl.
  - apply stack_keyEqual_true in E. split; [intros [_ H]; discriminate | intros [_ H]; contradiction].
  - split; intros [H1 H2]; split; auto.
    + intros ->. rewrite (proj2 (stack_keyEqual_true k k) eq_refl) in E. discriminate.
Qed.

(** Every key of [itemsSet] is the key of an item on the stack, and the set
    stays empty when detection is off. *)
Definition set_ok (st : ThreadItemsStack Key) : Prop :=
  forall x, In x (itemsSet st) ->
    detectCircularDependencies st = true /\ In x (map item_key (items st)).

(** The stack of a single-threaded run between two iterations. *)
Definition stack_wf (st : ThreadItemsStack Key) : Prop :=
  threadNo st = 0 /\ groupSize st = 0%nat /\ set_ok st.

Lemma pushed_set_ok st st' : pushed st st' -> set_ok st -> set_ok st'.
Proof.
  intros (new & I & _ & _ & S & _ & D) Hs x Hx. rewrite S in Hx.
  destruct (Hs x Hx) as [Hd Hin]. rewrite D, I, map_app, in_app_iff. auto.
Qed.

Lemma markReady_items (st : ThreadItemsStack Key) :
  items (markReady st) = match items st with
                         | [] => []
                         | it :: rest => mkItem (item_key it) true :: rest
                         end /\
  threadNo (markReady st) = threadNo st /\ groupSize (markReady st) = groupSize st /\
  detectCircularDependencies (markReady st) = detectCircularDependencies st /\
  itemsSet (markReady st) = itemsSet st.
Proof.
  unfold markReady. destruct st as [tn g d its s]. simpl. destruct its; simpl; repeat split.
Qed.

Lemma markReady_set_ok st : set_ok st -> set_ok (markReady st).
Proof.
  intros Hs x Hx. destruct (markReady_items st) as (I & _ & _ & D & S).
  rewrite S in Hx. destruct (Hs x Hx) as [Hd Hin]. rewrite D, I. split; [exact Hd|].
  destruct (items st) as [|it rest]; simpl in *; tauto.
Qed.

Lemma finalize_thread0 sh st :
  threadNo st = 0 -> set_ok st ->
  items (finalizeGroup key_eq_dec sh st) = items st /\ stack_wf (finalizeGroup key_eq_dec sh st).
Proof.
  intros T Hs. unfold finalizeGroup. rewrite T. simpl.
  rewrite firstn_skipn. split; [reflexivity|]. split; [reflexivity|]. split; [reflexivity|].
  intros x Hx. simpl in Hx |- *.
  destruct (detectCircularDependencies st) eqn:D.
  - apply fold_set_insert_In in Hx. split; [reflexivity|]. destruct Hx as [Hx|Hx].
    + rewrite <- (firstn_skipn (groupSize st) (items st)), map_app, in_app_iff.
      left. exact Hx.
    + exact (proj2 (Hs x Hx)).
  - destruct (Hs x Hx) as [E _]. congruence.
Qed.

Lemma pop_top (st : ThreadItemsStack Key) it rest :
  items st = it :: rest -> groupSize st = 0%nat ->
  pop key_eq_dec st = inr (mkStack (threadNo st) 0 (detectCircularDependencies st) rest
     (if detectCircularDependencies st then set_erase key_eq_dec (itemsSet st) (item_key it)
      else itemsSet st)).
Proof. intros I G. unfold pop. rewrite I, G. reflexivity. Qed.

Lemma pop_stack_wf (st : ThreadItemsStack Key) it rest :
  items st = it :: rest -> stack_wf st ->
  exists st', pop key_eq_dec st = inr st' /\ items st' = rest /\ stack_wf st'.
Proof.
  intros I (T & G & Hs). eexists. split; [exact (pop_top _ _ _ I G)|]. simpl.
  split; [reflexivity|]. split; [exact T|]. split; [reflexivity|].
  intros x Hx. simpl in Hx |- *. destruct (detectCircularDependencies st) eqn:D.
  - apply set_erase_In in Hx. destruct Hx as [Hx Hne].
    destruct (Hs x Hx) as [_ Hin]. rewrite I in Hin. simpl in Hin.
    split; [reflexivity|]. destruct Hin as [E|Hin]; [congruence | exact Hin].
  - destruct (Hs x Hx) as [E _]. congruence.
Qed.

Lemma insertNormal_false vals log st k vals' log' :
  insertNormal false vals log st k = inr (vals', log') ->
  (lookup vals k <> None /\ vals' = vals /\ log' = log) \/
  (lookup vals k = None /\ exists v, run_compute NORMAL vals st (compute k) = inr (st, v) /\
     vals' = (k, v) :: vals /\ log' = NormalCall k :: log).
Proof.
  unfold CppMemo.insertNormal. destruct (lookup vals k) as [w|] eqn:E.
  - intros [= <- <-]. left. split; [discriminate | split; reflexivity].
  - destruct (run_compute NORMAL vals st (compute k)) as [e|[st1 v]] eqn:R; [discriminate|].
    intros [= <- <-]. right. split; [reflexivity|]. exists v.
    pose proof (run_compute_normal_stack _ _ _ _ _ R). subst st1. split; [reflexivity | split; reflexivity].
Qed.

Lemma pushed_from_wf st st2 :
  stack_wf st -> pushed (markReady st) st2 ->
  exists new, items st2 = new ++ items (markReady st) /\ length new = groupSize st2 /\
    Forall (fun i => ready i = false) new /\ threadNo st2 = 0 /\ set_ok st2.
Proof.
  intros (T & G & Hs) Hp. pose proof (pushed_set_ok _ _ Hp (markReady_set_ok _ Hs)) as Hs2.
  destruct (markReady_items st) as (_ & T1 & G1 & _ & _).
  destruct Hp as (new & I & L & F & _ & T2 & _). exists new.
  rewrite G1, G in L. split; [exact I|]. split; [lia|]. split; [exact F|]. split; [congruence | exact Hs2].
Qed.

(** The ways a single-threaded iteration can go on. *)
Lemma run_iteration_shape disc vals log st vals' log' st' :
  stack_wf st ->
  run_iteration disc (fun l => l) false vals log st = Continue vals' log' st' ->
  stack_wf st' /\ exists it rest, items st = it :: rest /\
  ((ready it = true /\ items st' = rest /\
      insertNormal false vals log st (item_key it) = inr (vals', log')) \/
   (ready it = false /\ lookup vals (item_key it) <> None /\ vals' = vals /\ log' = log /\
      items st' = mkItem (item_key it) true :: rest) \/
   (ready it = false /\ lookup vals (item_key it) = None /\ vals' = vals /\ log' = log /\
      exists d new, disc = Declared d /\ items st' = new ++ mkItem (item_key it) true :: rest /\
      Forall (fun i => ready i = false) new /\
      forall p, In p (d (item_key it)) -> lookup vals p <> None \/ In p (map item_key new)) \/
   (ready it = false /\ lookup vals (item_key it) = None /\ disc = DryRun /\ vals' = vals /\
      exists new, new <> [] /\ log' = DryRunCall (item_key it) (length new) :: log /\
      items st' = new ++ mkItem (item_key it) true :: rest /\ Forall (fun i => ready i = false) new) \/
   (ready it = false /\ lookup vals (item_key it) = None /\ disc = DryRun /\
      exists v st2, run_compute DRY_RUN vals (markReady st) (compute (item_key it)) = inr (st2, v) /\
      groupSize st2 = 0%nat /\ vals' = (item_key it, v) :: vals /\
      log' = DryRunCall (item_key it) 0 :: log /\ items st' = rest)).
Proof.
  intros Hwf. pose proof Hwf as (T & G & Hs).
  destruct (markReady_items st) as (MI & MT & MG & MD & MS).
  unfold CppMemo.run_iteration.
  destruct (items st) as [|it rest] eqn:I; [discriminate|].
  destruct (ready it) eqn:R.
  - destruct (insertNormal false vals log st (item_key it)) as [e|[vals1 log1]] eqn:Ins;
      [discriminate|].
    destruct (pop_stack_wf st it rest I Hwf) as (st1 & P & I1 & W1). rewrite P.
    intros [= <- <- <-]. split; [exact W1|]. exists it, rest. split; [reflexivity|].
    left. auto.
  - destruct (lookup vals (item_key it)) as [w|] eqn:L.
    + intros [= <- <- <-].
      split; [split; [congruence | split; [congruence | exact (markReady_set_ok _ Hs)]]|].
      exists it, rest. split; [reflexivity|]. right. left.
      split; [exact R|]. split; [congruence|]. auto.
    + destruct disc as [|d].
      * destruct (run_compute DRY_RUN vals (markReady st) (compute (item_key it)))
          as [e|[st2 v]] eqn:Rc; [discriminate|].
        destruct (pushed_from_wf _ _ Hwf (run_compute_dry_pushed _ _ _ _ _ Rc))
          as (new & I2 & L2 & F2 & T2 & S2).
        rewrite MI in I2.
        destruct (Nat.eqb_spec (groupSize st2) 0) as [G2|G2].
        -- destruct new as [|n0 new]; [|simpl in L2; lia]. simpl in I2.
           assert (W2 : stack_wf st2) by (split; [exact T2 | split; [exact G2 | exact S2]]).
           destruct (pop_stack_wf st2 _ rest I2 W2) as (st3 & P3 & I3 & (T3 & G3 & S3)).
           rewrite P3. intros [= <- <- <-].
           destruct (finalize_thread0 (fun l => l) st3 T3 S3) as [IF WF].
           split; [exact WF|]. exists it, rest. split; [reflexivity|].
           do 4 right. split; [exact R|]. split; [exact L|]. split; [reflexivity|].
           exists v, st2. split; [exact Rc|]. split; [exact G2|].
           unfold CppMemo.emplace. rewrite L. rewrite G2. split; [reflexivity|].
           split; [reflexivity|]. rewrite IF. exact I3.
        -- intros [= <- <- <-].
           destruct (finalize_thread0 (fun l => l) st2 T2 S2) as [IF WF].
           split; [exact WF|]. exists it, rest. split; [reflexivity|].
           do 3 right. left. split; [exact R|]. split; [exact L|].
           split; [reflexivity|]. split; [reflexivity|].
           exists new. split; [intros ->; simpl in L2; lia|].
           rewrite <- L2. split; [reflexivity|]. rewrite IF, I2. split; [reflexivity | exact F2].
      * destruct (CppMemo.gather key_eq_dec vals (markReady st) (d (item_key it)))
          as [e|st2] eqn:Ga; [discriminate|].
        intros [= <- <- <-].
        destruct (gather_pushed _ _ _ _ Ga) as [Hp Hin].
        destruct (pushed_from_wf _ _ Hwf Hp) as (new & I2 & L2 & F2 & T2 & S2).
        destruct (finalize_thread0 (fun l => l) st2 T2 S2) as [IF WF].
        split; [exact WF|]. exists it, rest. split; [reflexivity|].
        do 2 right. left. split; [exact R|]. split; [exact L|].
        split; [reflexivity|]. split; [reflexivity|].
        exists d, new. split; [reflexivity|]. rewrite IF, I2, MI. split; [reflexivity|].
        split; [exact F2|].
        intros p Hp'. destruct (Hin p Hp') as [Lp | (n3 & I3 & In3)]; [left; exact Lp|].
        right. rewrite I2 in I3. apply app_inv_tail in I3. subst n3. exact In3.
Qed.

Lemma run_start_wf detect key st :
  run_start key_eq_dec 0 detect key = inr st -> stack_wf st /\ items st = [mkItem key false].
Proof.
  unfold run_start, CppMemo.push. simpl. rewrite andb_false_r. intros [= <-].
  assert (Hs : set_ok (mkStack 0 1 detect [mkItem key false] [])) by (intros x []).
  destruct (finalize_thread0 (fun l => l) (mkStack 0 1 detect [mkItem key false] []) eq_refl Hs) as [I W]. split; [exact W | exact I].
Qed.

Lemma lookup_cons_present (vals : Values Key Value) kv k :
  lookup vals k <> None -> lookup (kv :: vals) k <> None.
Proof. destruct kv as [k' v']. simpl. destruct (key_eq_dec k' k); [discriminate | auto]. Qed.

Lemma insertNormal_false_present vals log st k vals' log' :
  insertNormal false vals log st k = inr (vals', log') ->
  lookup vals' k <> None /\ forall x, lookup vals x <> None -> lookup vals' x <> None.
Proof.
  intros H. destruct (insertNormal_false _ _ _ _ _ _ H) as [(L & -> & _) | (_ & v & _ & -> & _)].
  - split; auto.
  - split; [rewrite lookup_cons_same; discriminate | intros x; apply lookup_cons_present].
Qed.

(** One iteration keeps what the map holds and the keys of the stack,
    except the popped item whose key is then in the map. *)
Lemma run_iteration_keys disc vals log st vals' log' st' :
  stack_wf st ->
  run_iteration disc (fun l => l) false vals log st = Continue vals' log' st' ->
  (forall x, lookup vals x <> None -> lookup vals' x <> None) /\
  (forall it, In it (items st) -> lookup vals' (item_key it) <> None \/
     In (item_key it) (map item_key (items st'))).
Proof.
  intros Hwf H. destruct (run_iteration_shape _ _ _ _ _ _ _ Hwf H) as (_ & it & rest & I & C).
  rewrite I. destruct C as [C|[C|[C|[C|C]]]].
  - destruct C as (_ & I' & Ins). destruct (insertNormal_false_present _ _ _ _ _ _ Ins) as [P G].
    split; [exact G|]. intros it' [<-|Hin]; [left; exact P | right; rewrite I'; apply in_map; exact Hin].
  - destruct C as (_ & P & -> & -> & I'). split; [auto|].
    intros it' [<-|Hin]; [left; exact P | right; rewrite I'; right; apply in_map; exact Hin].
  - destruct C as (_ & _ & -> & -> & d & new & _ & I' & _). split; [auto|].
    intros it' Hin. right. rewrite I', map_app, in_app_iff. right.
    destruct Hin as [<-|Hin]; [left; reflexivity | right; apply in_map; exact Hin].
  - destruct C as (_ & _ & _ & -> & new & _ & _ & I' & _). split; [auto|].
    intros it' Hin. right. rewrite I', map_app, in_app_iff. right.
    destruct Hin as [<-|Hin]; [left; reflexivity | right; apply in_map; exact Hin].
  - destruct C as (_ & _ & _ & v & st2 & _ & _ & -> & _ & I').
    split; [intros x; apply lookup_cons_present|].
    intros it' [<-|Hin]; [left; rewrite lookup_cons_same; discriminate|].
    right. rewrite I'. apply in_map. exact Hin.
Qed.

Lemma run_loop_keys disc fuel vals log st vals' log' :
  stack_wf st -> run_loop disc fuel vals log st = Some (inr (vals', log')) ->
  (forall x, lookup vals x <> None -> lookup vals' x <> None) /\
  (forall it, In it (items st) -> lookup vals' (item_key it) <> None).
Proof.
  revert vals log st. induction fuel as [|fuel IH]; intros vals log st Hwf; simpl; [discriminate|].
  destruct (run_iteration disc (fun l => l) false vals log st) as [| e | vals1 log1 st1] eqn:E.
  - intros [= <- _]. split; [auto|]. intros it Hin.
    unfold CppMemo.run_iteration in E. destruct (items st); [destruct Hin|].
    destruct (ready i); [destruct (insertNormal _ _ _ _ _) as [|[]]; [|destruct (pop _ _)]|];
      try discriminate.
    destruct (lookup vals (item_key i)); [discriminate|].
    destruct disc; [destruct (run_compute _ _ _ _) as [|[]]; [|destruct (Nat.eqb _ _);
      [destruct (pop _ _)|]] | destruct (CppMemo.gather _ _ _ _)]; discriminate.
  - discriminate.
  - intros H. pose proof (proj1 (run_iteration_shape _ _ _ _ _ _ _ Hwf E)) as Hwf1.
    destruct (run_iteration_keys _ _ _ _ _ _ _ Hwf E) as [G1 K1].
    destruct (IH _ _ _ Hwf1 H) as [G2 K2]. split; [auto|].
    intros it Hin. destruct (K1 it Hin) as [P|P]; [auto|].
    apply in_map_iff in P. destruct P as (it' & Ek & Hin'). rewrite <- Ek. exact (K2 it' Hin').
Qed.

(** Running on from a state reached by the loop gives the same result. *)
Lemma run_loop_reaches disc fuel s s' r :
  clos_refl_trans _ (run_step disc) s s' ->
  run_loop disc fuel (fst (fst s)) (snd (fst s)) (snd s) = Some r ->
  exists fuel', run_loop disc fuel' (fst (fst s')) (snd (fst s')) (snd s') = Some r.
Proof.
  intros Hr. apply clos_rt_rt1n in Hr. revert fuel.
  induction Hr as [s|s s1 s' Hs _ IH]; intros fuel H; [exists fuel; exact H|].
  destruct Hs as [vals log st vals1 log1 st1 E]. simpl in H.
  destruct fuel as [|fuel]; [discriminate|]. simpl in H. rewrite E in H.
  exact (IH fuel H).
Qed.

Lemma run_step_wf disc s s' :
  clos_refl_trans _ (run_step disc) s s' -> stack_wf (snd s) -> stack_wf (snd s').
Proof.
  intros Hr. induction Hr as [s s' Hs| s | s1 s2 s3 _ IH1 _ IH2]; auto.
  destruct Hs as [vals log st vals1 log1 st1 E]. simpl. intros Hwf.
  exact (proj1 (run_iteration_shape _ _ _ _ _ _ _ Hwf E)).
Qed.

(** Claim C9: when a single-threaded [getValue(key, compute, ...)] that had
    to run returns normally, with either discovery mode and detection on or
    off, every item that was on the thread's stack at any point of the run
    has its key in the map, so the read-only [getValue] returns its value. *)
Theorem getValue_memoizes_pushed_keys disc detect fuel key vals v vals' log st0 s :
  getValue_single disc detect fuel key vals = Some (inr (v, vals', log)) ->
  lookup vals key = None ->
  run_start key_eq_dec 0 detect key = inr st0 ->
  clos_refl_trans _ (run_step disc) (vals, [], st0) s ->
  forall it, In it (items (snd s)) ->
  exists w, lookup vals' (item_key it) = Some w /\ getValue_readonly key_eq_dec vals' (item_key it) = inr w.
Proof.
  intros H E S Hr it Hin. unfold CppMemo.getValue_single in H. rewrite E, S in H.
  destruct (run_loop disc fuel vals [] st0) as [[e|[vals1 log1]]|] eqn:R; try discriminate.
  destruct (lookup vals1 key) eqn:E1; [|discriminate]. injection H as <- <- _.
  destruct (run_loop_reaches _ _ _ _ _ Hr R) as (fuel' & R').
  pose proof (run_step_wf _ _ _ Hr (proj1 (run_start_wf _ _ _ S))) as Hwf.
  destruct (run_loop_keys _ _ _ _ _ _ _ Hwf R') as [_ K].
  pose proof (K it Hin) as P. destruct (lookup vals1 (item_key it)) as [w|] eqn:Ew; [|contradiction].
  exists w. split; [reflexivity|]. unfold getValue_readonly. rewrite Ew. reflexivity.
Qed.

Lemma lookup_cons_cases (vals : Values Key Value) k v x :
  lookup ((k, v) :: vals) x <> None -> x = k \/ lookup vals x <> None.
Proof. simpl. destruct (key_eq_dec k x); auto. Qed.

(** What the calls of [compute] recorded so far say, in dry-run
    discovery, about the map [vals] grown from [vals0] and the stack. *)
Definition dry_log_inv (vals0 vals : Values Key Value) (log : list (Event Key))
    (st : ThreadItemsStack Key) : Prop :=
  (forall k, lookup vals0 k = None -> lookup vals k <> None -> exists n, In (DryRunCall k n) log) /\
  (forall it, In it (items st) -> ready it = true ->
     lookup vals (item_key it) <> None \/ exists n, (0 < n)%nat /\ In (DryRunCall (item_key it) n) log) /\
  (forall k, In (NormalCall k) log -> exists n, (0 < n)%nat /\ In (DryRunCall k n) log) /\
  (forall k, In (DryRunCall k 0) log -> lookup vals k <> None /\ ~ In (NormalCall k) log) /\
  (forall k, In (NormalCall k) log -> lookup vals k <> None).

Lemma dry_log_inv_step vals0 vals log st vals' log' st' :
  stack_wf st -> dry_log_inv vals0 vals log st ->
  run_iteration DryRun (fun l => l) false vals log st = Continue vals' log' st' ->
  dry_log_inv vals0 vals' log' st'.
Proof.
  intros Hwf (I1 & I2 & I3 & I4 & I5) H.
  destruct (run_iteration_shape _ _ _ _ _ _ _ Hwf H) as (_ & it & rest & I & C).
  assert (Hrest : forall it', In it' rest -> In it' (items st)) by (intros it' Hi; rewrite I; right; exact Hi).
  destruct C as [C|[C|[C|[C|C]]]].
  - destruct C as (R & I' & Ins).
    destruct (insertNormal_false _ _ _ _ _ _ Ins) as [(L & -> & ->) | (L & v & _ & -> & ->)].
    + split; [exact I1|]. split; [|auto].
      intros it' Hi. rewrite I' in Hi. exact (I2 it' (Hrest it' Hi)).
    + assert (Top : exists n, (0 < n)%nat /\ In (DryRunCall (item_key it) n) log).
      { destruct (I2 it ltac:(rewrite I; left; reflexivity) R) as [P|P]; [contradiction | exact P]. }
      split; [|split; [|split; [|split]]].
      * intros k L0 Lk. destruct (lookup_cons_cases _ _ _ _ Lk) as [->|Lk'].
        -- destruct Top as (n & _ & Hn). exists n. right. exact Hn.
        -- destruct (I1 k L0 Lk') as (n & Hn). exists n. right. exact Hn.
      * intros it' Hi Hr. rewrite I' in Hi.
        destruct (I2 it' (Hrest it' Hi) Hr) as [P|(n & Hn & P)];
          [left; apply lookup_cons_present; exact P | right; exists n; split; [exact Hn | right; exact P]].
      * intros k [E|Hk].
        -- injection E as <-. destruct Top as (n & Hn & P). exists n. split; [exact Hn | right; exact P].
        -- destruct (I3 k Hk) as (n & Hn & P). exists n. split; [exact Hn | right; exact P].
      * intros k [E|Hk]; [discriminate|]. destruct (I4 k Hk) as [P Q].
        split; [apply lookup_cons_present; exact P|].
        intros [E|Hn]; [|contradiction]. injection E as E. rewrite <- E in P. contradiction.
      * intros k [E|Hk].
        -- injection E as <-. rewrite lookup_cons_same. discriminate.
        -- apply lookup_cons_present. exact (I5 k Hk).
  - destruct C as (R & P & -> & -> & I'). split; [exact I1|]. split; [|auto].
    intros it' Hi Hr. rewrite I' in Hi. destruct Hi as [<-|Hi]; [left; exact P|].
    exact (I2 it' (Hrest it' Hi) Hr).
  - destruct C as (_ & _ & _ & _ & d & new & Ed & _). discriminate.
  - destruct C as (R & L & _ & -> & new & Hne & -> & I' & F).
    assert (Hpos : (0 < length new)%nat) by (destruct new; [contradiction | simpl; lia]).
    split; [|split; [|split; [|split]]].
    + intros k L0 Lk. destruct (I1 k L0 Lk) as (n & Hn). exists n. right. exact Hn.
    + intros it' Hi Hr. rewrite I' in Hi. apply in_app_iff in Hi. destruct Hi as [Hi|[<-|Hi]].
      * rewrite Forall_forall in F. rewrite (F it' Hi) in Hr. discriminate.
      * right. exists (length new). split; [exact Hpos | left; reflexivity].
      * destruct (I2 it' (Hrest it' Hi) Hr) as [P|(n & Hn & P)];
          [left; exact P | right; exists n; split; [exact Hn | right; exact P]].
    + intros k [E|Hk]; [discriminate|]. destruct (I3 k Hk) as (n & Hn & P).
      exists n. split; [exact Hn | right; exact P].
    + intros k [E|Hk].
      * injection E as _ E. rewrite E in Hpos. lia.
      * destruct (I4 k Hk) as [P Q]. split; [exact P|]. intros [E|Hn]; [discriminate | contradiction].
    + intros k [E|Hk]; [discriminate | exact (I5 k Hk)].
  - destruct C as (R & L & _ & v & st2 & _ & _ & -> & -> & I').
    split; [|split; [|split; [|split]]].
    + intros k L0 Lk. destruct (lookup_cons_cases _ _ _ _ Lk) as [->|Lk'].
      * exists 0%nat. left. reflexivity.
      * destruct (I1 k L0 Lk') as (n & Hn). exists n. right. exact Hn.
    + intros it' Hi Hr. rewrite I' in Hi.
      destruct (I2 it' (Hrest it' Hi) Hr) as [P|(n & Hn & P)];
        [left; apply lookup_cons_present; exact P | right; exists n; split; [exact Hn | right; exact P]].
    + intros k [E|Hk]; [discriminate|]. destruct (I3 k Hk) as (n & Hn & P).
      exists n. split; [exact Hn | right; exact P].
    + intros k [E|Hk].
      * injection E as <-. rewrite lookup_cons_same. split; [discriminate|].
        intros [E|Hn]; [discriminate|]. exact (I5 _ Hn L).
      * destruct (I4 k Hk) as [P Q]. split; [apply lookup_cons_present; exact P|].
        intros [E|Hn]; [discriminate | contradiction].
    + intros k [E|Hk]; [discriminate|]. apply lookup_cons_present. exact (I5 k Hk).
Qed.

Lemma dry_log_inv_run_loop fuel vals0 vals log st vals' log' :
  stack_wf st -> dry_log_inv vals0 vals log st ->
  run_loop DryRun fuel vals log st = Some (inr (vals', log')) ->
  exists st', dry_log_inv vals0 vals' log' st'.
Proof.
  revert vals log st. induction fuel as [|fuel IH]; intros vals log st Hwf Hi; simpl; [discriminate|].
  destruct (run_iteration DryRun (fun l => l) false vals log st) as [| e | vals1 log1 st1] eqn:E.
  - intros [= <- <-]. exists st. exact Hi.
  - discriminate.
  - apply (IH vals1 log1 st1).
    + exact (proj1 (run_iteration_shape _ _ _ _ _ _ _ Hwf E)).
    + exact (dry_log_inv_step _ _ _ _ _ _ _ Hwf Hi E).
Qed.

(** Claim C7 (as amended): in dry-run discovery, when a single-threaded
    [getValue] returns normally, the calls of [compute] it made satisfy:
    every key memoized by the run was dry-run; a NORMAL call of a key
    follows a dry run of it that found a prerequisite missing; and a key
    whose dry run found none (its value is emplaced from that dry run) is
    never computed in NORMAL mode. *)
Theorem dry_run_compute_calls detect fuel key vals v vals' log :
  getValue_single DryRun detect fuel key vals = Some (inr (v, vals', log)) ->
  (forall k, lookup vals k = None -> lookup vals' k <> None -> exists n, In (DryRunCall k n) log) /\
  (forall k, In (NormalCall k) log -> exists n, (0 < n)%nat /\ In (DryRunCall k n) log) /\
  (forall k, In (DryRunCall k 0) log -> ~ In (NormalCall k) log).
Proof.
  unfold CppMemo.getValue_single. destruct (lookup vals key) as [w|] eqn:E.
  - intros [= _ <- <-]. split; [intros k L1 L2; contradiction|]. split; intros k [].
  - destruct (run_start key_eq_dec 0 detect key) as [e|st0] eqn:S; [discriminate|].
    destruct (run_loop DryRun fuel vals [] st0) as [[e|[vals1 log1]]|] eqn:R; try discriminate.
    destruct (lookup vals1 key); [|discriminate]. intros [= _ <- <-].
    destruct (run_start_wf _ _ _ S) as [Hwf I0].
    assert (Hi : dry_log_inv vals vals [] st0).
    { split; [intros k L1 L2; contradiction|]. split.
      - intros it Hin Hr. rewrite I0 in Hin. destruct Hin as [<-|[]]. discriminate.
      - split; [intros k []|]. split; intros k []. }
    destruct (dry_log_inv_run_loop _ _ _ _ _ _ _ Hwf Hi R) as (st' & I1 & _ & I3 & I4 & _).
    split; [exact I1|]. split; [exact I3|]. intros k Hk. exact (proj2 (I4 k Hk)).
Qed.

(** ** Explicit declaration with cycle detection *)

Section Declared.

Variable declare : Key -> list Key.

(** [dep p k]: [p] is a declared prerequisite of [k]. *)
Definition dep (p k : Key) : Prop := In p (declare k).

(** A ready item's declared prerequisites are memoized or above it. *)
Definition stack_ok (vals : Values Key Value) (its : list (Item Key)) : Prop :=
  forall pre it post, its = pre ++ it :: post -> ready it = true ->
    lookup vals (item_key it) <> None \/
    forall p, In p (declare (item_key it)) -> lookup vals p <> None \/ In p (map item_key pre).

Lemma split_not_ready (new l pre post : list (Item Key)) it :
  new ++ l = pre ++ it :: post -> Forall (fun i => ready i = false) new -> ready it = true ->
  exists pre0, pre = new ++ pre0 /\ l = pre0 ++ it :: post.
Proof.
  revert pre. induction new as [|n new IH]; intros pre E F R.
  - exists pre. split; [reflexivity | exact E].
  - inversion F as [|? ? Fn Fnew]; subst. destruct pre as [|x pre'].
    + simpl in E. injection E as -> _. congruence.
    + simpl in E. injection E as -> E. destruct (IH pre' E Fnew R) as (pre0 & -> & El).
      exists pre0. split; [reflexivity | exact El].
Qed.

Lemma stack_ok_grow vals vals' its :
  (forall x, lookup vals x <> None -> lookup vals' x <> None) -> stack_ok vals its -> stack_ok vals' its.
Proof.
  intros G H pre it post E R. destruct (H pre it post E R) as [P|P]; [left; auto|].
  right. intros p Hp. destruct (P p Hp); auto.
Qed.

(** The stack below a top item, with that item marked or popped. *)
Lemma stack_ok_below vals it rest pre it' post :
  stack_ok vals (it :: rest) -> rest = pre ++ it' :: post -> ready it' = true ->
  lookup vals (item_key it') <> None \/
  forall p, In p (declare (item_key it')) ->
    lookup vals p <> None \/ p = item_key it \/ In p (map item_key pre).
Proof.
  intros H E R. destruct (H (it :: pre) it' post ltac:(rewrite E; reflexivity) R) as [P|P];
    [left; exact P|].
  right. intros p Hp. destruct (P p Hp) as [Q|Q]; [left; exact Q|]. right. simpl in Q. destruct Q as [Q|Q]; [left; symmetry; exact Q | right; exact Q].
Qed.

Lemma requests_within_normal vals st ds c :
  requests_within ds c -> (forall p, In p ds -> lookup vals p <> None) ->
  exists v, run_compute NORMAL vals st c = inr (st, v).
Proof.
  intros H Hp. induction H as [v | k next Hk _ IH]; [exists v; reflexivity|].
  simpl. destruct (lookup vals k) as [w|] eqn:E; [exact (IH w) | exfalso; exact (Hp k Hk E)].
Qed.

Lemma prereqs_memoized_Acc (vals : Values Key Value) k :
  prereqs_memoized key_eq_dec declare vals -> lookup vals k <> None -> Acc dep k.
Proof.
  revert k. induction vals as [|[k0 v0] rest IH]; intros k Hm Hk; [contradiction|].
  destruct Hm as [H0 Hrest]. simpl in Hk. destruct (key_eq_dec k0 k) as [<-|_].
  - constructor. intros p Hp. exact (IH p Hrest (H0 p Hp)).
  - exact (IH k Hrest Hk).
Qed.

Lemma Acc_prerequisite a k : clos_refl_trans _ dep a k -> Acc dep k -> Acc dep a.
Proof.
  intros H. induction H as [a k H| k | a b k _ IH1 _ IH2]; auto.
  intros Hk. exact (Acc_inv Hk H).
Qed.

Lemma Acc_no_cycle a : Acc dep a -> ~ clos_trans _ dep a a.
Proof.
  induction 1 as [x _ IH]. intros H. apply clos_trans_tn1 in H.
  inversion H; subst.
  - match goal with Hd : dep x x |- _ => exact (IH x Hd (t_step _ _ _ _ Hd)) end.
  - match goal with
    | Hd : dep ?y x, Hc : clos_trans_n1 _ _ x ?y |- _ =>
        apply (IH y Hd); apply (t_trans _ _ y x y);
        [exact (t_step _ _ _ _ Hd) | apply clos_tn1_trans; exact Hc]
    end.
Qed.

(** The invariant of an explicit-declaration run. *)
Definition declared_inv (vals : Values Key Value) (st : ThreadItemsStack Key) : Prop :=
  stack_wf st /\ stack_ok vals (items st) /\ prereqs_memoized key_eq_dec declare vals.

Lemma declared_inv_step vals log st vals' log' st' :
  declared_inv vals st ->
  run_iteration (Declared declare) (fun l => l) false vals log st = Continue vals' log' st' ->
  declared_inv vals' st'.
Proof.
  intros (Hwf & Hok & Hm) H.
  destruct (run_iteration_shape _ _ _ _ _ _ _ Hwf H) as (Hwf' & it & rest & I & C).
  split; [exact Hwf'|]. rewrite I in Hok.
  destruct C as [C|[C|[C|[C|C]]]].
  - destruct C as (R & I' & Ins). rewrite I'.
    destruct (insertNormal_false_present _ _ _ _ _ _ Ins) as [Pk G].
    split.
    + intros pre it' post E R'. destruct (stack_ok_below _ _ _ _ _ _ Hok E R') as [P|P];
        [left; exact (G _ P)|].
      right. intros p Hp. destruct (P p Hp) as [Q|[Q|Q]]; [left; exact (G _ Q)| left; congruence | right; exact Q].
    + destruct (insertNormal_false _ _ _ _ _ _ Ins) as [(_ & -> & _) | (L & v & _ & -> & _)];
        [exact Hm|].
      split; [|exact Hm]. intros p Hp.
      destruct (Hok [] it rest eq_refl R) as [P|P]; [contradiction|].
      destruct (P p Hp) as [Q|[]]. exact Q.
  - destruct C as (R & P & -> & -> & I'). rewrite I'. split; [|exact Hm].
    intros [|x pre] it' post E R'.
    + simpl in E. injection E as <- _. left. exact P.
    + simpl in E. injection E as <- E.
      destruct (stack_ok_below _ _ _ _ _ _ Hok E R') as [Q|Q]; [left; exact Q|].
      right. intros p Hp. destruct (Q p Hp) as [Q1|[Q1|Q1]]; [left; exact Q1 | right; left; simpl; symmetry; exact Q1 | right; right; exact Q1].
  - destruct C as (R & L & -> & -> & d & new & Ed & I' & F & Hp). injection Ed as <-.
    rewrite I'. split; [|exact Hm].
    intros pre it' post E R'. destruct (split_not_ready _ _ _ _ _ E F R') as (pre0 & -> & E0).
    destruct pre0 as [|x pre1].
    + simpl in E0. injection E0 as <- _. right. intros p Hp'.
      destruct (Hp p Hp') as [Q|Q]; [left; exact Q | right; rewrite app_nil_r; exact Q].
    + simpl in E0. injection E0 as <- E0.
      destruct (stack_ok_below _ _ _ _ _ _ Hok E0 R') as [Q|Q]; [left; exact Q|].
      right. intros p Hp'. destruct (Q p Hp') as [Q1|[Q1|Q1]]; [left; exact Q1| |].
      * right. rewrite map_app, in_app_iff. right. left. symmetry. exact Q1.
      * right. rewrite map_app, in_app_iff. right. right. exact Q1.
  - destruct C as (_ & _ & Ed & _). discriminate.
  - destruct C as (_ & _ & Ed & _). discriminate.
Qed.

(** An exception from an iteration of such a run is a circular dependency
    whose key stack ends on a key found earlier in it. *)
Lemma declared_raised vals log st e :
  (forall k, requests_within (declare k) (compute k)) ->
  declared_inv vals st ->
  run_iteration (Declared declare) (fun l => l) false vals log st = Raised e ->
  exists pre x, e = CircularDependency (pre ++ [x]) /\ In x pre.
Proof.
  intros Hw (Hwf & Hok & Hm). pose proof Hwf as (T & G & Hs).
  unfold CppMemo.run_iteration.
  destruct (items st) as [|it rest] eqn:I; [discriminate|].
  destruct (ready it) eqn:R.
  - destruct (insertNormal false vals log st (item_key it)) as [e'|[vals1 log1]] eqn:Ins.
    + exfalso. revert Ins. unfold CppMemo.insertNormal.
      destruct (lookup vals (item_key it)) eqn:L; [discriminate|].
      destruct (Hok [] it rest eq_refl R) as [P|P]; [contradiction|].
      destruct (requests_within_normal vals st _ _ (Hw (item_key it))) as (v & Hv).
      { intros p Hp. destruct (P p Hp) as [Q|[]]. exact Q. }
      rewrite Hv. discriminate.
    + destruct (pop_stack_wf st it rest I Hwf) as (st1 & P & _). rewrite P. discriminate.
  - destruct (lookup vals (item_key it)); [discriminate|].
    destruct (CppMemo.gather key_eq_dec vals (markReady st) (declare (item_key it)))
      as [e'|st2] eqn:Ga; [|discriminate].
    intros [= <-].
    destruct (gather_error _ _ _ _ Ga) as (st1 & k & Hp & Pk).
    pose proof (pushed_set_ok _ _ Hp (markReady_set_ok _ Hs)) as Hs1.
    destruct (push_error _ _ _ Pk) as (-> & _ & Hf).
    apply set_find_In in Hf. destruct (Hs1 k Hf) as [_ Hin].
    exists (rev (map item_key (items st1))), k. split.
    + unfold getKeysStack. reflexivity.
    + apply in_rev in Hin. exact Hin.
Qed.

End Declared.

Lemma declared_run_loop declare fuel vals log st res :
  (forall k, requests_within (declare k) (compute k)) ->
  declared_inv declare vals st ->
  run_loop (Declared declare) fuel vals log st = Some res ->
  match res with
  | inl e => exists pre x, e = CircularDependency (pre ++ [x]) /\ In x pre
  | inr (vals', _) => prereqs_memoized key_eq_dec declare vals'
  end.
Proof.
  intros Hw. revert vals log st. induction fuel as [|fuel IH]; intros vals log st Hi; simpl;
    [discriminate|].
  destruct (run_iteration (Declared declare) (fun l => l) false vals log st)
    as [| e | vals1 log1 st1] eqn:E.
  - intros [= <-]. exact (proj2 (proj2 Hi)).
  - intros [= <-]. exact (declared_raised _ _ _ _ _ Hw Hi E).
  - apply IH. exact (declared_inv_step _ _ _ _ _ _ _ Hi E).
Qed.

(** ** Explicit-declaration iterations of any thread *)

Section Iterations.

Variable declare : Key -> list Key.
Hypothesis Hw : forall k, requests_within (declare k) (compute k).

Lemma prereqs_memoized_present (vals : Values Key Value) k :
  prereqs_memoized key_eq_dec declare vals -> lookup vals k <> None ->
  forall p, In p (declare k) -> lookup vals p <> None.
Proof.
  induction vals as [|[k0 v0] rest IH]; intros Hm Hk p Hp; [contradiction|].
  destruct Hm as [H0 Hrest]. simpl in Hk. apply lookup_cons_present.
  destruct (key_eq_dec k0 k) as [<-|_]; [exact (H0 p Hp) | exact (IH Hrest Hk p Hp)].
Qed.

(** [values.insert] of a ready item whose declared prerequisites are known
    (they are when its key is missing and the stack is right, and when its
    key is already there) succeeds, with or without a race. *)
Lemma insertNormal_ok race vals log st k :
  prereqs_memoized key_eq_dec declare vals ->
  (lookup vals k = None -> forall p, In p (declare k) -> lookup vals p <> None) ->
  exists vals' log', insertNormal race vals log st k = inr (vals', log') /\
    lookup vals' k <> None /\ (forall x, lookup vals x <> None -> lookup vals' x <> None) /\
    prereqs_memoized key_eq_dec declare vals'.
Proof.
  intros Hm Hp.
  assert (Hall : forall p, In p (declare k) -> lookup vals p <> None).
  { destruct (lookup vals k) eqn:L; [|exact (Hp eq_refl)].
    apply prereqs_memoized_present; [exact Hm | congruence]. }
  destruct (requests_within_normal vals st _ _ (Hw k) Hall) as (v & Hv).
  assert (Hc : exists vals' log', (vals' = vals /\ log' = log /\ lookup vals k <> None \/
                                   vals' = (k, v) :: vals /\ log' = NormalCall k :: log) /\
                 insertNormal race vals log st k = inr (vals', log')).
  { unfold CppMemo.insertNormal. destruct (lookup vals k) eqn:L, race; rewrite ?Hv;
      eexists; eexists; (split; [|reflexivity]); first [right; split; reflexivity | left; repeat split; congruence]. }
  destruct Hc as (vals' & log' & [(-> & -> & L) | (-> & ->)] & E);
    do 2 eexists; (split; [exact E|]).
  - split; [exact L|]. split; [auto | exact Hm].
  - split; [rewrite lookup_cons_same; discriminate|].
    split; [intros x; apply lookup_cons_present | split; [exact Hall | exact Hm]].
Qed.

(** The gatherer pushes, in order, the declared keys that are missing, each
    one checked against [itemsSet] and none of them in it. *)
Lemma gather_new (vals : Values Key Value) st ks st' :
  CppMemo.gather key_eq_dec vals st ks = inr st' ->
  exists new, items st' = new ++ items st /\ groupSize st' = (length new + groupSize st)%nat /\
    Forall (fun it => ready it = false /\ In (item_key it) ks) new /\
    (length new <= length ks)%nat /\
    itemsSet st' = itemsSet st /\ threadNo st' = threadNo st /\
    detectCircularDependencies st' = detectCircularDependencies st /\
    (detectCircularDependencies st = true ->
       Forall (fun it => ~ In (item_key it) (itemsSet st)) new) /\
    forall p, In p ks -> lookup vals p <> None \/ In p (map item_key new).
Proof.
  revert st. induction ks as [|k ks IH]; intros st; simpl.
  - intros [= <-]. exists []. simpl.
    repeat split; auto.
  - destruct (lookup vals k) as [w|] eqn:E.
    + intros H. destruct (IH st H) as (new & I & G & F & L & S & T & D & N & P).
      exists new. split; [exact I|]. split; [exact G|]. split.
      { eapply Forall_impl; [|exact F]. intros it [R Hin]. auto. }
      split; [lia|]. split; [exact S|]. split; [exact T|]. split; [exact D|]. split; [exact N|].
      intros p [<-|Hp]; [left; congruence | auto].
    + destruct (push st k) as [e|st1] eqn:Pu; [discriminate|].
      assert (Hf : detectCircularDependencies st && set_find key_eq_dec (itemsSet st) k = false /\
                   st1 = mkStack (threadNo st) (S (groupSize st)) (detectCircularDependencies st)
                           (mkItem k false :: items st) (itemsSet st)).
      { revert Pu. unfold CppMemo.push. destruct (_ && _); [discriminate|]. intros [= <-]. auto. }
      destruct Hf as [Hf ->]. intros H.
      destruct (IH _ H) as (new & I & G & F & L & S & T & D & N & P). simpl in *.
      exists (new ++ [mkItem k false]). rewrite I, <- app_assoc. split; [reflexivity|].
      rewrite length_app. simpl. split; [lia|]. split.
      { apply Forall_app. split; [|repeat constructor; simpl; auto].
        eapply Forall_impl; [|exact F]. intros it [R Hin]. auto. }
      split; [lia|]. split; [exact S|]. split; [exact T|]. split; [exact D|]. split.
      { intros Hd. apply Forall_app. split; [exact (N Hd)|]. constructor; [|constructor].
        simpl. rewrite Hd in Hf. simpl in Hf. intros Hin. apply set_find_In in Hin. congruence. }
      intros p [<-|Hp].
      * right. rewrite map_app, in_app_iff. right. left. reflexivity.
      * destruct (P p Hp) as [Q|Q]; [left; exact Q|]. right. rewrite map_app, in_app_iff. left. exact Q.
Qed.

Lemma gather_error_in (vals : Values Key Value) st ks e :
  CppMemo.gather key_eq_dec vals st ks = inl e ->
  exists st1 k, pushed st st1 /\ push st1 k = inl e /\ In k ks.
Proof.
  revert st. induction ks as [|k ks IH]; intros st; simpl; [discriminate|].
  destruct (lookup vals k).
  - intros H. destruct (IH st H) as (st1 & k1 & Hp & Hk & Hin). exists st1, k1. auto.
  - destruct (push st k) as [e'|st1] eqn:P.
    + intros [= <-]. exists st, k. split; [apply pushed_refl | auto].
    + intros H. destruct (IH st1 H) as (st2 & k2 & Hp & Hk & Hin).
      exists st2, k2. split; [exact (pushed_trans _ _ _ (push_pushed _ _ _ P) Hp) | auto].
Qed.

(** [finalizeGroup] permutes the group just pushed (reverses it, shuffles
    it, or leaves it) and records its keys when detection is on. *)
Lemma finalize_perm sh st new old :
  (forall l, Permutation l (sh l)) -> items st = new ++ old -> groupSize st = length new ->
  exists new', Permutation new new' /\
    items (finalizeGroup key_eq_dec sh st) = new' ++ old /\
    groupSize (finalizeGroup key_eq_dec sh st) = 0%nat /\
    threadNo (finalizeGroup key_eq_dec sh st) = threadNo st /\
    detectCircularDependencies (finalizeGroup key_eq_dec sh st) = detectCircularDependencies st /\
    itemsSet (finalizeGroup key_eq_dec sh st) =
      (if detectCircularDependencies st
       then fold_left (set_insert key_eq_dec) (map item_key new') (itemsSet st)
       else itemsSet st).
Proof.
  intros Hsh I G. unfold finalizeGroup. cbn zeta. rewrite I, G.
  rewrite firstn_app, Nat.sub_diag, firstn_O, app_nil_r, firstn_all.
  rewrite skipn_app, Nat.sub_diag, skipn_O, skipn_all. simpl.
  eexists. split; [|split; [reflexivity | repeat split]].
  destruct (negb (threadNo st =? 0) && Nat.ltb 1 (length new)); [|apply Permutation_refl].
  destruct (threadNo st =? 1); [apply Permutation_rev | apply Hsh].
Qed.

(** One iteration of [run] in explicit-declaration mode, in any thread,
    with any shuffle and any race: from a right stack it finishes on an
    empty stack, raises only what [push] raises on a declared key, or goes
    on in one of three ways, keeping the stack right. *)
Lemma iteration_general shuffle race vals log st :
  (forall l, Permutation l (shuffle l)) ->
  stack_ok declare vals (items st) -> prereqs_memoized key_eq_dec declare vals ->
  groupSize st = 0%nat ->
  match run_iteration (Declared declare) shuffle race vals log st with
  | Finished => items st = []
  | Raised e =>
      exists it rest stp x, items st = it :: rest /\ ready it = false /\
        lookup vals (item_key it) = None /\ In x (declare (item_key it)) /\
        pushed (markReady st) stp /\ push stp x = inl e
  | Continue vals' log' st' =>
      (forall x, lookup vals x <> None -> lookup vals' x <> None) /\
      prereqs_memoized key_eq_dec declare vals' /\ stack_ok declare vals' (items st') /\
      groupSize st' = 0%nat /\ threadNo st' = threadNo st /\
      detectCircularDependencies st' = detectCircularDependencies st /\
      exists it rest, items st = it :: rest /\
      ((ready it = true /\ items st' = rest /\ lookup vals' (item_key it) <> None /\
        itemsSet st' = (if detectCircularDependencies st
                        then set_erase key_eq_dec (itemsSet st) (item_key it) else itemsSet st)) \/
       (ready it = false /\ lookup vals (item_key it) <> None /\ vals' = vals /\ log' = log /\
        items st' = mkItem (item_key it) true :: rest /\ itemsSet st' = itemsSet st) \/
       (ready it = false /\ lookup vals (item_key it) = None /\ vals' = vals /\ log' = log /\
        exists new,
          Forall (fun y => ready y = false /\ In (item_key y) (declare (item_key it))) new /\
          (length new <= length (declare (item_key it)))%nat /\
          items st' = new ++ mkItem (item_key it) true :: rest /\
          (detectCircularDependencies st = true ->
             Forall (fun y => ~ In (item_key y) (itemsSet st)) new) /\
          itemsSet st' = (if detectCircularDependencies st
                          then fold_left (set_insert key_eq_dec) (map item_key new) (itemsSet st)
                          else itemsSet st)))
  end.
Proof.
  intros Hsh Hok Hm G.
  destruct (markReady_items st) as (MI & MT & MG & MD & MS).
  unfold CppMemo.run_iteration.
  destruct (items st) as [|it rest] eqn:I; [reflexivity|].
  destruct (ready it) eqn:R.
  - destruct (insertNormal_ok race vals log st (item_key it) Hm) as (vals' & log' & Ins & Pk & Gr & Hm').
    { intros L. destruct (Hok [] it rest eq_refl R) as [P|P]; [contradiction|].
      intros p Hp. destruct (P p Hp) as [Q|[]]. exact Q. }
    rewrite Ins, (pop_top _ _ _ I G).
    split; [exact Gr|]. split; [exact Hm'|]. split.
    { simpl. intros pre it' post E R'. destruct (stack_ok_below _ _ _ _ _ _ _ Hok E R') as [P|P];
        [left; exact (Gr _ P)|].
      right. intros p Hp. destruct (P p Hp) as [Q|[Q|Q]];
        [left; exact (Gr _ Q) | left; congruence | right; exact Q]. }
    simpl. split; [reflexivity|]. split; [reflexivity|]. split; [reflexivity|].
    exists it, rest. split; [reflexivity|]. left. auto.
  - destruct (lookup vals (item_key it)) as [w|] eqn:L.
    + rewrite MD. split; [auto|]. split; [exact Hm|]. split.
      { rewrite MI. intros [|x pre] it' post E R'.
        - simpl in E. injection E as <- _. left. simpl. congruence.
        - simpl in E. injection E as <- E.
          destruct (stack_ok_below _ _ _ _ _ _ _ Hok E R') as [Q|Q]; [left; exact Q|].
          right. intros p Hp. destruct (Q p Hp) as [Q1|[Q1|Q1]];
            [left; exact Q1 | right; left; simpl; symmetry; exact Q1 | right; right; exact Q1]. }
      split; [congruence|]. split; [exact MT|]. split; [reflexivity|].
      exists it, rest. split; [reflexivity|]. right. left.
      split; [exact R|]. split; [congruence|]. auto.
    + destruct (CppMemo.gather key_eq_dec vals (markReady st) (declare (item_key it)))
        as [e|st2] eqn:Ga.
      * destruct (gather_error_in _ _ _ _ Ga) as (stp & x & Hp & Hx & Hin).
        exists it, rest, stp, x. repeat split; auto.
      * destruct (gather_new _ _ _ _ Ga) as (new & I2 & G2 & F2 & L2 & S2 & T2 & D2 & N2 & P2).
        rewrite MI in I2. rewrite MG, G in G2.
        destruct (finalize_perm shuffle st2 new _ Hsh I2 ltac:(lia))
          as (new' & Pe & IF & GF & TF & DF & SF).
        assert (Fnew' : Forall (fun y => ready y = false /\ In (item_key y) (declare (item_key it))) new').
        { rewrite Forall_forall in F2 |- *. intros y Hy. apply F2.
          apply (Permutation_in _ (Permutation_sym Pe) Hy). }
        assert (Hmap : forall p, In p (map item_key new) -> In p (map item_key new')).
        { intros p Hp. exact (Permutation_in _ (Permutation_map _ Pe) Hp). }
        split; [auto|]. split; [exact Hm|]. split.
        { rewrite IF. intros pre it' post E R'.
          assert (Fr : Forall (fun i => ready i = false) new').
          { eapply Forall_impl; [|exact Fnew']. intros y [Ry _]. exact Ry. }
          destruct (split_not_ready _ _ _ _ _ E Fr R') as (pre0 & -> & E0).
          destruct pre0 as [|x pre1].
          - simpl in E0. injection E0 as <- _. right. intros p Hp'.
            destruct (P2 p Hp') as [Q|Q]; [left; exact Q | right; rewrite app_nil_r; exact (Hmap p Q)].
          - simpl in E0. injection E0 as <- E0.
            destruct (stack_ok_below _ _ _ _ _ _ _ Hok E0 R') as [Q|Q]; [left; exact Q|].
            right. intros p Hp'. destruct (Q p Hp') as [Q1|[Q1|Q1]]; [left; exact Q1| |].
            + right. rewrite map_app, in_app_iff. right. left. symmetry. exact Q1.
            + right. rewrite map_app, in_app_iff. right. right. exact Q1. }
        split; [exact GF|]. split; [rewrite TF, T2; exact MT|].
        split; [rewrite DF, D2; exact MD|].
        exists it, rest. split; [reflexivity|]. right. right.
        split; [exact R|]. split; [exact L|]. split; [reflexivity|]. split; [reflexivity|].
        exists new'. split; [exact Fnew'|]. split.
        { rewrite <- (Permutation_length Pe). exact L2. }
        split; [exact IF|]. split.
        { intros Hd. rewrite <- MD in Hd. specialize (N2 Hd). rewrite MS in N2.
          rewrite Forall_forall in N2 |- *. intros y Hy. apply N2.
          apply (Permutation_in _ (Permutation_sym Pe) Hy). }
        rewrite SF, D2, S2, MD, MS. reflexivity.
Qed.

End Iterations.

(** ** Runs of finite acyclic dependency graphs *)

(** [one_lt R l' l]: [l'] is [l] with one element replaced by a smaller
    one for [R]. *)
Inductive one_lt {A : Type} (R : A -> A -> Prop) : list A -> list A -> Prop :=
  | one_lt_here x y l : R y x -> one_lt R (y :: l) (x :: l)
  | one_lt_later x l l' : one_lt R l' l -> one_lt R (x :: l') (x :: l).

Lemma one_lt_list_set {A : Type} (R : A -> A -> Prop) l i (x y : A) :
  nth_error l i = Some x -> R y x -> one_lt R (Fcmm.list_set l i y) l.
Proof.
  revert i. induction l as [|z l IH]; intros [|i] H Hr; simpl in *; try discriminate.
  - injection H as ->. constructor. exact Hr.
  - constructor. exact (IH i H Hr).
Qed.

Lemma one_lt_cons {A : Type} (R : A -> A -> Prop) (x : A) :
  Acc R x -> forall l, Acc (one_lt R) l -> Acc (one_lt R) (x :: l).
Proof.
  induction 1 as [x _ IHx]. intros l Hl. induction Hl as [l Hl IHl].
  constructor. intros l' H. inversion H; subst.
  - apply IHx; [assumption|]. constructor. exact Hl.
  - apply IHl. assumption.
Qed.

Lemma one_lt_Acc {A : Type} (R : A -> A -> Prop) (l : list A) :
  Forall (Acc R) l -> Acc (one_lt R) l.
Proof.
  induction 1 as [|x l Hx _ IH].
  - constructor. intros y H. inversion H.
  - exact (one_lt_cons R x Hx l IH).
Qed.

Lemma Forall_thread_set {A : Type} (P : A -> Prop) l i (x : A) :
  Forall P l -> P x -> Forall P (Fcmm.list_set l i x).
Proof.
  revert i. induction l as [|y l IH]; intros [|i] F Px; simpl; try constructor;
    inversion F; subst; auto.
Qed.

Section Acyclic.

Variable declare : Key -> list Key.
Hypothesis Hw : forall k, requests_within (declare k) (compute k).

(** [is_path k l]: each key of [l] is a declared prerequisite of the one
    before it, the first one of [k]. *)
Fixpoint is_path (k : Key) (l : list Key) : Prop :=
  match l with
  | [] => True
  | x :: l' => dep declare x k /\ is_path x l'
  end.

Lemma is_path_below k l x : is_path k l -> In x l -> clos_trans _ (dep declare) x k.
Proof.
  revert k. induction l as [|y l IH]; intros k Hp Hx; [destruct Hx|].
  destruct Hp as [Hy Hl]. destruct Hx as [<-|Hx]; [apply t_step; exact Hy|].
  apply (t_trans _ _ _ y); [exact (IH y Hl Hx) | apply t_step; exact Hy].
Qed.

Lemma trans_refl_trans (x y : Key) :
  clos_trans _ (dep declare) x y -> clos_refl_trans _ (dep declare) x y.
Proof. induction 1; eauto using rt_step, rt_trans. Qed.

Section Finite.

Variable root : Key.
Variable ks : list Key.
Hypothesis Hfin : forall k, clos_refl_trans _ (dep declare) k root -> In k ks.
Hypothesis Hacyc : forall k, clos_refl_trans _ (dep declare) k root -> ~ clos_trans _ (dep declare) k k.

Lemma path_NoDup l k :
  clos_refl_trans _ (dep declare) k root -> is_path k l -> NoDup (k :: l).
Proof.
  revert k. induction l as [|x l IH]; intros k Hk Hp; [constructor; [intros [] | constructor]|].
  constructor.
  - intros Hin. exact (Hacyc k Hk (is_path_below k (x :: l) k Hp Hin)).
  - destruct Hp as [Hx Hl]. apply IH; [|exact Hl].
    apply (rt_trans _ _ _ k); [apply rt_step; exact Hx | exact Hk].
Qed.

Lemma path_length l k :
  clos_refl_trans _ (dep declare) k root -> is_path k l -> (length (k :: l) <= length ks)%nat.
Proof.
  intros Hk Hp. apply NoDup_incl_length; [exact (path_NoDup l k Hk Hp)|].
  intros y [<-|Hy]; apply Hfin; [exact Hk|].
  apply (rt_trans _ _ _ k); [apply trans_refl_trans; exact (is_path_below k l y Hp Hy) | exact Hk].
Qed.

Lemma paths_Acc n : forall k, clos_refl_trans _ (dep declare) k root ->
  (forall l, is_path k l -> (length l <= n)%nat) -> Acc (dep declare) k.
Proof.
  induction n as [|n IH]; intros k Hk Hl; constructor; intros p Hp.
  - exfalso. specialize (Hl [p] (conj Hp I)). simpl in Hl. lia.
  - apply IH.
    + apply (rt_trans _ _ _ k); [apply rt_step; exact Hp | exact Hk].
    + intros l Hpl. specialize (Hl (p :: l) (conj Hp Hpl)). simpl in Hl. lia.
Qed.

(** A finite graph without a cycle is well founded. *)
Lemma finite_acyclic_Acc : Acc (dep declare) root.
Proof.
  apply (paths_Acc (length ks) root (rt_refl _ _ _)).
  intros l Hp. pose proof (path_length l root (rt_refl _ _ _) Hp) as H. simpl in H. lia.
Qed.

End Finite.

(** [item_lt y x]: [y] can replace [x] on a stack: [x] is not ready and
    [y] is [x] marked ready or not ready with a prerequisite of [x] as key. *)
Definition item_lt (y x : Item Key) : Prop :=
  ready x = false /\
  ((ready y = true /\ item_key y = item_key x) \/
   (ready y = false /\ dep declare (item_key y) (item_key x))).

(** [stack_lt l' l]: [l'] is [l] with its top popped, or replaced by items
    that can replace it. *)
Definition stack_lt (l' l : list (Item Key)) : Prop :=
  exists x rest, l = x :: rest /\
    (l' = rest \/ exists ys, l' = ys ++ rest /\ Forall (fun y => item_lt y x) ys).

Lemma item_lt_Acc k : Acc (dep declare) k -> forall b, Acc item_lt (mkItem k b).
Proof.
  induction 1 as [k _ IH].
  assert (Hr : forall k', Acc item_lt (mkItem k' true)).
  { intros k'. constructor. intros y (R & _). discriminate. }
  intros b. constructor. intros [ky by'] (R & [(Ry & Ky) | (Ry & D)]); simpl in *.
  - subst by'. apply Hr.
  - subst by'. apply IH. exact D.
Qed.

Lemma stack_lt_cons x : Acc item_lt x -> forall rest, Acc stack_lt rest -> Acc stack_lt (x :: rest).
Proof.
  induction 1 as [x _ IHx]. intros rest Hrest.
  constructor. intros l' (x' & rest' & E & C). injection E as <- <-.
  destruct C as [-> | (ys & -> & F)]; [exact Hrest|].
  induction F as [|y ys Fy _ IHys]; [exact Hrest|].
  simpl. exact (IHx y Fy _ IHys).
Qed.

Lemma stack_lt_Acc l : Forall (fun it => Acc (dep declare) (item_key it)) l -> Acc stack_lt l.
Proof.
  induction l as [|x l IH]; intros F.
  - constructor. intros l' (x & rest & E & _). discriminate.
  - inversion F as [|? ? Fx Fl]; subst. apply stack_lt_cons; [|exact (IH Fl)].
    destruct x as [k b]. exact (item_lt_Acc k Fx b).
Qed.

Variable root : Key.

(** The root is in the map, or at the bottom of the stack. *)
Definition root_ok (vals : Values Key Value) (st : ThreadItemsStack Key) : Prop :=
  lookup vals root <> None \/ exists pre, map item_key (items st) = pre ++ [root].

(** An iteration of any thread, as [iteration_general], keeps the root in
    the map or at the bottom of the stack, and makes the stack smaller for
    [stack_lt]; it raises nothing with detection off. *)
Lemma iteration_thread shuffle race vals log st :
  (forall l, Permutation l (shuffle l)) ->
  stack_ok declare vals (items st) -> prereqs_memoized key_eq_dec declare vals ->
  groupSize st = 0%nat -> root_ok vals st ->
  match run_iteration (Declared declare) shuffle race vals log st with
  | Finished => lookup vals root <> None
  | Raised e => detectCircularDependencies st = true
  | Continue vals' log' st' =>
      (forall x, lookup vals x <> None -> lookup vals' x <> None) /\
      prereqs_memoized key_eq_dec declare vals' /\ stack_ok declare vals' (items st') /\
      groupSize st' = 0%nat /\ detectCircularDependencies st' = detectCircularDependencies st /\
      root_ok vals' st' /\ stack_lt (items st') (items st) /\
      (Forall (fun it => Acc (dep declare) (item_key it)) (items st) ->
       Forall (fun it => Acc (dep declare) (item_key it)) (items st'))
  end.
Proof.
  intros Hsh Hok Hm G Hr.
  pose proof (iteration_general declare Hw shuffle race vals log st Hsh Hok Hm G) as H.
  destruct (run_iteration (Declared declare) shuffle race vals log st) as [| e | vals' log' st'].
  - destruct Hr as [Hr | (pre & Hr)]; [exact Hr|]. rewrite H in Hr. simpl in Hr.
    destruct pre; discriminate.
  - destruct H as (it & rest & stp & x & _ & _ & _ & _ & Hp & Hx).
    destruct (push_error _ _ _ Hx) as (_ & Hd & _).
    destruct Hp as (new & _ & _ & _ & _ & _ & Dp). rewrite Dp in Hd.
    destruct (markReady_items st) as (_ & _ & _ & MD & _). congruence.
  - destruct H as (Gr & Hm' & Hok' & G' & T' & D' & it & rest & I & C).
    split; [exact Gr|]. split; [exact Hm'|]. split; [exact Hok'|]. split; [exact G'|].
    split; [exact D'|]. unfold root_ok in *. rewrite I in Hr |- *.
    destruct C as [(R & I' & Pk & _) | [(R & Pk & -> & -> & I' & _) |
                   (R & L & -> & -> & new & F & _ & I' & _ & _)]]; rewrite I'.
    + split; [|split].
      * destruct Hr as [Hr|(pre & Hr)]; [left; exact (Gr _ Hr)|].
        destruct pre as [|y pre]; simpl in Hr; injection Hr as Ek Er.
        -- left. rewrite <- Ek. exact Pk.
        -- right. exists pre. exact Er.
      * exists it, rest. split; [reflexivity | left; reflexivity].
      * intros Fa. inversion Fa; assumption.
    + split; [|split].
      * destruct Hr as [Hr|(pre & Hr)]; [left; exact Hr | right; exists pre; exact Hr].
      * exists it, rest. split; [reflexivity|]. right. exists [mkItem (item_key it) true].
        split; [reflexivity|]. constructor; [|constructor].
        split; [exact R|]. left. split; reflexivity.
      * intros Fa. inversion Fa; subst. constructor; assumption.
    + split; [|split].
      * destruct Hr as [Hr|(pre & Hr)]; [left; exact Hr|]. right.
        exists (map item_key new ++ pre). rewrite map_app, <- app_assoc, <- Hr. reflexivity.
      * exists it, rest. split; [reflexivity|]. right. exists (new ++ [mkItem (item_key it) true]).
        rewrite <- app_assoc. split; [reflexivity|]. apply Forall_app. split.
        -- eapply Forall_impl; [|exact F]. intros y [Ry Dy]. split; [exact R|]. right. auto.
        -- constructor; [|constructor]. split; [exact R|]. left. split; reflexivity.
      * intros Fa. inversion Fa as [|? ? Fit Frest]; subst. apply Forall_app. split.
        -- eapply Forall_impl; [|exact F]. intros y [_ Dy]. exact (Acc_inv Fit Dy).
        -- constructor; assumption.
Qed.

(** A thread of a run with detection off. *)
Definition thread_ok (vals : Values Key Value) (st : ThreadItemsStack Key) : Prop :=
  stack_ok declare vals (items st) /\ groupSize st = 0%nat /\
  detectCircularDependencies st = false /\ root_ok vals st /\
  Forall (fun it => Acc (dep declare) (item_key it)) (items st).

Lemma thread_ok_grow vals vals' st :
  (forall x, lookup vals x <> None -> lookup vals' x <> None) ->
  thread_ok vals st -> thread_ok vals' st.
Proof.
  intros Gr (Hok & G & D & Hr & Ha). split; [exact (stack_ok_grow _ _ _ _ Gr Hok)|].
  split; [exact G|]. split; [exact D|]. split; [|exact Ha].
  destruct Hr as [Hr|Hr]; [left; exact (Gr _ Hr) | right; exact Hr].
Qed.

Lemma stack_ok_single vals k : stack_ok declare vals [mkItem k false].
Proof.
  intros pre it post E R. destruct pre as [|x [|y pre]]; simpl in E; injection E as E1 E2.
  - subst it. discriminate.
  - discriminate.
  - discriminate.
Qed.

Lemma thread_ok_start vals tn :
  Acc (dep declare) root -> thread_ok vals (mkStack tn 0 false [mkItem root false] []).
Proof.
  intros A. split; [apply stack_ok_single|]. split; [reflexivity|]. split; [reflexivity|].
  split; [right; exists []; reflexivity|]. constructor; [exact A | constructor].
Qed.

Lemma thread_start_nodetect tn :
  thread_start key_eq_dec false root tn = Running (mkStack (Z.of_nat tn) 0 false [mkItem root false] []).
Proof.
  unfold thread_start, run_start, CppMemo.push, finalizeGroup. simpl.
  rewrite andb_false_r. reflexivity.
Qed.

Lemma run_start_nodetect :
  run_start key_eq_dec 0 false root = inr (mkStack 0 0 false [mkItem root false] []).
Proof. reflexivity. Qed.

(** The single-threaded loop stops, with the root in the map. *)
Lemma thread_run_loop :
  forall l, Acc stack_lt l -> forall vals log st, items st = l -> thread_ok vals st ->
  prereqs_memoized key_eq_dec declare vals ->
  exists fuel vals' log', run_loop (Declared declare) fuel vals log st = Some (inr (vals', log')) /\
    lookup vals' root <> None.
Proof.
  intros l A. induction A as [l _ IH]. intros vals log st El (Hok & G & D & Hr & Ha) Hm.
  pose proof (iteration_thread (fun l => l) false vals log st (@Permutation_refl _) Hok Hm G Hr) as H.
  destruct (run_iteration (Declared declare) (fun l => l) false vals log st) as [| e | vals' log' st'] eqn:E.
  - exists 1%nat, vals, log. simpl. rewrite E. split; [reflexivity | exact H].
  - congruence.
  - destruct H as (Gr & Hm' & Hok' & G' & D' & Hr' & Hlt & Ha').
    destruct (IH (items st') ltac:(rewrite <- El; exact Hlt) vals' log' st' eq_refl)
      as (fuel & vals2 & log2 & R & P).
    { split; [exact Hok'|]. split; [exact G'|]. split; [congruence|]. split; [exact Hr'|].
      exact (Ha' Ha). }
    { exact Hm'. }
    exists (S fuel), vals2, log2. simpl. rewrite E. split; [exact R | exact P].
Qed.

(** The threads of a run with detection off: a running thread is right, a
    joined one has left the root in the map, none has terminated. *)
Definition thread_inv (vals : Values Key Value) (t : ThreadState Key) : Prop :=
  match t with
  | Running st => thread_ok vals st
  | Joined => lookup vals root <> None
  | Terminated _ => False
  end.

Definition mt_inv (s : Values Key Value * list (Event Key) * list (ThreadState Key)) : Prop :=
  prereqs_memoized key_eq_dec declare (fst (fst s)) /\ Forall (thread_inv (fst (fst s))) (snd s).

(** A running thread goes on with a smaller stack, or stops. *)
Definition thread_lt (t' t : ThreadState Key) : Prop :=
  exists st, t = Running st /\
    match t' with
    | Running st' => stack_lt (items st') (items st)
    | _ => True
    end.

Lemma thread_lt_Acc st :
  Forall (fun it => Acc (dep declare) (item_key it)) (items st) -> Acc thread_lt (Running st).
Proof.
  assert (Hend : forall t, (forall st, t <> Running st) -> Acc thread_lt t).
  { intros t Ht. constructor. intros t' (st0 & E & _). exfalso. exact (Ht st0 E). }
  assert (H : forall l, Acc stack_lt l -> forall st, items st = l -> Acc thread_lt (Running st)).
  { intros l A. induction A as [l _ IH]. intros st0 El. constructor.
    intros t' (st1 & E & Ht). injection E as <-.
    destruct t' as [st'| |e].
    - apply (IH (items st')); [rewrite <- El; exact Ht | reflexivity].
    - apply Hend. intros st2. discriminate.
    - apply Hend. intros st2. discriminate. }
  intros F. exact (H _ (stack_lt_Acc _ F) st eq_refl).
Qed.

Lemma mt_step_inv s s' :
  mt_step (Declared declare) s s' -> mt_inv s ->
  mt_inv s' /\ one_lt thread_lt (snd s') (snd s) /\ length (snd s') = length (snd s).
Proof.
  intros Hs. destruct Hs as [vals log ths i st shuffle race Hi Hsh]. intros (Hm & F).
  simpl in *.
  assert (Ht : thread_ok vals st).
  { rewrite Forall_forall in F. exact (F _ (nth_error_In _ _ Hi)). }
  destruct Ht as (Hok & G & D & Hr & Ha).
  pose proof (iteration_thread shuffle race vals log st Hsh Hok Hm G Hr) as H.
  destruct (run_iteration (Declared declare) shuffle race vals log st) as [| e | vals' log' st'];
    simpl; rewrite ?FcmmFacts.length_list_set.
  - split; [split; [exact Hm | apply Forall_thread_set; [exact F | exact H]]|].
    split; [|reflexivity]. apply (one_lt_list_set _ _ _ _ _ Hi). exists st. split; [reflexivity | exact I].
  - congruence.
  - destruct H as (Gr & Hm' & Hok' & G' & D' & Hr' & Hlt & Ha').
    split; [split; [exact Hm'|]|].
    + apply Forall_thread_set.
      * eapply Forall_impl; [|exact F]. intros t Ht. destruct t as [st0| |e]; simpl in *.
        -- exact (thread_ok_grow _ _ _ Gr Ht).
        -- exact (Gr _ Ht).
        -- exact Ht.
      * split; [exact Hok'|]. split; [exact G'|]. split; [congruence|]. split; [exact Hr'|].
        exact (Ha' Ha).
    + split; [|reflexivity]. apply (one_lt_list_set _ _ _ _ _ Hi). exists st. split; [reflexivity | exact Hlt].
Qed.

Lemma mt_steps_inv s s' :
  clos_refl_trans _ (mt_step (Declared declare)) s s' -> mt_inv s ->
  mt_inv s' /\ length (snd s') = length (snd s).
Proof.
  induction 1 as [s s' Hs | s | s1 s2 s3 _ IH1 _ IH2].
  - intros Hi. destruct (mt_step_inv _ _ Hs Hi) as (H1 & _ & H2). auto.
  - auto.
  - intros Hi. destruct (IH1 Hi) as [H1 L1]. destruct (IH2 H1) as [H2 L2]. split; [exact H2 | congruence].
Qed.

(** No interleaving of the threads goes on forever. *)
Lemma mt_inv_Acc s : mt_inv s -> Acc (fun s2 s1 => mt_step (Declared declare) s1 s2) s.
Proof.
  intros Hs.
  assert (A : Acc (one_lt thread_lt) (snd s)).
  { apply one_lt_Acc. destruct Hs as [_ F]. eapply Forall_impl; [|exact F].
    intros t Ht. destruct t as [st| |e]; simpl in Ht.
    - apply thread_lt_Acc. exact (proj2 (proj2 (proj2 (proj2 Ht)))).
    - constructor. intros t' (st & E & _). discriminate.
    - contradiction. }
  remember (snd s) as l eqn:El. revert s El Hs.
  induction A as [l _ IH]. intros s El Hs. constructor. intros s' Hst.
  destruct (mt_step_inv _ _ Hst Hs) as (Hs' & Hlt & _).
  apply (IH (snd s')); [rewrite El; exact Hlt | reflexivity | exact Hs'].
Qed.

(** A state that no thread can take further has every thread joined. *)
Lemma mt_inv_progress s : mt_inv s ->
  (exists s', mt_step (Declared declare) s s') \/ Forall (fun t => t = Joined) (snd s).
Proof.
  destruct s as [[vals log] ths]. intros [_ F]. simpl in *.
  assert (H : (exists i st, nth_error ths i = Some (Running st)) \/ Forall (fun t => t = Joined) ths).
  { induction F as [|t ths Ht F IH]; [right; constructor|].
    destruct t as [st| |e].
    - left. exists O, st. reflexivity.
    - destruct IH as [(i & st & Hi) | Hj]; [left; exists (S i), st; exact Hi | right; constructor; auto].
    - contradiction. }
  destruct H as [(i & st & Hi) | Hj]; [left | right; exact Hj].
  eexists. exact (mt_step_iteration key_eq_dec dummyValue compute (Declared declare) vals log ths i st
                    (fun l => l) false Hi (@Permutation_refl _)).
Qed.

End Acyclic.

Lemma run_loop_last disc fuel vals log st r :
  run_loop disc fuel vals log st = Some r ->
  exists vals1 log1 st1,
    clos_refl_trans _ (run_step disc) (vals, log, st) (vals1, log1, st1) /\
    ((run_iteration disc (fun l => l) false vals1 log1 st1 = Finished /\ r = inr (vals1, log1)) \/
     exists e, run_iteration disc (fun l => l) false vals1 log1 st1 = Raised e /\ r = inl e).
Proof.
  revert vals log st. induction fuel as [|fuel IH]; intros vals log st; simpl; [discriminate|].
  destruct (run_iteration disc (fun l => l) false vals log st) as [| e | vals1 log1 st1] eqn:E.
  - intros [= <-]. exists vals, log, st. split; [apply rt_refl|]. left. auto.
  - intros [= <-]. exists vals, log, st. split; [apply rt_refl|]. right. exists e. auto.
  - intros H. destruct (IH _ _ _ H) as (vals2 & log2 & st2 & Hr & C).
    exists vals2, log2, st2. split; [|exact C].
    apply (rt_trans _ _ _ (vals1, log1, st1)); [apply rt_step; constructor; exact E | exact Hr].
Qed.

(** The loop is deterministic: two runs that stop agree. *)
Lemma run_loop_det disc fuel1 fuel2 vals log st r1 r2 :
  run_loop disc fuel1 vals log st = Some r1 -> run_loop disc fuel2 vals log st = Some r2 -> r1 = r2.
Proof.
  revert fuel2 vals log st. induction fuel1 as [|f1 IH]; intros [|f2] vals log st H1 H2;
    simpl in *; try discriminate.
  destruct (run_iteration disc (fun l => l) false vals log st); try congruence.
  exact (IH _ _ _ _ H1 H2).
Qed.

Lemma thread_start_shape detect root tn :
  exists s, thread_start key_eq_dec detect root tn =
    Running (mkStack (Z.of_nat tn) 0 detect [mkItem root false] s).
Proof.
  unfold thread_start, run_start, CppMemo.push, finalizeGroup. simpl.
  rewrite !andb_false_r. eexists. reflexivity.
Qed.

(** ** Threads of any run in explicit-declaration mode *)

Section AnyThreads.

Variable declare : Key -> list Key.
Hypothesis Hw : forall k, requests_within (declare k) (compute k).

(** With detection on or off, the map keeps each entry's declared
    prerequisites before it, and the running threads' stacks stay right. *)
Definition mt_inv_any (s : Values Key Value * list (Event Key) * list (ThreadState Key)) : Prop :=
  prereqs_memoized key_eq_dec declare (fst (fst s)) /\
  Forall (fun t => match t with
                   | Running st => stack_ok declare (fst (fst s)) (items st) /\ groupSize st = 0%nat
                   | _ => True
                   end) (snd s).

Lemma mt_step_inv_any s s' :
  mt_step (Declared declare) s s' -> mt_inv_any s -> mt_inv_any s'.
Proof.
  intros Hs. destruct Hs as [vals log ths i st shuffle race Hi Hsh]. intros (Hm & F).
  simpl in *.
  assert (Ht : stack_ok declare vals (items st) /\ groupSize st = 0%nat).
  { rewrite Forall_forall in F. exact (F _ (nth_error_In _ _ Hi)). }
  destruct Ht as (Hok & G).
  pose proof (iteration_general declare Hw shuffle race vals log st Hsh Hok Hm G) as H.
  destruct (run_iteration (Declared declare) shuffle race vals log st) as [| e | vals' log' st'];
    simpl.
  - split; [exact Hm | apply Forall_thread_set; [exact F | exact I]].
  - split; [exact Hm | apply Forall_thread_set; [exact F | exact I]].
  - destruct H as (Gr & Hm' & Hok' & G' & _).
    split; [exact Hm'|]. apply Forall_thread_set; [|split; [exact Hok' | exact G']].
    eapply Forall_impl; [|exact F]. intros t Ht. destruct t as [st0| |e]; [|exact I | exact I].
    destruct Ht as [Hok0 G0]. split; [exact (stack_ok_grow _ _ _ _ Gr Hok0) | exact G0].
Qed.

Lemma mt_steps_inv_any s s' :
  clos_refl_trans _ (mt_step (Declared declare)) s s' -> mt_inv_any s -> mt_inv_any s'.
Proof.
  induction 1 as [s s' Hs | s | s1 s2 s3 _ IH1 _ IH2]; auto.
  apply mt_step_inv_any. exact Hs.
Qed.

Lemma mt_inv_any_start detect root vals n :
  prereqs_memoized key_eq_dec declare vals ->
  mt_inv_any (vals, [], map (thread_start key_eq_dec detect root) (seq 0 n)).
Proof.
  intros Hm. split; [exact Hm|]. simpl. apply Forall_forall. intros t Ht.
  apply in_map_iff in Ht. destruct Ht as (tn & <- & _).
  destruct (thread_start_shape detect root tn) as (s & ->).
  split; [apply (stack_ok_single declare) | reflexivity].
Qed.

(** Whatever the threads do, the map they leave has each entry's declared
    prerequisites in it. *)
Lemma getValue_multi_memoized detect n root vals v vals' :
  prereqs_memoized key_eq_dec declare vals ->
  getValue_multi (Declared declare) detect n root vals v vals' ->
  prereqs_memoized key_eq_dec declare vals' /\ lookup vals' root = Some v.
Proof.
  intros Hm H. destruct H as [v L | vals'' log ths v L Hn Hr Hj Lv]; [auto|].
  split; [|exact Lv].
  exact (proj1 (mt_steps_inv_any _ _ Hr (mt_inv_any_start detect root vals n Hm))).
Qed.

End AnyThreads.

(** ** Termination of single-threaded runs with detection *)

Section Detecting.

Variable declare : Key -> list Key.
Hypothesis Hw : forall k, requests_within (declare k) (compute k).
Variable root : Key.
Variable ks : list Key.
Hypothesis Hfin : forall k, clos_refl_trans _ (dep declare) k root -> In k ks.

(** [k] is still to be expanded: it is not in the map and no ready item of
    it is on the stack. *)
Definition expandable (vals : Values Key Value) (st : ThreadItemsStack Key) (k : Key) : bool :=
  match lookup vals k with
  | Some _ => false
  | None => negb (existsb (fun it => keyEqual key_eq_dec (item_key it) k && ready it) (items st))
  end.

Definition exp_weight (vals : Values Key Value) (st : ThreadItemsStack Key) (k : Key) : nat :=
  if expandable vals st k then (2 * length (declare k) + 3)%nat else 0%nat.

Definition item_weight (it : Item Key) : nat := if ready it then 1%nat else 2%nat.

(** What is left to do: the keys still to expand, each with room for the
    prerequisites it will push, and the items on the stack. *)
Definition potential (vals : Values Key Value) (st : ThreadItemsStack Key) : nat :=
  (list_sum (map (exp_weight vals st) ks) + list_sum (map item_weight (items st)))%nat.

Lemma expandable_true vals st k :
  expandable vals st k = true <-> lookup vals k = None /\ ~ In (mkItem k true) (items st).
Proof.
  unfold expandable. destruct (lookup vals k) eqn:L.
  { split; [discriminate | intros [? _]; discriminate]. }
  rewrite negb_true_iff. split.
  - intros H. split; [reflexivity|]. intros Hin.
    assert (E : existsb (fun it => keyEqual key_eq_dec (item_key it) k && ready it) (items st) = true).
    { apply existsb_exists. exists (mkItem k true). split; [exact Hin|]. simpl.
      rewrite (proj2 (stack_keyEqual_true k k) eq_refl). reflexivity. }
    congruence.
  - intros [_ Hn]. apply not_true_iff_false. intros H. apply existsb_exists in H.
    destruct H as ([k' b] & Hin & E). apply andb_true_iff in E. destruct E as [E1 E2].
    apply stack_keyEqual_true in E1. simpl in *. subst. exact (Hn Hin).
Qed.

Lemma exp_weight_le vals st vals' st' x :
  (expandable vals' st' x = true -> expandable vals st x = true) ->
  (exp_weight vals' st' x <= exp_weight vals st x)%nat.
Proof.
  unfold exp_weight. intros H.
  destruct (expandable vals' st' x), (expandable vals st x); try lia.
  all: discriminate (H eq_refl).
Qed.

Lemma list_sum_map_le {A : Type} (f g : A -> nat) (l : list A) :
  (forall x, In x l -> f x <= g x)%nat -> (list_sum (map f l) <= list_sum (map g l))%nat.
Proof.
  induction l as [|a l IH]; intros H; simpl; [lia|].
  specialize (IH (fun x Hx => H x (or_intror Hx))). specialize (H a (or_introl eq_refl)). lia.
Qed.

Lemma list_sum_map_lt {A : Type} (f g : A -> nat) (l : list A) (a : A) (w : nat) :
  (forall x, In x l -> f x <= g x)%nat -> In a l -> (f a + w <= g a)%nat ->
  (list_sum (map f l) + w <= list_sum (map g l))%nat.
Proof.
  induction l as [|b l IH]; intros H Ha Hfa; [destruct Ha|]. simpl. destruct Ha as [->|Ha].
  - pose proof (list_sum_map_le f g l (fun x Hx => H x (or_intror Hx))). lia.
  - specialize (IH (fun x Hx => H x (or_intror Hx)) Ha Hfa). specialize (H b (or_introl eq_refl)). lia.
Qed.

Lemma weight_sum_cons (x : nat) (l : list nat) : list_sum (x :: l) = (x + list_sum l)%nat.
Proof. reflexivity. Qed.

Lemma item_weight_not_ready (new : list (Item Key)) :
  Forall (fun y => ready y = false) new -> list_sum (map item_weight new) = (2 * length new)%nat.
Proof. induction 1 as [|y new Hy _ IH]; simpl; [reflexivity|]. unfold item_weight at 1. rewrite Hy, IH. lia. Qed.

(** The invariant of a single-threaded run with detection on: every key on
    the stack is reachable from the root; a key on the stack and not in the
    map is in [itemsSet]; no item above a ready item whose key is not in
    the map has its key; and the root is at the bottom of the stack. *)
Definition detect_inv (vals : Values Key Value) (st : ThreadItemsStack Key) : Prop :=
  declared_inv declare vals st /\ detectCircularDependencies st = true /\
  Forall (fun it => clos_refl_trans _ (dep declare) (item_key it) root) (items st) /\
  (forall it, In it (items st) -> lookup vals (item_key it) = None -> In (item_key it) (itemsSet st)) /\
  (forall pre it post, items st = pre ++ it :: post -> ready it = true ->
     lookup vals (item_key it) = None -> ~ In (item_key it) (map item_key pre)) /\
  (items st = [] \/ exists pre, map item_key (items st) = pre ++ [root]).

Lemma lookup_none_back (vals vals' : Values Key Value) x :
  (forall x, lookup vals x <> None -> lookup vals' x <> None) ->
  lookup vals' x = None -> lookup vals x = None.
Proof. intros G L. destruct (lookup vals x) eqn:E; [|reflexivity]. exfalso. apply (G x); congruence. Qed.

Lemma detect_step vals log st vals' log' st' :
  detect_inv vals st ->
  run_iteration (Declared declare) (fun l => l) false vals log st = Continue vals' log' st' ->
  detect_inv vals' st' /\ (potential vals' st' < potential vals st)%nat.
Proof.
  intros Hi E. pose proof Hi as ((Hwf & Hok & Hm) & D & Rch & J3 & J2 & Bt).
  pose proof (declared_inv_step declare vals log st vals' log' st' (proj1 Hi) E) as Hi'.
  pose proof (iteration_general declare Hw (fun l => l) false vals log st (@Permutation_refl _)
                Hok Hm (proj1 (proj2 Hwf))) as H.
  rewrite E in H. destruct H as (Gr & _ & _ & _ & _ & D' & it & rest & I & C).
  rewrite D in C, D'. rewrite I in Rch, Bt.
  assert (Jit : In it (items st)) by (rewrite I; left; reflexivity).
  assert (Jrest : forall y, In y rest -> In y (items st)) by (intros y Hy; rewrite I; right; exact Hy).
  unfold potential. rewrite I. simpl.
  destruct C as [(R & I' & Pk & S') | [(R & Pk & -> & -> & I' & S') |
                 (R & L & -> & -> & new & F & Len & I' & N & S')]].
  - (* the ready top is popped *)
    split; [split; [exact Hi'|]; split; [exact D'|]; split; [|split; [|split]]|].
    + rewrite I'. inversion Rch; assumption.
    + intros it' Hin L'. rewrite I' in Hin. rewrite S', set_erase_In.
      split; [exact (J3 it' (Jrest _ Hin) (lookup_none_back _ _ _ Gr L'))|].
      intros Ek. apply Pk. rewrite <- Ek. exact L'.
    + intros pre it' post E' R' L'. rewrite I' in E'.
      assert (Ei : items st = (it :: pre) ++ it' :: post) by (rewrite I, E'; reflexivity).
      intros Hin. apply (J2 _ _ _ Ei R' (lookup_none_back _ _ _ Gr L')). right. exact Hin.
    + rewrite I'. destruct Bt as [Bt|(pre & Bt)]; [discriminate|].
      destruct pre as [|y pre]; simpl in Bt; injection Bt as Ek Er.
      * left. destruct rest; [reflexivity | discriminate].
      * right. exists pre. exact Er.
    + rewrite I'.
      assert (Hle : forall x, In x ks -> (exp_weight vals' st' x <= exp_weight vals st x)%nat).
      { intros x _. apply exp_weight_le. rewrite !expandable_true. rewrite I'.
        intros [L' Hn]. split; [exact (lookup_none_back _ _ _ Gr L')|]. rewrite I.
        intros [Ex|Hx]; [|exact (Hn Hx)]. apply Pk. rewrite Ex. exact L'. }
      pose proof (list_sum_map_le _ _ _ Hle).
      assert (Wt : item_weight it = 1%nat) by (unfold item_weight; rewrite R; reflexivity). lia.
  - (* the top is marked ready: its key is in the map *)
    split; [split; [exact Hi'|]; split; [exact D'|]; split; [|split; [|split]]|].
    + rewrite I'. inversion Rch; subst. constructor; assumption.
    + intros it' Hin L'. rewrite I' in Hin. rewrite S'. destruct Hin as [<-|Hin].
      * simpl in L'. contradiction.
      * exact (J3 it' (Jrest _ Hin) L').
    + intros [|x pre] it' post E' R' L'; rewrite I' in E'.
      * simpl in E'. injection E' as <- _. simpl in L'. contradiction.
      * simpl in E'. injection E' as <- E'.
        assert (Ei : items st = (it :: pre) ++ it' :: post) by (rewrite I, E'; reflexivity).
        exact (J2 _ _ _ Ei R' L').
    + rewrite I'. right. destruct Bt as [Bt|(pre & Bt)]; [discriminate|]. exists pre. exact Bt.
    + rewrite I'.
      assert (Hle : forall x, In x ks -> (exp_weight vals st' x <= exp_weight vals st x)%nat).
      { intros x _. apply exp_weight_le. rewrite !expandable_true. rewrite I', I.
        intros [L' Hn]. split; [exact L'|]. intros [Ex|Hx]; [|exact (Hn (or_intror Hx))].
        rewrite Ex in R. discriminate. }
      pose proof (list_sum_map_le _ _ _ Hle).
      assert (Wt : item_weight it = 2%nat) by (unfold item_weight; rewrite R; reflexivity).
      cbn [map list_sum]. change (item_weight (mkItem (item_key it) true)) with 1%nat. rewrite !weight_sum_cons. lia.
  - (* the top is expanded *)
    assert (Hk : In (item_key it) (itemsSet st)) by exact (J3 it Jit L).
    assert (Rit : clos_refl_trans _ (dep declare) (item_key it) root) by (inversion Rch; assumption).
    assert (Nnew : forall y, In y new -> ~ In (item_key y) (itemsSet st)).
    { intros y Hy. rewrite Forall_forall in N. exact (N eq_refl y Hy). }
    assert (Nkeys : forall x, In x (map item_key new) -> ~ In x (itemsSet st)).
    { intros x Hx. apply in_map_iff in Hx. destruct Hx as (y & <- & Hy). exact (Nnew y Hy). }
    assert (Fr : Forall (fun y => ready y = false) new).
    { eapply Forall_impl; [|exact F]. intros y [Ry _]. exact Ry. }
    split; [split; [exact Hi'|]; split; [exact D'|]; split; [|split; [|split]]|].
    + rewrite I'. apply Forall_app. split.
      * eapply Forall_impl; [|exact F]. intros y [_ Dy].
        apply (rt_trans _ _ _ (item_key it)); [apply rt_step; exact Dy | exact Rit].
      * inversion Rch; subst. constructor; assumption.
    + intros it' Hin L'. rewrite S', fold_set_insert_In. rewrite I' in Hin.
      apply in_app_iff in Hin. destruct Hin as [Hin|[<-|Hin]].
      * left. apply in_map. exact Hin.
      * right. exact Hk.
      * right. exact (J3 it' (Jrest _ Hin) L').
    + intros pre it' post E' R' L'. rewrite I' in E'.
      destruct (split_not_ready _ _ _ _ _ E' Fr R') as (pre0 & -> & E0).
      rewrite map_app, in_app_iff. intros [Hin|Hin].
      * destruct pre0 as [|x pre1].
        -- simpl in E0. injection E0 as <- _. exact (Nkeys _ Hin Hk).
        -- simpl in E0. injection E0 as <- E0.
           apply (Nkeys _ Hin). apply (J3 it'); [apply Jrest; rewrite E0; apply in_app_iff; right; left; reflexivity | exact L'].
      * destruct pre0 as [|x pre1].
        -- simpl in E0. injection E0 as <- _. destruct Hin.
        -- simpl in E0. injection E0 as <- E0.
           assert (Ei : items st = (it :: pre1) ++ it' :: post) by (rewrite I, E0; reflexivity).
           exact (J2 _ _ _ Ei R' L' Hin).
    + rewrite I'. right. destruct Bt as [Bt|(pre & Bt)]; [discriminate|].
      exists (map item_key new ++ pre). rewrite map_app, <- app_assoc, <- Bt. reflexivity.
    + rewrite I'.
      assert (Hle : forall x, In x ks -> (exp_weight vals st' x <= exp_weight vals st x)%nat).
      { intros x _. apply exp_weight_le. rewrite !expandable_true. rewrite I', I.
        intros [L' Hn]. split; [exact L'|]. intros [Ex|Hx].
        - rewrite Ex in R. discriminate.
        - apply Hn. apply in_app_iff. right. right. exact Hx. }
      assert (Hexp : expandable vals st (item_key it) = true).
      { apply expandable_true. split; [exact L|]. rewrite I. intros [Ex|Hx].
        - rewrite Ex in R. discriminate.
        - apply in_split in Hx. destruct Hx as (pre & post & Ex).
          assert (Ei : items st = (it :: pre) ++ mkItem (item_key it) true :: post)
            by (rewrite I, Ex; reflexivity).
          exact (J2 _ _ _ Ei eq_refl L (or_introl eq_refl)). }
      assert (Hexp' : expandable vals st' (item_key it) = false).
      { apply not_true_iff_false. rewrite expandable_true. intros [_ Hn]. apply Hn.
        rewrite I'. apply in_app_iff. right. left. reflexivity. }
      assert (Hlt : (list_sum (map (exp_weight vals st') ks) + (2 * length (declare (item_key it)) + 3)
                     <= list_sum (map (exp_weight vals st) ks))%nat).
      { apply (list_sum_map_lt _ _ _ (item_key it)); [exact Hle | exact (Hfin _ Rit)|].
        unfold exp_weight. rewrite Hexp, Hexp'. lia. }
      assert (Wt : item_weight it = 2%nat) by (unfold item_weight; rewrite R; reflexivity).
      rewrite map_app, list_sum_app, (item_weight_not_ready _ Fr). cbn [map list_sum].
      change (item_weight (mkItem (item_key it) true)) with 1%nat. rewrite !weight_sum_cons. lia.
Qed.

Lemma detect_steps s s' :
  clos_refl_trans _ (run_step (Declared declare)) s s' ->
  detect_inv (fst (fst s)) (snd s) -> detect_inv (fst (fst s')) (snd s').
Proof.
  induction 1 as [s s' Hs | s | s1 s2 s3 _ IH1 _ IH2]; auto.
  destruct Hs as [vals log st vals1 log1 st1 E]. simpl. intros Hi.
  exact (proj1 (detect_step _ _ _ _ _ _ Hi E)).
Qed.

(** The single-threaded loop with detection stops. *)
Lemma detect_terminates n : forall vals log st, (potential vals st < n)%nat -> detect_inv vals st ->
  exists fuel r, run_loop (Declared declare) fuel vals log st = Some r.
Proof.
  induction n as [|n IH]; intros vals log st Hp Hi; [lia|].
  destruct (run_iteration (Declared declare) (fun l => l) false vals log st) as [| e | vals' log' st'] eqn:E.
  - exists 1%nat, (inr (vals, log)). simpl. rewrite E. reflexivity.
  - exists 1%nat, (inl e). simpl. rewrite E. reflexivity.
  - destruct (detect_step _ _ _ _ _ _ Hi E) as [Hi' Hlt].
    destruct (IH vals' log' st' ltac:(lia) Hi') as (fuel & r & R).
    exists (S fuel), r. simpl. rewrite E. exact R.
Qed.

Lemma run_start_detect :
  run_start key_eq_dec 0 true root = inr (mkStack 0 0 true [mkItem root false] [root]).
Proof. reflexivity. Qed.

Lemma detect_inv_start vals :
  prereqs_memoized key_eq_dec declare vals ->
  detect_inv vals (mkStack 0 0 true [mkItem root false] [root]).
Proof.
  intros Hm. split; [split; [|split; [apply stack_ok_single | exact Hm]]|].
  { split; [reflexivity|]. split; [reflexivity|].
    intros x [<-|[]]. split; [reflexivity | left; reflexivity]. }
  split; [reflexivity|]. split; [constructor; [apply rt_refl | constructor]|].
  split; [intros it [<-|[]] _; left; reflexivity|].
  split; [|right; exists []; reflexivity].
  intros [|x pre] it post E R; simpl in E; injection E as E1 E2; [subst it; discriminate|].
  destruct pre; discriminate.
Qed.

End Detecting.

(** ** Runs on a finite acyclic graph, with detection off *)

Section AcyclicRuns.

Variable declare : Key -> list Key.
Hypothesis Hw : forall k, requests_within (declare k) (compute k).
Variable root : Key.
Variable ks : list Key.
Hypothesis Hfin : forall k, clos_refl_trans _ (dep declare) k root -> In k ks.
Hypothesis Hacyc : forall k, clos_refl_trans _ (dep declare) k root -> ~ clos_trans _ (dep declare) k k.

Lemma acyclic_single_returns vals :
  prereqs_memoized key_eq_dec declare vals -> vals_correct vals ->
  exists fuel v vals' log,
    getValue_single (Declared declare) false fuel root vals = Some (inr (v, vals', log)) /\
    denotes (compute root) v.
Proof.
  intros Hm Hc.
  pose proof (finite_acyclic_Acc declare root ks Hfin Hacyc) as Hacc.
  enough (exists fuel v vals' log,
            getValue_single (Declared declare) false fuel root vals = Some (inr (v, vals', log)))
    as (fuel & v & vals' & log & G).
  { exists fuel, v, vals', log. split; [exact G|].
    exact (proj1 (getValue_single_correct _ _ _ _ _ _ _ _ Hc G)). }
  unfold CppMemo.getValue_single. destruct (lookup vals root) as [v|] eqn:L.
  - exists 0%nat, v, vals, []. reflexivity.
  - rewrite run_start_nodetect.
    destruct (thread_run_loop declare Hw root [mkItem root false]
                (stack_lt_Acc declare _ (Forall_cons (mkItem root false) Hacc (Forall_nil _))) vals []
                (mkStack 0 0 false [mkItem root false] []) eq_refl
                (thread_ok_start declare root vals 0 Hacc) Hm) as (fuel & vals' & log' & R & Lr).
    exists fuel. rewrite R. destruct (lookup vals' root) as [v|] eqn:L'; [|contradiction].
    exists v, vals', log'. reflexivity.
Qed.

Lemma acyclic_multi_runs n vals :
  prereqs_memoized key_eq_dec declare vals -> vals_correct vals ->
  (1 < n)%nat -> lookup vals root = None ->
  Acc (fun s2 s1 => mt_step (Declared declare) s1 s2)
    (vals, [], map (thread_start key_eq_dec false root) (seq 0 n)) /\
  forall s, clos_refl_trans _ (mt_step (Declared declare))
              (vals, [], map (thread_start key_eq_dec false root) (seq 0 n)) s ->
    Forall (fun t => forall e, t <> Terminated e) (snd s) /\
    ((exists s', mt_step (Declared declare) s s') \/
     (Forall (fun t => t = Joined) (snd s) /\
      exists v, getValue_multi (Declared declare) false n root vals v (fst (fst s)) /\
                denotes (compute root) v)).
Proof.
  intros Hm Hc Hn L.
  pose proof (finite_acyclic_Acc declare root ks Hfin Hacyc) as Hacc.
  assert (H0 : mt_inv declare root (vals, [], map (thread_start key_eq_dec false root) (seq 0 n))).
  { split; [exact Hm|]. simpl. apply Forall_forall. intros t Ht.
    apply in_map_iff in Ht. destruct Ht as (tn & <- & _). rewrite thread_start_nodetect.
    exact (thread_ok_start declare root vals _ Hacc). }
  split; [exact (mt_inv_Acc declare Hw root _ H0)|].
  intros [[vals' log'] ths] Hr.
  destruct (mt_steps_inv declare Hw root _ _ Hr H0) as [(Hm' & F) Len].
  simpl in F, Len |- *. rewrite length_map, length_seq in Len.
  split.
  - eapply Forall_impl; [|exact F]. intros t Ht e ->. exact Ht.
  - destruct (mt_inv_progress declare root _ (conj Hm' F)) as [Hs|Hj]; [left; exact Hs|right].
    simpl in Hj. split; [exact Hj|].
    destruct ths as [|t ths]; [simpl in Len; lia|].
    assert (Ht : t = Joined) by (inversion Hj; assumption). subst t.
    assert (Hr0 : thread_inv declare root vals' Joined) by (inversion F; assumption).
    simpl in Hr0. destruct (lookup vals' root) as [v|] eqn:Lv; [|contradiction].
    assert (G : getValue_multi (Declared declare) false n root vals v vals')
      by (eapply getValue_multi_run; eauto).
    exists v. split; [exact G | exact (proj1 (getValue_multi_correct _ _ _ _ _ _ _ Hc G))].
Qed.

End AcyclicRuns.

(** Claim C5 (as amended): with detection on, in explicit-declaration mode
    (every key [compute] asks for is declared), from a map whose entries
    were each inserted after their declared prerequisites (the empty map,
    for one), when finitely many keys are reachable from the root and a
    cycle of declared prerequisites is reachable from it, a
    single-threaded [getValue] of the root raises [CircularDependency]: for
    some fuel it does, and every run that stops raises the same exception.
    Its [keysStack] is the thread's key stack at detection time: after
    some iterations of [run], the top item [top] is expanded, its declared
    prerequisite [x] is pushed, and [push] throws with [getKeysStack()] of
    the stack holding [x] on top.  This stack starts with the root and ends
    on [x], which occurs earlier in it.  With [numThreads > 1], [getValue]
    of such a root never returns a value. *)
Theorem cycle_detected_explicit declare root vals ks a :
  (forall k, requests_within (declare k) (compute k)) ->
  (forall k, clos_refl_trans _ (dep declare) k root -> In k ks) ->
  prereqs_memoized key_eq_dec declare vals ->
  clos_refl_trans _ (dep declare) a root -> clos_trans _ (dep declare) a a ->
  (exists fuel keysStack,
     getValue_single (Declared declare) true fuel root vals =
       Some (inl (CircularDependency keysStack)) /\
     (forall fuel' r, getValue_single (Declared declare) true fuel' root vals = Some r ->
        r = inl (CircularDependency keysStack)) /\
     (exists rest, keysStack = root :: rest) /\
     exists st0 vals1 log1 st1 top below stp x,
       run_start key_eq_dec 0 true root = inr st0 /\
       clos_refl_trans _ (run_step (Declared declare)) (vals, [], st0) (vals1, log1, st1) /\
       items st1 = top :: below /\ ready top = false /\ lookup vals1 (item_key top) = None /\
       In x (declare (item_key top)) /\
       pushed (markReady st1) stp /\ push stp x = inl (CircularDependency keysStack) /\
       keysStack = getKeysStack (mkStack (threadNo stp) (groupSize stp) true
                                   (mkItem x false :: items stp) (itemsSet stp)) /\
       exists pre, keysStack = pre ++ [x] /\ In x pre) /\
  (forall n v vals', ~ getValue_multi (Declared declare) true n root vals v vals').
Proof.
  intros Hw Hfin Hm Hra Hc.
  assert (Hno : forall vs : Values Key Value,
            prereqs_memoized key_eq_dec declare vs -> lookup vs root = None).
  { intros vs Hvs. destruct (lookup vs root) eqn:E; [|reflexivity]. exfalso.
    assert (Hr : lookup vs root <> None) by congruence.
    exact (Acc_no_cycle _ _ (Acc_prerequisite _ _ _ Hra (prereqs_memoized_Acc _ _ _ Hvs Hr)) Hc). }
  split.
  2:{ intros n v vals' H.
      destruct (getValue_multi_memoized declare Hw true n root vals v vals' Hm H) as [Hm' L].
      rewrite (Hno _ Hm') in L. discriminate. }
  pose proof (detect_inv_start declare root vals Hm) as Hi0.
  destruct (detect_terminates declare Hw root ks Hfin
              (S (potential declare ks vals (mkStack 0 0 true [mkItem root false] [root])))
              vals [] _ (Nat.lt_succ_diag_r _) Hi0) as (fuel & r & R).
  pose proof (proj1 Hi0) as Hd0.
  assert (G0 : forall fuel', getValue_single (Declared declare) true fuel' root vals =
                 match run_loop (Declared declare) fuel' vals []
                         (mkStack 0 0 true [mkItem root false] [root]) with
                 | None => None
                 | Some (inl e) => Some (inl e)
                 | Some (inr (vals', log)) =>
                     match lookup vals' root with
                     | Some v => Some (inr (v, vals', log))
                     | None => Some (inl OutOfRange)
                     end
                 end).
  { intros fuel'. unfold CppMemo.getValue_single. rewrite (Hno vals Hm), (run_start_detect root).
    reflexivity. }
  destruct r as [e|[vals' log']].
  2:{ exfalso. pose proof (declared_run_loop _ _ _ _ _ _ Hw Hd0 R) as Hm'.
      destruct (run_loop_keys _ _ _ _ _ _ _ (proj1 Hd0) R) as [_ K].
      apply (K (mkItem root false)); [left; reflexivity|]. exact (Hno vals' Hm'). }
  destruct (run_loop_last _ _ _ _ _ _ R) as (vals1 & log1 & st1 & Hr & C).
  destruct C as [(_ & Ee) | (e' & Ra & Ee)]; [discriminate|]. injection Ee as <-.
  pose proof (detect_steps declare Hw root ks Hfin _ _ Hr Hi0) as Hi1. simpl in Hi1.
  destruct Hi1 as ((Hwf1 & Hok1 & Hm1) & D1 & Rch1 & J3 & J2 & Bt1).
  pose proof (iteration_general declare Hw (fun l => l) false vals1 log1 st1
                (@Permutation_refl _) Hok1 Hm1 (proj1 (proj2 Hwf1))) as G.
  rewrite Ra in G. destruct G as (top & below & stp & x & I & Rt & Lt & Dx & Hp & P).
  destruct (push_error _ _ _ P) as (Ee & Ds & Hf).
  pose proof (pushed_set_ok _ _ Hp (markReady_set_ok _ (proj2 (proj2 Hwf1)))) as Hs.
  apply set_find_In in Hf. destruct (Hs _ Hf) as [_ Hx].
  rewrite Ds in Ee.
  set (keysStack := getKeysStack (mkStack (threadNo stp) (groupSize stp) true
                                    (mkItem x false :: items stp) (itemsSet stp))) in Ee.
  exists fuel, keysStack. rewrite Ee in P.
  split; [rewrite G0, R, Ee; reflexivity|]. split.
  { intros fuel' r' Gr. rewrite G0 in Gr.
    destruct (run_loop (Declared declare) fuel' vals [] _) as [r2|] eqn:R2; [|discriminate].
    rewrite (run_loop_det _ _ _ _ _ _ _ _ R2 R), Ee in Gr. injection Gr as <-. reflexivity. }
  assert (Ks : keysStack = rev (map item_key (items stp)) ++ [x]) by reflexivity.
  split.
  { destruct Bt1 as [Bt1|(pre & Bt1)]; [rewrite I in Bt1; discriminate|].
    destruct Hp as (new & Ip & _).
    destruct (markReady_items st1) as (Im & _). rewrite I in Im.
    rewrite Ks, Ip, Im, map_app. simpl. rewrite I in Bt1. simpl in Bt1. rewrite Bt1.
    exists (rev (map item_key new ++ pre) ++ [x]).
    rewrite app_assoc, rev_app_distr. reflexivity. }
  exists (mkStack 0 0 true [mkItem root false] [root]), vals1, log1, st1, top, below, stp, x.
  split; [exact (run_start_detect root)|]. split; [exact Hr|]. split; [exact I|].
  split; [exact Rt|]. split; [exact Lt|]. split; [exact Dx|]. split; [exact Hp|].
  split; [exact P|]. split; [reflexivity|].
  exists (rev (map item_key (items stp))). split; [exact Ks|]. apply in_rev. rewrite rev_involutive. exact Hx.
Qed.

End Runs.

Import MemoExamples.

(** ** Facts about the sample graphs *)

Lemma chain_within k : requests_within (chain_declare k) (chain_compute k).
Proof.
  unfold chain_declare, chain_compute. destruct (k =? 0).
  - apply within_ret.
  - apply within_req; [left; reflexivity | intros v; apply within_ret].
Qed.

Lemma chain_dep p k : dep chain_declare p k -> k <> 0 /\ p = k - 1.
Proof.
  unfold dep, chain_declare. destruct (k =? 0) eqn:E; simpl; [tauto|].
  intros [<-|[]]. split; [apply Z.eqb_neq; exact E | reflexivity].
Qed.

Lemma chain_reach k r : clos_refl_trans _ (dep chain_declare) k r -> 0 <= r -> 0 <= k <= r.
Proof.
  induction 1 as [x y H | x | x y z _ IH1 _ IH2]; intros Hr.
  - destruct (chain_dep _ _ H) as [Hn ->]. lia.
  - lia.
  - specialize (IH2 Hr). specialize (IH1 (proj1 IH2)). lia.
Qed.

Lemma chain_trans_lt k r : clos_trans _ (dep chain_declare) k r -> k < r.
Proof.
  induction 1 as [x y H | x y z _ IH1 _ IH2]; [|lia].
  destruct (chain_dep _ _ H) as [_ ->]. lia.
Qed.

Lemma chain_reach_200 k :
  clos_refl_trans _ (dep chain_declare) k 200 -> In k (map Z.of_nat (seq 0 201)).
Proof.
  intros H. destruct (chain_reach _ _ H ltac:(lia)) as [H1 H2].
  apply in_map_iff. exists (Z.to_nat k). split; [apply Z2Nat.id; exact H1|].
  apply in_seq. lia.
Qed.

Lemma chain_acyclic k : ~ clos_trans _ (dep chain_declare) k k.
Proof. intros H. pose proof (chain_trans_lt _ _ H). lia. Qed.

(** Claim C1 (as amended): the value [denotes] assigns to a [Comp] is
    unique; whenever [getValue] returns a value, single-threaded or with
    [numThreads > 1] under any interleaving, in either discovery mode,
    with detection on or off, from a map of right values, that value is the
    one obtained by applying [compute] recursively, so all such calls agree.
    With explicit declaration (every key [compute] asks for is declared)
    and detection off, from a map of right values each inserted after its
    declared prerequisites (the empty map, for one), when finitely many
    keys are reachable from the root and no cycle is: single-threaded
    [getValue] returns, for some fuel; with [numThreads > 1] and the root
    not yet in the map, every interleaving stops (there is no infinite run
    of iterations), no thread ever ends in an exception, and a run that
    cannot go on has joined all its threads, and [getValue] returns the
    recursive value.  For the chain [Compute], single-threaded
    [getValue(200)] with explicit declaration returns 200; with 4 threads,
    a run can return 200, and every run stops with all threads joined and
    [getValue] returning 200. *)
Theorem getValue_returns_recursive_value :
  (forall (Key Value : Type) (key_eq_dec : forall x y : Key, {x = y} + {x <> y})
          (dummyValue : Value) (compute : Key -> Comp Key Value),
     (forall c v1 v2, denotes compute c v1 -> denotes compute c v2 -> v1 = v2) /\
     (forall disc detect fuel key vals v vals' log,
        vals_correct compute vals ->
        getValue_single key_eq_dec dummyValue compute disc detect fuel key vals =
          Some (inr (v, vals', log)) ->
        denotes compute (compute key) v) /\
     (forall disc detect numThreads key vals v vals',
        vals_correct compute vals ->
        getValue_multi key_eq_dec dummyValue compute disc detect numThreads key vals v vals' ->
        denotes compute (compute key) v) /\
     (forall declare root ks vals,
        (forall k, requests_within (declare k) (compute k)) ->
        (forall k, clos_refl_trans _ (dep declare) k root -> In k ks) ->
        (forall k, clos_refl_trans _ (dep declare) k root -> ~ clos_trans _ (dep declare) k k) ->
        prereqs_memoized key_eq_dec declare vals -> vals_correct compute vals ->
        (exists fuel v vals' log,
           getValue_single key_eq_dec dummyValue compute (Declared declare) false fuel root vals =
             Some (inr (v, vals', log)) /\ denotes compute (compute root) v) /\
        (forall numThreads, (1 < numThreads)%nat -> lookup key_eq_dec vals root = None ->
           Acc (fun s2 s1 => mt_step key_eq_dec dummyValue compute (Declared declare) s1 s2)
             (vals, [], map (thread_start key_eq_dec false root) (seq 0 numThreads)) /\
           forall s, clos_refl_trans _ (mt_step key_eq_dec dummyValue compute (Declared declare))
                       (vals, [], map (thread_start key_eq_dec false root) (seq 0 numThreads)) s ->
             Forall (fun t => forall e, t <> Terminated e) (snd s) /\
             ((exists s', mt_step key_eq_dec dummyValue compute (Declared declare) s s') \/
              (Forall (fun t => t = Joined) (snd s) /\
               exists v, getValue_multi key_eq_dec dummyValue compute (Declared declare) false
                           numThreads root vals v (fst (fst s)) /\
                         denotes compute (compute root) v))))) /\
  getValue_single Z.eq_dec 0 chain_compute (Declared chain_declare) false 1000 200 [] =
    Some (inr (200, chain_values, chain_log)) /\
  denotes chain_compute (chain_compute 200) 200 /\
  getValue_multi Z.eq_dec 0 chain_compute (Declared chain_declare) false 4 200 [] 200 chain_values /\
  Acc (fun s2 s1 => mt_step Z.eq_dec 0 chain_compute (Declared chain_declare) s1 s2)
    ([], [], map (thread_start Z.eq_dec false 200) (seq 0 4)) /\
  (forall s, clos_refl_trans _ (mt_step Z.eq_dec 0 chain_compute (Declared chain_declare))
               ([], [], map (thread_start Z.eq_dec false 200) (seq 0 4)) s ->
     (exists s', mt_step Z.eq_dec 0 chain_compute (Declared chain_declare) s s') \/
     (Forall (fun t => t = Joined) (snd s) /\
      getValue_multi Z.eq_dec 0 chain_compute (Declared chain_declare) false 4 200 [] 200
        (fst (fst s)))).
Proof.
  assert (Hchain : getValue_single Z.eq_dec 0 chain_compute (Declared chain_declare) false 1000 200 [] =
                   Some (inr (200, chain_values, chain_log))) by (vm_compute; reflexivity).
  assert (Hgen : forall (Key Value : Type) (key_eq_dec : forall x y : Key, {x = y} + {x <> y})
          (dummyValue : Value) (compute : Key -> Comp Key Value),
     (forall c v1 v2, denotes compute c v1 -> denotes compute c v2 -> v1 = v2) /\
     (forall disc detect fuel key vals v vals' log,
        vals_correct compute vals ->
        getValue_single key_eq_dec dummyValue compute disc detect fuel key vals =
          Some (inr (v, vals', log)) ->
        denotes compute (compute key) v) /\
     (forall disc detect numThreads key vals v vals',
        vals_correct compute vals ->
        getValue_multi key_eq_dec dummyValue compute disc detect numThreads key vals v vals' ->
        denotes compute (compute key) v) /\
     (forall declare root ks vals,
        (forall k, requests_within (declare k) (compute k)) ->
        (forall k, clos_refl_trans _ (dep declare) k root -> In k ks) ->
        (forall k, clos_refl_trans _ (dep declare) k root -> ~ clos_trans _ (dep declare) k k) ->
        prereqs_memoized key_eq_dec declare vals -> vals_correct compute vals ->
        (exists fuel v vals' log,
           getValue_single key_eq_dec dummyValue compute (Declared declare) false fuel root vals =
             Some (inr (v, vals', log)) /\ denotes compute (compute root) v) /\
        (forall numThreads, (1 < numThreads)%nat -> lookup key_eq_dec vals root = None ->
           Acc (fun s2 s1 => mt_step key_eq_dec dummyValue compute (Declared declare) s1 s2)
             (vals, [], map (thread_start key_eq_dec false root) (seq 0 numThreads)) /\
           forall s, clos_refl_trans _ (mt_step key_eq_dec dummyValue compute (Declared declare))
                       (vals, [], map (thread_start key_eq_dec false root) (seq 0 numThreads)) s ->
             Forall (fun t => forall e, t <> Terminated e) (snd s) /\
             ((exists s', mt_step key_eq_dec dummyValue compute (Declared declare) s s') \/
              (Forall (fun t => t = Joined) (snd s) /\
               exists v, getValue_multi key_eq_dec dummyValue compute (Declared declare) false
                           numThreads root vals v (fst (fst s)) /\
                         denotes compute (compute root) v))))).
  { intros Key Value key_eq_dec dummyValue compute. split; [|split; [|split]].
    - exact (denotes_unique compute).
    - intros disc detect fuel key vals v vals' log Hc H.
      exact (proj1 (getValue_single_correct _ _ _ _ _ _ _ _ _ _ _ Hc H)).
    - intros disc detect n key vals v vals' Hc H.
      exact (proj1 (getValue_multi_correct _ _ _ _ _ _ _ _ _ _ Hc H)).
    - intros declare root ks vals Hw Hfin Hacyc Hm Hc. split.
      + exact (acyclic_single_returns key_eq_dec dummyValue compute declare Hw root ks Hfin Hacyc
                 vals Hm Hc).
      + intros n Hn L.
        exact (acyclic_multi_runs key_eq_dec dummyValue compute declare Hw root ks Hfin Hacyc
                 n vals Hm Hc Hn L). }
  assert (Hden : denotes chain_compute (chain_compute 200) 200).
  { apply (proj1 (proj2 (Hgen Z Z Z.eq_dec 0 chain_compute)) _ _ _ _ [] _ _ _
             (fun k v H => match H with end) Hchain). }
  destruct (proj2 (proj2 (proj2 (Hgen Z Z Z.eq_dec 0 chain_compute))) chain_declare 200
              (map Z.of_nat (seq 0 201)) [] chain_within chain_reach_200
              (fun k _ => chain_acyclic k) I (fun k v H => match H with end)) as [_ Hmulti].
  destruct (Hmulti 4%nat ltac:(lia) eq_refl) as [Hacc Hall].
  split; [exact Hgen|]. split; [exact Hchain|]. split; [exact Hden|]. split.
  - apply (getValue_multi_run Z.eq_dec 0 chain_compute (Declared chain_declare) false 4 200 []
             chain_values chain_log
             (Fcmm.list_set (Fcmm.list_set (Fcmm.list_set (Fcmm.list_set
                (map (thread_start Z.eq_dec false 200) (seq 0 4)) 0 Joined) 1 Joined) 2 Joined) 3 Joined));
      [reflexivity | lia | | vm_compute; repeat constructor | vm_compute; reflexivity].
    eapply rt_trans.
    { apply (run_loop_mt_steps Z.eq_dec 0 chain_compute _ 1000 _ _ (chain_start 0) _ 0);
        vm_compute; reflexivity. }
    eapply rt_trans.
    { apply (run_loop_mt_steps Z.eq_dec 0 chain_compute _ 3 _ _ (chain_start 1) _ 1);
        vm_compute; reflexivity. }
    eapply rt_trans.
    { apply (run_loop_mt_steps Z.eq_dec 0 chain_compute _ 3 _ _ (chain_start 2) _ 2);
        vm_compute; reflexivity. }
    apply (run_loop_mt_steps Z.eq_dec 0 chain_compute _ 3 _ _ (chain_start 3) _ 3);
      vm_compute; reflexivity.
  - split; [exact Hacc|]. intros s Hs.
    destruct (Hall s Hs) as [_ [Hstep|(Hj & v & G & Hv)]]; [left; exact Hstep|right].
    split; [exact Hj|]. assert (Ev : v = 200) by (symmetry; exact (denotes_unique _ _ _ _ Hden Hv)).
    subst v. exact G.
Qed.

Section Provider.

Context {Key Value : Type}.
Variable key_eq_dec : forall x y : Key, {x = y} + {x <> y}.
Variable dummyValue : Value.
Variable default_key : Key.
Variable default_value : Value.
Variable keyHash1 keyHash2 : Key -> Z.

(** Claim C10: in NORMAL mode the provider is [( *values)[key]]: a missing
    key raises [std::out_of_range] and nothing else, a present key gives its
    stored value, and the stack is returned unchanged (neither the provider
    nor [Fcmm::at] returns a map: they only read it).  At the level of the
    map, [Fcmm::at] raises [std::out_of_range] exactly when [find] fails
    and otherwise returns the value of the entry [find] found. *)
Theorem provider_normal_checked (vals : Values Key Value) (st : ThreadItemsStack Key) (key : Key)
    (m : @Fcmm.FcmmT Key Value) :
  (provide key_eq_dec dummyValue NORMAL vals st key = inl OutOfRange <->
     lookup key_eq_dec vals key = None) /\
  (forall e, provide key_eq_dec dummyValue NORMAL vals st key = inl e -> e = OutOfRange) /\
  (forall v, lookup key_eq_dec vals key = Some v ->
     provide key_eq_dec dummyValue NORMAL vals st key = inr (st, v)) /\
  (forall st' v, provide key_eq_dec dummyValue NORMAL vals st key = inr (st', v) ->
     st' = st /\ lookup key_eq_dec vals key = Some v) /\
  (Fcmm.at_ key_eq_dec default_key default_value keyHash1 keyHash2 m key = inl Fcmm.OutOfRange <->
     Fcmm.find key_eq_dec default_key default_value keyHash1 keyHash2 m key = None) /\
  (forall pos, Fcmm.find key_eq_dec default_key default_value keyHash1 keyHash2 m key = Some pos ->
     Fcmm.at_ key_eq_dec default_key default_value keyHash1 keyHash2 m key =
       inr (snd (Fcmm.entryAt default_key default_value m pos))).
Proof.
  unfold provide, Fcmm.at_. split; [|split; [|split; [|split; [|split]]]].
  - destruct (lookup key_eq_dec vals key); split; congruence.
  - destruct (lookup key_eq_dec vals key); congruence.
  - intros v ->. reflexivity.
  - destruct (lookup key_eq_dec vals key) as [w|]; [|discriminate]. intros st' v [= <- <-]. split; reflexivity.
  - destruct (Fcmm.find _ _ _ _ _ m key); split; congruence.
  - intros pos ->. reflexivity.
Qed.

End Provider.


(** ** Concrete runs *)

Lemma up_within k : requests_within (up_declare k) (up_compute k).
Proof. apply within_req; [left; reflexivity | intros v; apply within_ret]. Qed.

Lemma up_trans_gt k r : clos_trans _ (dep up_declare) k r -> r < k.
Proof.
  induction 1 as [x y H | x y z _ IH1 _ IH2]; [|lia].
  destruct H as [<-|[]]. lia.
Qed.

(** An iteration of the loop on [up_compute] pushes the next key. *)
Lemma up_iteration n rest :
  run_iteration Z.eq_dec 0 up_compute (Declared up_declare) (fun l => l) false [] []
    (mkStack 0 0 false (mkItem n false :: rest) []) =
  Continue [] [] (mkStack 0 0 false (mkItem (n + 1) false :: mkItem n true :: rest) []).
Proof. reflexivity. Qed.

Lemma up_loop fuel : forall n rest,
  run_loop Z.eq_dec 0 up_compute (Declared up_declare) fuel [] []
    (mkStack 0 0 false (mkItem n false :: rest) []) = None.
Proof.
  induction fuel as [|fuel IH]; intros n rest; [reflexivity|].
  cbn [run_loop]. rewrite up_iteration. apply IH.
Qed.

Lemma shared_within k : requests_within (shared_declare k) (shared_compute k).
Proof.
  unfold shared_declare, shared_compute. destruct (k =? 0); [|destruct (k =? 2)].
  - apply within_req; [left; reflexivity|]. intros a.
    apply within_req; [right; left; reflexivity|]. intros b. apply within_ret.
  - apply within_req; [left; reflexivity|]. intros a. apply within_ret.
  - apply within_ret.
Qed.

(** Key 0 comes first, then 2, then 1, along the declared prerequisites. *)
Definition shared_rank (k : Z) : Z := if k =? 0 then 0 else if k =? 2 then 1 else 2.

Lemma shared_trans_rank k r : clos_trans _ (dep shared_declare) k r -> shared_rank r < shared_rank k.
Proof.
  induction 1 as [x y H | x y z _ IH1 _ IH2]; [|lia].
  unfold dep, shared_declare in H. unfold shared_rank.
  destruct (y =? 0); [|destruct (y =? 2)]; simpl in H.
  - destruct H as [<-|[<-|[]]]; reflexivity.
  - destruct H as [<-|[]]; reflexivity.
  - destruct H.
Qed.

Lemma self_within k : requests_within (self_declare k) (self_compute k).
Proof.
  unfold self_declare, self_compute. destruct (k =? 0).
  - apply within_req; [simpl; auto|]. intros v. destruct (v =? 0).
    + apply within_ret.
    + apply within_req; [simpl; auto|]. intros w. apply within_ret.
  - destruct (k =? 1); apply within_ret.
Qed.

Lemma self_reach k r : clos_refl_trans _ (dep self_declare) k r -> In r [0; 1] -> In k [0; 1].
Proof.
  induction 1 as [x y H | x | x y z _ IH1 _ IH2]; auto.
  intros _. unfold dep, self_declare in H. destruct (y =? 0); simpl in H; [|destruct H].
  destruct H as [<-|[<-|[]]]; simpl; auto.
Qed.

Lemma cyc_within k : requests_within (cyc_declare k) (cyc_compute k).
Proof.
  unfold cyc_declare, cyc_compute. destruct (k <? 0); [|destruct (k =? 0)].
  - apply within_req; [left; reflexivity | intros v; apply within_ret].
  - apply within_req; [left; reflexivity|]. intros a.
    apply within_req; [right; left; reflexivity|]. intros b. apply within_ret.
  - apply within_req; [left; reflexivity | intros v; apply within_ret].
Qed.

(** With detection on, an iteration on a positive key of [cyc_compute]
    pushes the next key, which is not in [itemsSet] yet. *)
Lemma cyc_iteration n rest s :
  1 <= n -> Forall (fun x => x <= n) s ->
  run_iteration Z.eq_dec 0 cyc_compute (Declared cyc_declare) (fun l => l) false [] []
    (mkStack 0 0 true (mkItem n false :: rest) s) =
  Continue [] [] (mkStack 0 0 true (mkItem (n + 1) false :: mkItem n true :: rest) ((n + 1) :: s)).
Proof.
  intros Hn Hs.
  assert (F : set_find Z.eq_dec s (n + 1) = false).
  { unfold set_find. apply not_true_iff_false. intros H. apply existsb_exists in H.
    destruct H as (x & Hx & E). rewrite Forall_forall in Hs. specialize (Hs x Hx).
    unfold keyEqual in E. destruct (Z.eq_dec x (n + 1)); [lia | discriminate]. }
  assert (D : cyc_declare n = [n + 1]).
  { unfold cyc_declare. rewrite (proj2 (Z.ltb_ge n 0) ltac:(lia)), (proj2 (Z.eqb_neq n 0) ltac:(lia)).
    reflexivity. }
  unfold run_iteration. cbn [items ready item_key lookup markReady]. rewrite D.
  cbn [gather lookup]. unfold push. cbn [detectCircularDependencies itemsSet]. rewrite F.
  unfold finalizeGroup. cbn. unfold set_insert. rewrite F. reflexivity.
Qed.

Lemma cyc_loop fuel : forall n rest s,
  1 <= n -> Forall (fun x => x <= n) s ->
  run_loop Z.eq_dec 0 cyc_compute (Declared cyc_declare) fuel [] []
    (mkStack 0 0 true (mkItem n false :: rest) s) = None.
Proof.
  induction fuel as [|fuel IH]; intros n rest s Hn Hs; [reflexivity|].
  cbn [run_loop]. rewrite (cyc_iteration n rest s Hn Hs). apply IH; [lia|].
  constructor; [lia|]. revert Hs. apply Forall_impl. intros x Hx. lia.
Qed.

(** Claim C1 (counterexample): [getValue] need not return on a finite
    acyclic graph.  The graph of [branch_compute] from key 2 is acyclic
    (2 needs 1 and 0, which are leaves) and the recursive value of key 2
    is 7; with explicit declaration [getValue(2)] returns 7, but with
    discovery by dry run it raises [std::out_of_range]: the dry run of 2
    sees [Value()] = 0 for 1 and so asks for nothing else, and once 1 is
    known the NORMAL run of 2 asks for the missing 0.  The graph of
    [shared_compute] is acyclic too and [getValue(0)] returns 11 with
    detection off; with detection on it raises [CircularDependency] with
    the key stack [0; 1; 2; 1]: key 1, pushed with 2 when 0 is expanded, is
    still in [itemsSet] when 2 pushes it again.  And on the infinite
    acyclic graph of [up_compute], [getValue(0)] never returns, whatever
    the fuel. *)
Lemma getValue_acyclic_not_returning :
  (denotes branch_compute (branch_compute 2) 7 /\
   getValue_single Z.eq_dec 0 branch_compute (Declared branch_declare) false 100 2 [] =
     Some (inr (7, [(2, 7); (1, 5); (0, 7)], [NormalCall 2; NormalCall 1; NormalCall 0])) /\
   getValue_single Z.eq_dec 0 branch_compute DryRun false 100 2 [] = Some (inl OutOfRange)) /\
  ((forall k, requests_within (shared_declare k) (shared_compute k)) /\
   (forall k, ~ clos_trans _ (dep shared_declare) k k) /\
   getValue_single Z.eq_dec 0 shared_compute (Declared shared_declare) false 100 0 [] =
     Some (inr (11, [(0, 11); (2, 6); (1, 5)], [NormalCall 0; NormalCall 2; NormalCall 1])) /\
   getValue_single Z.eq_dec 0 shared_compute (Declared shared_declare) true 100 0 [] =
     Some (inl (CircularDependency [0; 1; 2; 1]))) /\
  ((forall k, requests_within (up_declare k) (up_compute k)) /\
   (forall k, ~ clos_trans _ (dep up_declare) k k) /\
   forall fuel, getValue_single Z.eq_dec 0 up_compute (Declared up_declare) false fuel 0 [] = None).
Proof.
  split; [|split].
  - split; [|split; vm_compute; reflexivity].
    unfold branch_compute at 2; simpl.
    apply (denotes_req _ 1 _ 5); [apply denotes_ret|].
    simpl. apply (denotes_req _ 0 _ 7); apply denotes_ret.
  - split; [exact shared_within|]. split; [|split; vm_compute; reflexivity].
    intros k H. pose proof (shared_trans_rank _ _ H). lia.
  - split; [exact up_within|]. split.
    + intros k H. pose proof (up_trans_gt _ _ H). lia.
    + intros fuel. unfold CppMemo.getValue_single. cbn -[run_loop]. unfold finalizeGroup. cbn -[run_loop].
      rewrite up_loop. reflexivity.
Qed.

(** Claim C5 (counterexample): [self_compute] makes key 0 depend on itself
    (through the value 5 of key 1).  With detection on and discovery by dry
    run, [getValue(0)] raises [std::out_of_range], not a circular
    dependency, for the same reason as in C1's counterexample.  With
    explicit declaration and 2 threads, thread 0 can raise the circular
    dependency [0; 1; 0] at its first iteration: the exception leaves
    [run] inside a [std::thread], which calls [std::terminate]; it never
    reaches the caller of [getValue].  And the graph of [cyc_compute] has
    the cycle of -1 reachable from 0, but it is infinite: [getValue(0)]
    with detection on follows 1, 2, 3, ... and never returns, whatever the
    fuel. *)
Lemma cycle_detection_gaps :
  (requests self_compute (self_compute 0) 0 /\
   getValue_single Z.eq_dec 0 self_compute DryRun true 100 0 [] = Some (inl OutOfRange)) /\
  clos_refl_trans _ (mt_step Z.eq_dec 0 self_compute (Declared self_declare))
    ([], [], map (thread_start Z.eq_dec true 0) (seq 0 2))
    ([], [], [Terminated (CircularDependency [0; 1; 0]); thread_start Z.eq_dec true 0 1]) /\
  ((forall k, requests_within (cyc_declare k) (cyc_compute k)) /\
   clos_refl_trans _ (dep cyc_declare) (-1) 0 /\ clos_trans _ (dep cyc_declare) (-1) (-1) /\
   forall fuel, getValue_single Z.eq_dec 0 cyc_compute (Declared cyc_declare) true fuel 0 [] = None).
Proof.
  split; [|split].
  - split; [|vm_compute; reflexivity].
    unfold self_compute at 2; simpl.
    apply (requests_later _ 1 _ 5); [apply denotes_ret|]. simpl. apply requests_here.
  - apply rt_step.
    exact (mt_step_iteration Z.eq_dec 0 self_compute (Declared self_declare) [] []
             (map (thread_start Z.eq_dec true 0) (seq 0 2)) 0
             (mkStack 0 0 true [mkItem 0 false] [0]) (fun l => l) false eq_refl
             (@Permutation_refl _)).
  - split; [exact cyc_within|].
    split; [apply rt_step; left; reflexivity|].
    split; [apply t_step; left; reflexivity|].
    intros fuel. unfold CppMemo.getValue_single. cbn -[run_loop]. unfold finalizeGroup. cbn -[run_loop].
    destruct fuel as [|fuel]; [reflexivity|].
    assert (E : run_loop Z.eq_dec 0 cyc_compute (Declared cyc_declare) (S fuel) [] []
                  (mkStack 0 0 true [mkItem 0 false] [0]) =
                run_loop Z.eq_dec 0 cyc_compute (Declared cyc_declare) fuel [] []
                  (mkStack 0 0 true (mkItem 1 false :: [mkItem (-1) false; mkItem 0 true]) [-1; 1; 0]))
      by reflexivity.
    rewrite E, cyc_loop; [reflexivity | lia | repeat constructor; lia].
Qed.

(** Claim C5, at a concrete graph: with explicit declaration of the cycle
    of [self_compute], whose keys reachable from 0 are 0 and 1,
    single-threaded [getValue(0)] raises the circular dependency [0; 1; 0]
    whenever it stops. *)
Lemma cycle_detected_explicit_witness :
  (forall k, requests_within (self_declare k) (self_compute k)) /\
  (forall k, clos_refl_trans _ (dep self_declare) k 0 -> In k [0; 1]) /\
  clos_trans _ (dep self_declare) 0 0 /\
  getValue_single Z.eq_dec 0 self_compute (Declared self_declare) true 100 0 [] =
    Some (inl (CircularDependency [0; 1; 0])) /\
  (forall fuel r, getValue_single Z.eq_dec 0 self_compute (Declared self_declare) true fuel 0 [] =
     Some r -> r = inl (CircularDependency [0; 1; 0])).
Proof.
  assert (Hfin : forall k, clos_refl_trans _ (dep self_declare) k 0 -> In k [0; 1])
    by (intros k H; exact (self_reach _ _ H (or_introl eq_refl))).
  assert (Hc : clos_trans _ (dep self_declare) 0 0) by (apply t_step; unfold dep; simpl; auto).
  assert (E : getValue_single Z.eq_dec 0 self_compute (Declared self_declare) true 100 0 [] =
              Some (inl (CircularDependency [0; 1; 0]))) by (vm_compute; reflexivity).
  destruct (cycle_detected_explicit Z.eq_dec 0 self_compute self_declare 0 [] [0; 1] 0
              self_within Hfin I (rt_refl _ _ _) Hc) as [(fuel & ks & _ & U & _) _].
  pose proof (U 100%nat _ E) as Ek.
  split; [exact self_within|]. split; [exact Hfin|]. split; [exact Hc|]. split; [exact E|].
  intros fuel' r G. rewrite (U fuel' r G). symmetry. exact Ek.
Defined.

(** Claim C7 (counterexample): a key whose dry run finds no prerequisite
    missing is computed once: [getValue(0)] of a leaf calls [compute] a
    single time, in dry-run mode, and memoizes its result. *)
Lemma dry_run_single_call :
  getValue_single Z.eq_dec 0 leaf_compute DryRun false 10 0 [] =
    Some (inr (5, [(0, 5)], [DryRunCall 0 0])).
Proof. vm_compute. reflexivity. Qed.

(** Claim C7, at a concrete run: [getValue(3)] of the chain by dry run;
    keys 3, 2 and 1 are dry-run and then computed, key 0 is dry-run only. *)
Lemma dry_run_compute_calls_witness :
  getValue_single Z.eq_dec 0 chain_compute DryRun false 100 3 [] =
    Some (inr (3, [(3, 3); (2, 2); (1, 1); (0, 0)],
               [NormalCall 3; NormalCall 2; NormalCall 1;
                DryRunCall 0 0; DryRunCall 1 1; DryRunCall 2 1; DryRunCall 3 1])) /\
  ~ In (NormalCall 0) [NormalCall 3; NormalCall 2; NormalCall 1;
                       DryRunCall 0 0; DryRunCall 1 1; DryRunCall 2 1; DryRunCall 3 1].
Proof.
  assert (E : getValue_single Z.eq_dec 0 chain_compute DryRun false 100 3 [] =
    Some (inr (3, [(3, 3); (2, 2); (1, 1); (0, 0)],
               [NormalCall 3; NormalCall 2; NormalCall 1;
                DryRunCall 0 0; DryRunCall 1 1; DryRunCall 2 1; DryRunCall 3 1])))
    by (vm_compute; reflexivity).
  destruct (dry_run_compute_calls Z.eq_dec 0 chain_compute false 100 3 [] _ _ _ E) as (_ & _ & H).
  split; [exact E|]. apply H. simpl. auto 10.
Defined.

(** Claim C9, at a concrete run: after one iteration of [getValue(3)] of
    the chain with explicit declaration, the stack holds 2 above 3; both
    are in the map the call returns, and read back without recomputation. *)
Lemma getValue_memoizes_pushed_keys_witness :
  exists w, lookup Z.eq_dec [(3, 3); (2, 2); (1, 1); (0, 0)] 2 = Some w /\
    getValue_readonly Z.eq_dec [(3, 3); (2, 2); (1, 1); (0, 0)] 2 = inr w.
Proof.
  assert (E : getValue_single Z.eq_dec 0 chain_compute (Declared chain_declare) false 100 3 [] =
    Some (inr (3, [(3, 3); (2, 2); (1, 1); (0, 0)],
               [NormalCall 3; NormalCall 2; NormalCall 1; NormalCall 0])))
    by (vm_compute; reflexivity).
  assert (S : run_start Z.eq_dec 0 false 3 = inr (mkStack 0 0 false [mkItem 3 false] []))
    by reflexivity.
  assert (R : run_step Z.eq_dec 0 chain_compute (Declared chain_declare)
                ([], [], mkStack 0 0 false [mkItem 3 false] [])
                ([], [], mkStack 0 0 false [mkItem 2 false; mkItem 3 true] [])).
  { apply run_step_continue. vm_compute. reflexivity. }
  apply (getValue_memoizes_pushed_keys Z.eq_dec 0 chain_compute (Declared chain_declare) false 100 3
           [] 3 _ _ _ _ E eq_refl S (rt_step _ _ _ _ R) (mkItem 2 false)).
  simpl. auto.
Defined.

End MemoFacts.

(** * Further properties of the map: insertion, lookup, iteration, size *)

Module FcmmOps.

Import Fcmm.

Section SubmapOps.

Context {Key Value : Type}.
Variable key_eq_dec : forall x y : Key, {x = y} + {x <> y}.
Variable default_key : Key.
Variable default_value : Value.

Local Abbreviation Submap := (@Submap Key Value).
Local Abbreviation getBucket := (Fcmm.getBucket default_key default_value).
Local Abbreviation Bucket_new := (Fcmm.Bucket_new default_key default_value).
Local Abbreviation keyEqual := (Fcmm.keyEqual key_eq_dec).
Local Abbreviation find_probe := (Fcmm.find_probe key_eq_dec default_key default_value).
Local Abbreviation insert_probe := (Fcmm.insert_probe key_eq_dec default_key default_value).
Local Abbreviation Submap_find := (Fcmm.Submap_find key_eq_dec default_key default_value).
Local Abbreviation Submap_insert := (Fcmm.Submap_insert key_eq_dec default_key default_value).

Lemma getCapacity_setBucket (sm : Submap) i b :
  getCapacity (incrementNumValidBuckets (setBucket sm i b)) = getCapacity sm.
Proof. unfold getCapacity. simpl. rewrite FcmmFacts.length_list_set. reflexivity. Qed.

Lemma nextIndex_setBucket (sm : Submap) i b inc index :
  nextIndex (incrementNumValidBuckets (setBucket sm i b)) inc index = nextIndex sm inc index.
Proof. unfold nextIndex. rewrite getCapacity_setBucket. reflexivity. Qed.

Lemma nextIndex_range (sm : Submap) inc index :
  0 < getCapacity sm -> 0 <= nextIndex sm inc index < getCapacity sm.
Proof. intros H. unfold nextIndex. apply Z.mod_pos_bound. exact H. Qed.

Lemma getBucket_setBucket_eq (sm : Submap) i b :
  0 <= i < getCapacity sm -> getBucket (incrementNumValidBuckets (setBucket sm i b)) i = b.
Proof.
  intros Hi. unfold Fcmm.getBucket, getCapacity in *. simpl.
  apply FcmmFacts.nth_list_set_eq. lia.
Qed.

Lemma getBucket_setBucket_neq (sm : Submap) i j b :
  0 <= i -> 0 <= j -> i <> j ->
  getBucket (incrementNumValidBuckets (setBucket sm i b)) j = getBucket sm j.
Proof.
  intros Hi Hj Hij. unfold Fcmm.getBucket. simpl.
  apply FcmmFacts.nth_list_set_neq. lia.
Qed.

Lemma keyEqual_iff (a b : Key) : keyEqual a b = true <-> a = b.
Proof. unfold Fcmm.keyEqual. destruct (key_eq_dec a b); split; congruence. Qed.

(** The loops of [Submap::insert] and [Submap::find] walk the same
    indices: an insertion lands on the EMPTY bucket where [find] stops, and
    [insert] reports an entry present (or the submap full) exactly where
    [find] finds it (or gives up). *)
Lemma insert_probe_find (sm : Submap) key computeValue startIndex inc :
  0 < getCapacity sm ->
  forall fuel index, 0 <= index < getCapacity sm ->
  match insert_probe sm key computeValue startIndex inc fuel index with
  | (sm', SI_Inserted i) =>
      state (getBucket sm i) = EMPTY /\ 0 <= i < getCapacity sm /\
      sm' = incrementNumValidBuckets (setBucket sm i (mkBucket VALID (key, computeValue key))) /\
      find_probe sm' key startIndex inc fuel index = (i, true)
  | (sm', SI_Present i) => sm' = sm /\ find_probe sm key startIndex inc fuel index = (i, true)
  | (sm', SI_Full) => sm' = sm /\ find_probe sm key startIndex inc fuel index = (0, false)
  end.
Proof.
  intros Hc. induction fuel as [|fuel IH]; intros index Hi.
  - simpl. unfold bucket_cas.
    destruct (state (getBucket sm index)) eqn:Hs.
    + split; [exact Hs|]. split; [exact Hi|]. split; [reflexivity|].
      rewrite getBucket_setBucket_eq by exact Hi. simpl.
      rewrite (proj2 (keyEqual_iff key key) eq_refl). reflexivity.
    + destruct (keyEqual (fst (entry (getBucket sm index))) key);
        destruct (nextIndex sm inc index =? startIndex); split; reflexivity.
    + destruct (keyEqual (fst (entry (getBucket sm index))) key) eqn:Hk;
        [split; reflexivity|].
      destruct (nextIndex sm inc index =? startIndex); split; reflexivity.
  - cbn [Fcmm.insert_probe Fcmm.find_probe]. unfold bucket_cas.
    destruct (state (getBucket sm index)) eqn:Hs.
    + split; [exact Hs|]. split; [exact Hi|]. split; [reflexivity|].
      rewrite getBucket_setBucket_eq by exact Hi. simpl.
      rewrite (proj2 (keyEqual_iff key key) eq_refl). reflexivity.
    + destruct (nextIndex sm inc index =? startIndex) eqn:Hn; [split; reflexivity|].
      pose proof (IH (nextIndex sm inc index) (nextIndex_range sm inc index Hc)) as H.
      destruct (insert_probe sm key computeValue startIndex inc fuel (nextIndex sm inc index))
        as [sm' [i|i|]].
      * destruct H as (He & Hr & -> & Hf). split; [exact He|]. split; [exact Hr|].
        split; [reflexivity|].
        assert (Hne : index <> i) by (intros ->; congruence).
        rewrite getBucket_setBucket_neq by lia. rewrite Hs, nextIndex_setBucket, Hn. exact Hf.
      * exact H.
      * exact H.
    + destruct (keyEqual (fst (entry (getBucket sm index))) key) eqn:Hk;
        [split; reflexivity|].
      destruct (nextIndex sm inc index =? startIndex) eqn:Hn; [split; reflexivity|].
      pose proof (IH (nextIndex sm inc index) (nextIndex_range sm inc index Hc)) as H.
      destruct (insert_probe sm key computeValue startIndex inc fuel (nextIndex sm inc index))
        as [sm' [i|i|]].
      * destruct H as (He & Hr & -> & Hf). split; [exact He|]. split; [exact Hr|].
        split; [reflexivity|].
        assert (Hne : index <> i) by (intros ->; congruence).
        rewrite getBucket_setBucket_neq by lia. rewrite Hs, Hk, nextIndex_setBucket, Hn. exact Hf.
      * exact H.
      * exact H.
Qed.

(** [Submap::insert] followed by [Submap::find] of the same key, on a
    submap of positive capacity: a new entry is written to a bucket that
    was EMPTY, that bucket alone changes (the count of VALID buckets goes
    up by one) and [find] then returns it with the key and the computed
    value; when [insert] reports the key present, the submap is unchanged
    and [find] returns the same bucket; when it reports the submap full,
    the submap is unchanged and [find] fails too. *)
Theorem Submap_insert_find (sm : Submap) key hash1 hash2 computeValue :
  0 < getCapacity sm ->
  match Submap_insert sm key hash1 hash2 computeValue with
  | (sm', SI_Inserted i) =>
      state (getBucket sm i) = EMPTY /\
      getBucket sm' i = mkBucket VALID (key, computeValue key) /\
      (forall j, 0 <= j -> j <> i -> getBucket sm' j = getBucket sm j) /\
      getCapacity sm' = getCapacity sm /\
      numValidBuckets sm' = numValidBuckets sm + 1 /\
      Submap_find sm' key hash1 hash2 = (i, true)
  | (sm', SI_Present i) => sm' = sm /\ Submap_find sm key hash1 hash2 = (i, true)
  | (sm', SI_Full) => sm' = sm /\ snd (Submap_find sm key hash1 hash2) = false
  end.
Proof.
  intros Hc. unfold Fcmm.Submap_insert, Fcmm.Submap_find.
  pose proof (insert_probe_find sm key computeValue (hash1 mod getCapacity sm)
                (calculateProbeIncrement sm hash2) Hc (length (buckets sm))
                (hash1 mod getCapacity sm) (Z.mod_pos_bound _ _ Hc)) as H.
  destruct (insert_probe sm key computeValue _ _ _ _) as [sm' [i|i|]].
  - destruct H as (He & Hr & -> & Hf). split; [exact He|].
    split; [apply getBucket_setBucket_eq; exact Hr|].
    split; [intros j Hj Hji; apply getBucket_setBucket_neq; lia|].
    split; [apply getCapacity_setBucket|]. split; [reflexivity|].
    unfold calculateProbeIncrement in Hf |- *. rewrite getCapacity_setBucket.
    replace (length (buckets (incrementNumValidBuckets _)))
      with (length (buckets sm)) by (simpl; rewrite FcmmFacts.length_list_set; reflexivity).
    exact Hf.
  - exact H.
  - destruct H as [-> Hf]. split; [reflexivity|]. rewrite Hf. reflexivity.
Qed.

Lemma find_probe_other (sm sm' : Submap) key startIndex inc i :
  0 < getCapacity sm ->
  (forall j, 0 <= j -> j <> i -> getBucket sm' j = getBucket sm j) ->
  (forall index, nextIndex sm' inc index = nextIndex sm inc index) ->
  state (getBucket sm i) = EMPTY ->
  forall fuel index idx, 0 <= index ->
  find_probe sm key startIndex inc fuel index = (idx, true) ->
  find_probe sm' key startIndex inc fuel index = (idx, true).
Proof.
  intros Hc Hb Hn He. induction fuel as [|fuel IH]; intros index idx Hi H;
    cbn [Fcmm.find_probe] in H |- *;
    (assert (Hne : index <> i) by
       (intros ->; rewrite He in H; discriminate));
    rewrite (Hb index Hi Hne), Hn;
    destruct (state (getBucket sm index)); try exact H;
    destruct (keyEqual (fst (entry (getBucket sm index))) key); try exact H;
    destruct (nextIndex sm inc index =? startIndex); try discriminate;
    try (apply IH; [apply nextIndex_range; exact Hc|exact H]).
Qed.

(** Inserting any key into a submap keeps every key [find] found there
    found, at the same bucket. *)
Lemma Submap_insert_keeps_find (sm : Submap) key k2 hash1 hash2 h1 h2 computeValue sm' i idx :
  0 < getCapacity sm ->
  Submap_insert sm k2 h1 h2 computeValue = (sm', SI_Inserted i) ->
  Submap_find sm key hash1 hash2 = (idx, true) ->
  Submap_find sm' key hash1 hash2 = (idx, true).
Proof.
  intros Hc Hi Hf. pose proof (Submap_insert_find sm k2 h1 h2 computeValue Hc) as I.
  rewrite Hi in I. destruct I as (He & _ & Hb & Hcap & _).
  unfold Fcmm.Submap_find in *. unfold calculateProbeIncrement in *. rewrite Hcap.
  assert (Hlen : length (buckets sm') = length (buckets sm)).
  { unfold getCapacity in Hcap. lia. }
  rewrite Hlen.
  apply (find_probe_other sm sm' key _ _ i Hc (fun j Hj Hji => Hb j Hj Hji)); try assumption.
  - intros index. unfold nextIndex. rewrite Hcap. reflexivity.
  - apply Z.mod_pos_bound. exact Hc.
Qed.

Lemma insert_probe_present (sm : Submap) key computeValue startIndex inc :
  forall fuel index idx,
  find_probe sm key startIndex inc fuel index = (idx, true) ->
  insert_probe sm key computeValue startIndex inc fuel index = (sm, SI_Present idx).
Proof.
  induction fuel as [|fuel IH]; intros index idx H;
    cbn [Fcmm.find_probe Fcmm.insert_probe] in H |- *; unfold Fcmm.bucket_cas;
    destruct (state (getBucket sm index)); try discriminate;
    destruct (keyEqual (fst (entry (getBucket sm index))) key); try discriminate;
    try (injection H as <-; reflexivity);
    destruct (nextIndex sm inc index =? startIndex); try discriminate;
    apply IH; exact H.
Qed.

(** Inserting a key [find] finds in a submap leaves the submap as it is
    and reports the bucket [find] returns, without computing a value. *)
Lemma Submap_insert_present (sm : Submap) key hash1 hash2 computeValue idx :
  Submap_find sm key hash1 hash2 = (idx, true) ->
  Submap_insert sm key hash1 hash2 computeValue = (sm, SI_Present idx).
Proof. apply insert_probe_present. Qed.

Lemma filter_list_set_length {A : Type} (f : A -> bool) (l : list A) n x d :
  (n < length l)%nat -> f (nth n l d) = false -> f x = true ->
  length (filter f (list_set l n x)) = S (length (filter f l)).
Proof.
  revert n. induction l as [|y l IH]; intros n Hn Hy Hx; simpl in *; [lia|].
  destruct n as [|n]; simpl.
  - rewrite Hx, Hy. reflexivity.
  - destruct (f y); simpl; rewrite IH by (lia || assumption); reflexivity.
Qed.

(** A successful insertion into a submap adds one VALID bucket, and
    [numValidBuckets] counts it. *)
Lemma Submap_insert_count (sm : Submap) key hash1 hash2 computeValue sm' i :
  0 < getCapacity sm ->
  Submap_insert sm key hash1 hash2 computeValue = (sm', SI_Inserted i) ->
  length (submapEntries sm') = S (length (submapEntries sm)) /\
  numValidBuckets sm' = numValidBuckets sm + 1.
Proof.
  intros Hc Hi. unfold Fcmm.Submap_insert in Hi.
  pose proof (insert_probe_find sm key computeValue (hash1 mod getCapacity sm)
                (calculateProbeIncrement sm hash2) Hc (length (buckets sm))
                (hash1 mod getCapacity sm) (Z.mod_pos_bound _ _ Hc)) as H.
  rewrite Hi in H. destruct H as (He & Hr & -> & _). split; [|reflexivity].
  unfold submapEntries. simpl. rewrite !length_map.
  apply (filter_list_set_length _ _ _ _ (Bucket_new)).
  - unfold getCapacity in Hr. lia.
  - unfold Fcmm.getBucket in He. rewrite He. reflexivity.
  - reflexivity.
Qed.

End SubmapOps.

Section IterOps.

Context {Key Value : Type}.
Variable default_key : Key.
Variable default_value : Value.

Local Abbreviation FcmmT := (@FcmmT Key Value).
Local Abbreviation Submap := (@Submap Key Value).
Local Abbreviation getSubmap := (Fcmm.getSubmap default_key default_value).
Local Abbreviation getBucket := (Fcmm.getBucket default_key default_value).
Local Abbreviation Submap_seek := (Fcmm.Submap_seek default_key default_value).
Local Abbreviation Submap_seek_body := (Fcmm.Submap_seek_body default_key default_value).
Local Abbreviation iterator_seek_body := (Fcmm.iterator_seek_body default_key default_value).
Local Abbreviation iterator_seek := (Fcmm.iterator_seek default_key default_value).
Local Abbreviation iterator_next := (Fcmm.iterator_next default_key default_value).
Local Abbreviation deref := (Fcmm.deref default_key default_value).
Local Abbreviation begin := (Fcmm.begin default_key default_value).
Local Abbreviation end_ := (Fcmm.end_ default_key default_value).
Local Abbreviation iterate_from := (Fcmm.iterate_from default_key default_value).
Local Abbreviation iterate := (Fcmm.iterate default_key default_value).

Definition isValid (b : @Bucket Key Value) : bool :=
  match state b with VALID => true | _ => false end.

(** The entries of the VALID buckets of [sm] from bucket [b] on. *)
Definition valid_from (sm : Submap) (b : Z) : list (Key * Value) :=
  map entry (filter isValid (skipn (Z.to_nat b) (buckets sm))).

(** The entries an iterator visits from bucket [b] of submap [s] on. *)
Definition entries_from (m : FcmmT) (s b : Z) : list (Key * Value) :=
  valid_from (getSubmap m s) b ++ flat_map submapEntries (skipn (S (Z.to_nat s)) (submaps m)).

(** The indices of the submaps and buckets fit in a [std::size_t]. *)
Definition iter_ok (m : FcmmT) : Prop :=
  submaps m <> [] /\ getNumSubmaps m < size_t_modulus /\
  Forall (fun sm => getCapacity sm < size_t_modulus) (submaps m).

(** What is left to visit from an iterator: nothing at [end()], else the
    entry of the VALID bucket it points to and the entries after it. *)
Definition iter_rest (m : FcmmT) (it : const_iterator) (E : list (Key * Value)) : Prop :=
  (iter_end it = true /\ E = []) \/
  (iter_end it = false /\ 0 <= submapIndex it < getNumSubmaps m /\
   0 <= bucketIndex it < getCapacity (getSubmap m (submapIndex it)) /\
   state (getBucket (getSubmap m (submapIndex it)) (bucketIndex it)) = VALID /\
   E = deref m it :: entries_from m (submapIndex it) (bucketIndex it + 1)).

Lemma skipn_nth_cons {A : Type} (l : list A) (d : A) n :
  (n < length l)%nat -> skipn n l = nth n l d :: skipn (S n) l.
Proof.
  revert l. induction n as [|n IH]; intros [|x l] H; simpl in *; try lia; [reflexivity|].
  apply IH. lia.
Qed.

Lemma Submap_seek_spec (sm : Submap) b :
  0 <= b -> getCapacity sm < size_t_modulus ->
  match Submap_seek sm b with
  | (j, true) => b <= j < getCapacity sm /\ state (getBucket sm j) = VALID /\
                 valid_from sm b = entry (getBucket sm j) :: valid_from sm (j + 1)
  | (_, false) => valid_from sm b = []
  end.
Proof.
  intros Hb Hc. unfold Fcmm.Submap_seek.
  set (Q := fun r : Z * bool => match r with
    | (j, true) => b <= j < getCapacity sm /\ state (getBucket sm j) = VALID /\
                   valid_from sm b = entry (getBucket sm j) :: valid_from sm (j + 1)
    | (_, false) => valid_from sm b = []
    end).
  set (Inv := fun idx => b <= idx /\ valid_from sm idx = valid_from sm b).
  assert (Hbody : forall idx, Inv idx ->
            match Submap_seek_body sm idx with inl idx' => Inv idx' | inr r => Q r end).
  { intros idx [Hi He]. unfold Fcmm.Submap_seek_body.
    destruct (idx <? getCapacity sm) eqn:Elt.
    - apply Z.ltb_lt in Elt.
      assert (Hs : valid_from sm idx =
                   (if isValid (getBucket sm idx) then [entry (getBucket sm idx)] else [])
                   ++ valid_from sm (idx + 1)).
      { unfold valid_from, Fcmm.getBucket.
        rewrite (skipn_nth_cons _ (Bucket_new default_key default_value)) by
          (unfold getCapacity in Elt; lia).
        replace (Z.to_nat (idx + 1)) with (S (Z.to_nat idx)) by lia.
        simpl. destruct (isValid _); reflexivity. }
      unfold isValid in Hs. destruct (state (getBucket sm idx)) eqn:Es.
      + split; [unfold size_t_wrap, size_t_modulus in *; rewrite Z.mod_small; lia|].
        rewrite <- He, Hs. unfold size_t_wrap, size_t_modulus in *. rewrite Z.mod_small by lia.
        reflexivity.
      + split; [unfold size_t_wrap, size_t_modulus in *; rewrite Z.mod_small; lia|].
        rewrite <- He, Hs. unfold size_t_wrap, size_t_modulus in *. rewrite Z.mod_small by lia.
        reflexivity.
      + simpl. split; [lia|]. split; [exact Es|]. rewrite <- He, Hs. reflexivity.
    - apply Z.ltb_ge in Elt. simpl. rewrite <- He. unfold valid_from.
      rewrite skipn_all2 by (unfold getCapacity in Elt; lia). reflexivity. }
  destruct (loop_returns (Submap_seek_body sm) Inv Q Hbody
              (fun idx => Z.max 0 (getCapacity sm - idx)))
    with (p := loop_bound) (s := b) as [r [Hr HQ]].
  - intros idx _. lia.
  - intros idx idx' [Hi _] Hs. unfold Fcmm.Submap_seek_body in Hs.
    destruct (idx <? getCapacity sm) eqn:Elt; [|discriminate].
    apply Z.ltb_lt in Elt.
    destruct (state (getBucket sm idx)); try discriminate; injection Hs as <-;
      unfold size_t_wrap, size_t_modulus in *; rewrite Z.mod_small; lia.
  - split; [lia|reflexivity].
  - unfold loop_bound. unfold size_t_modulus in Hc. lia.
  - rewrite Hr. exact HQ.
Qed.

Lemma getCapacity_bound (m : FcmmT) s :
  iter_ok m -> 0 <= s < getNumSubmaps m -> getCapacity (getSubmap m s) < size_t_modulus.
Proof.
  intros (_ & _ & Hf) Hs. rewrite Forall_forall in Hf. apply Hf.
  unfold Fcmm.getSubmap, getNumSubmaps in *. apply nth_In. lia.
Qed.

Lemma iterator_seek_spec (m : FcmmT) s b :
  iter_ok m -> 0 <= s < getNumSubmaps m -> 0 <= b ->
  iter_rest m (iterator_seek m (mkIterator s b false)) (entries_from m s b).
Proof.
  intros Hok Hs Hb. pose proof Hok as (Hne & Hn & _).
  remember (entries_from m s b) as E eqn:HE0.
  set (Inv := fun it => (iter_end it = true /\ E = []) \/
    (iter_end it = false /\ 0 <= submapIndex it < getNumSubmaps m /\ 0 <= bucketIndex it /\
     entries_from m (submapIndex it) (bucketIndex it) = E)).
  assert (Hbody : forall it, Inv it ->
            match iterator_seek_body m it with
            | inl it' => Inv it' | inr r => iter_rest m r E end).
  { intros [s1 b1 e1] [[He HE]|(He & Hs1 & Hb1 & HE)]; cbn [submapIndex bucketIndex iter_end] in *;
      unfold Fcmm.iterator_seek_body; simpl; subst e1; [left; split; [reflexivity|exact HE]|].
    pose proof (Submap_seek_spec (getSubmap m s1) b1 Hb1 (getCapacity_bound m s1 Hok Hs1)) as Hsk.
    destruct (Submap_seek (getSubmap m s1) b1) as [j [|]].
    - destruct Hsk as (Hj & Hv & Hvf). right. simpl. repeat split; try lia; try exact Hv.
      rewrite <- HE. unfold entries_from. rewrite Hvf. reflexivity.
    - unfold getLastSubmapIndex, size_t_wrap, size_t_modulus in *.
      rewrite !Z.mod_small by lia.
      unfold entries_from in HE. rewrite Hsk in HE. cbn [app] in HE.
      destruct (s1 + 1 >? getNumSubmaps m - 1) eqn:Eg; rewrite Z.gtb_ltb in Eg.
      + apply Z.ltb_lt in Eg. left. split; [reflexivity|].
        rewrite <- HE. rewrite skipn_all2 by (unfold getNumSubmaps in *; lia). reflexivity.
      + apply Z.ltb_ge in Eg. right. simpl. split; [reflexivity|]. split; [lia|]. split; [lia|].
        rewrite <- HE. unfold entries_from, valid_from, Fcmm.getSubmap.
        rewrite (skipn_nth_cons (submaps m) (Submap_new default_key default_value 0) (S (Z.to_nat s1)))
          by (unfold getNumSubmaps in *; lia).
        replace (Z.to_nat (s1 + 1)) with (S (Z.to_nat s1)) by lia. reflexivity. }
  destruct (loop_returns (iterator_seek_body m) Inv (fun r => iter_rest m r E) Hbody
              (fun it => if iter_end it then 0 else getNumSubmaps m - submapIndex it))
    with (p := loop_bound) (s := mkIterator s b false) as [r [Hr HQ]].
  - intros [s1 b1 [|]] H; simpl; [lia|].
    destruct H as [[H _]|(_ & H & _)]; [discriminate|simpl in H; lia].
  - intros [s1 b1 e1] it' H Hs'. unfold Fcmm.iterator_seek_body in Hs'. simpl in *.
    destruct e1; [discriminate|]. destruct H as [[H _]|(_ & Hs1 & _)]; [discriminate|].
    simpl in Hs1.
    destruct (Submap_seek _ b1) as [j [|]]; [discriminate|].
    destruct (_ >? _); injection Hs' as <-; simpl; [lia|].
    unfold size_t_wrap, size_t_modulus in *. rewrite Z.mod_small; lia.
  - right. simpl. repeat split; try lia. symmetry; exact HE0.
  - unfold loop_bound. unfold size_t_modulus in Hn. simpl. lia.
  - unfold Fcmm.iterator_seek. rewrite Hr. exact HQ.
Qed.

Lemma end_eq (m : FcmmT) : end_ m = mkIterator 0 0 true.
Proof.
  unfold Fcmm.end_, Fcmm.iterator_seek.
  rewrite (loop_first_inr _ _ _ (mkIterator 0 0 true)); reflexivity.
Qed.

Lemma iterator_next_spec (m : FcmmT) it x E :
  iter_ok m -> iter_rest m it (x :: E) -> iter_rest m (iterator_next m it) E.
Proof.
  intros Hok [[_ H]|(He & Hs & Hb & _ & HE)]; [discriminate|].
  injection HE as _ ->. unfold Fcmm.iterator_next. rewrite He.
  pose proof (getCapacity_bound m _ Hok Hs) as Hc.
  unfold size_t_wrap at 1. rewrite Z.mod_small by (unfold size_t_modulus in *; lia).
  apply iterator_seek_spec; [exact Hok|exact Hs|lia].
Qed.

Lemma iterate_from_spec (m : FcmmT) fuel : forall it E,
  iter_ok m -> iter_rest m it E -> (length E < fuel)%nat -> iterate_from m it fuel = E.
Proof.
  induction fuel as [|fuel IH]; intros it E Hok HR Hl; [lia|].
  simpl. rewrite end_eq. unfold iterator_eqb. simpl.
  destruct HR as [[He ->]|(He & Hs & Hb & Hv & HE)]; rewrite He; [reflexivity|].
  simpl. subst E. f_equal. apply IH; [exact Hok| |simpl in Hl; lia].
  apply (iterator_next_spec m it (deref m it)); [exact Hok|].
  right. split; [exact He|split; [exact Hs|split; [exact Hb|split; [exact Hv|reflexivity]]]].
Qed.

Lemma begin_spec (m : FcmmT) : iter_ok m -> iter_rest m (begin m) (entries m).
Proof.
  intros Hok. pose proof Hok as (Hne & _).
  replace (entries m) with (entries_from m 0 0).
  - apply iterator_seek_spec; [exact Hok| |lia].
    unfold getNumSubmaps. destruct (submaps m); [contradiction|simpl length; lia].
  - unfold entries_from, entries, valid_from, Fcmm.getSubmap. simpl.
    destruct (submaps m); [contradiction|reflexivity].
Qed.

(** Iterating with [const_iterator] from [begin()] while the iterator
    differs from [end()] yields exactly the entries of the VALID buckets,
    submap by submap and bucket by bucket ([entries]); in particular
    [begin() == end()] exactly when no bucket is VALID. *)
Theorem iterate_entries (m : FcmmT) fuel :
  iter_ok m -> (length (entries m) < fuel)%nat ->
  iterate m fuel = entries m /\
  (iterator_eqb (begin m) (end_ m) = true <-> entries m = []).
Proof.
  intros Hok Hl. split; [exact (iterate_from_spec m fuel _ _ Hok (begin_spec m Hok) Hl)|].
  rewrite end_eq. unfold iterator_eqb. simpl.
  destruct (begin_spec m Hok) as [[He HE]|(He & _ & _ & _ & HE)]; rewrite He, HE; simpl;
    split; congruence.
Qed.

End IterOps.

Section MapOps.

Context {Key Value : Type}.
Variable key_eq_dec : forall x y : Key, {x = y} + {x <> y}.
Variable default_key : Key.
Variable default_value : Value.
Variable loadFactorReached : Z -> Z -> bool.
Variable keyHash1 keyHash2 : Key -> Z.

Local Abbreviation FcmmT := (@FcmmT Key Value).
Local Abbreviation Submap := (@Submap Key Value).
Local Abbreviation getSubmap := (Fcmm.getSubmap default_key default_value).
Local Abbreviation getBucket := (Fcmm.getBucket default_key default_value).
Local Abbreviation expand := (Fcmm.expand default_key default_value loadFactorReached).
Local Abbreviation Submap_find := (Fcmm.Submap_find key_eq_dec default_key default_value).
Local Abbreviation Submap_insert := (Fcmm.Submap_insert key_eq_dec default_key default_value).
Local Abbreviation findHelper_scan := (Fcmm.findHelper_scan key_eq_dec default_key default_value).
Local Abbreviation find := (Fcmm.find key_eq_dec default_key default_value keyHash1 keyHash2).
Local Abbreviation at_ := (Fcmm.at_ key_eq_dec default_key default_value keyHash1 keyHash2).
Local Abbreviation insert_body := (Fcmm.insert_body key_eq_dec default_key default_value loadFactorReached).
Local Abbreviation insert :=
  (Fcmm.insert key_eq_dec default_key default_value loadFactorReached keyHash1 keyHash2).
Local Abbreviation emplace :=
  (Fcmm.emplace key_eq_dec default_key default_value loadFactorReached keyHash1 keyHash2).
Local Abbreviation Submap_new := (Fcmm.Submap_new default_key default_value).
Local Abbreviation entryAt := (Fcmm.entryAt default_key default_value).

(** Every submap of the map has a positive capacity, and there is one. *)
Definition capacities_ok (m : FcmmT) : Prop :=
  submaps m <> [] /\ Forall (fun sm => 0 < getCapacity sm) (submaps m).

Lemma getCapacity_Submap_new c : 0 <= c -> getCapacity (Submap_new c) = c.
Proof. intros Hc. unfold getCapacity, Fcmm.Submap_new. simpl. rewrite repeat_length. lia. Qed.

Lemma newSubmapCapacity_pos c : 1 <= newSubmapCapacity c.
Proof.
  unfold newSubmapCapacity.
  assert (Hs : is_size_t (size_t_wrap (c * FCMM_NEW_SUBMAPS_CAPACITY_MULTIPLIER))).
  { unfold is_size_t, size_t_wrap, size_t_modulus. apply Z.mod_pos_bound. lia. }
  destruct (PrimeFacts.fcmmNextPrime_prime_or_one _ Hs) as [E|P];
    [rewrite E; lia|pose proof (Z.prime_ge_2 _ P); lia].
Qed.

(** What a returning [expand] does to the submaps: nothing, or one new
    empty submap of positive capacity appended; the entry count is kept. *)
Lemma expand_returns (m : FcmmT) :
  match expand m with
  | Returns m' _ =>
      numEntries m' = numEntries m /\ maxNumSubmaps m' = maxNumSubmaps m /\
      (submaps m' = submaps m \/
       exists c, 1 <= c /\ submaps m' = submaps m ++ [Submap_new c])
  | _ => True
  end.
Proof.
  unfold Fcmm.expand.
  destruct (expanding m); [exact I|].
  destruct (_ =? _); [exact I|].
  destruct (isOverloaded _ _); [|split; [reflexivity|split; [reflexivity|left; reflexivity]]].
  destruct (_ >? VECTOR_MAX_SIZE); [exact I|].
  split; [reflexivity|]. split; [reflexivity|]. right.
  eexists. split; [apply newSubmapCapacity_pos|reflexivity].
Qed.

Lemma expand_capacities_ok (m : FcmmT) :
  capacities_ok m ->
  match expand m with Returns m' _ => capacities_ok m' | _ => True end.
Proof.
  intros [Hn Hf]. pose proof (expand_returns m) as H.
  destruct (expand m) as [m' b| |]; try exact I.
  unfold capacities_ok. destruct H as (_ & _ & [E|(c & Hc & E)]); rewrite E.
  - split; assumption.
  - split; [destruct (submaps m); discriminate|].
    apply Forall_app. split; [exact Hf|]. constructor; [|constructor].
    rewrite getCapacity_Submap_new by lia. lia.
Qed.

Lemma findHelper_scan_more (m : FcmmT) key hash1 hash2 n n' p :
  findHelper_scan m key hash1 hash2 n = Some p -> (n <= n')%nat ->
  exists p', findHelper_scan m key hash1 hash2 n' = Some p'.
Proof.
  intros H. induction n' as [|n' IH]; intros Hle.
  - assert (n = 0%nat) by lia. subst n. discriminate.
  - destruct (Nat.eq_dec n (S n')) as [->|Hne]; [exists p; exact H|].
    simpl. destruct (Submap_find _ key hash1 hash2) as [index [|]];
      [eexists; reflexivity|apply IH; lia].
Qed.

Lemma getSubmap_In (m : FcmmT) s :
  0 <= s < getNumSubmaps m -> In (getSubmap m s) (submaps m).
Proof. intros Hs. unfold Fcmm.getSubmap, getNumSubmaps in *. apply nth_In. lia. Qed.

Lemma entry_found (m : FcmmT) key s idx :
  Submap_find (getSubmap m s) key (keyHash1 key) (keyHash2 key) = (idx, true) ->
  fst (entryAt m (s, idx)) = key.
Proof.
  intros H. destruct (FcmmFacts.Submap_find_sound key_eq_dec default_key default_value
                        _ _ _ _ _ H) as (_ & Hk & _).
  exact Hk.
Qed.

Lemma find_some_key (m : FcmmT) key pos :
  find m key = Some pos -> fst (entryAt m pos) = key.
Proof.
  unfold Fcmm.find, Fcmm.findHelper. intros H.
  pose proof (FcmmFacts.findHelper_scan_spec key_eq_dec default_key default_value
                m key (keyHash1 key) (keyHash2 key) (Z.to_nat (getNumSubmaps m - 1 + 1))) as S.
  rewrite H in S. destruct pos as [s idx]. destruct S as (_ & Hf & _).
  exact (entry_found m key s idx Hf).
Qed.

(** [find] looks at the last submap first. *)
Lemma find_last (m : FcmmT) key idx :
  submaps m <> [] ->
  Submap_find (getSubmap m (getNumSubmaps m - 1)) key (keyHash1 key) (keyHash2 key) = (idx, true) ->
  find m key = Some (getNumSubmaps m - 1, idx).
Proof.
  intros Hn Hf. unfold Fcmm.find, Fcmm.findHelper.
  assert (Hl : Z.to_nat (getNumSubmaps m - 1 + 1) = S (Z.to_nat (getNumSubmaps m - 1))).
  { unfold getNumSubmaps. destruct (submaps m); [contradiction|]. simpl length. lia. }
  rewrite Hl. simpl. rewrite Z2Nat.id
    by (unfold getNumSubmaps; destruct (submaps m); [contradiction|simpl length; lia]).
  rewrite Hf. reflexivity.
Qed.

(** What [insert] guarantees when it returns the position [pos] of the
    entry and the flag [inserted]. *)
Definition insert_post (m' : FcmmT) key (computeValue : Key -> Value) (pos : Z * Z)
    (inserted : bool) : Prop :=
  fst (entryAt m' pos) = key /\ (exists pos', find m' key = Some pos') /\
  (inserted = true -> find m' key = Some pos /\ snd (entryAt m' pos) = computeValue key).

Lemma getNumSubmaps_setSubmap (m : FcmmT) s sm :
  getNumSubmaps (incrementNumEntries (setSubmap m s sm)) = getNumSubmaps m.
Proof. unfold getNumSubmaps. simpl. rewrite FcmmFacts.length_list_set. reflexivity. Qed.

Lemma getSubmap_setSubmap_eq (m : FcmmT) s sm :
  0 <= s < getNumSubmaps m -> getSubmap (incrementNumEntries (setSubmap m s sm)) s = sm.
Proof.
  intros Hs. unfold Fcmm.getSubmap, getNumSubmaps in *. simpl.
  apply FcmmFacts.nth_list_set_eq. lia.
Qed.

Lemma restart_post (m : FcmmT) key computeValue :
  capacities_ok m ->
  match restartAfterExpand (A := (Z * Z) * bool) (expand m) with
  | inl m' => capacities_ok m'
  | inr (Returns m' (pos, b)) => insert_post m' key computeValue pos b
  | inr _ => True
  end.
Proof.
  intros H. pose proof (expand_capacities_ok m H) as E.
  destruct (expand m) as [m' b|m' e|m']; simpl; [exact E|exact I|exact I].
Qed.

Lemma insert_body_post (m : FcmmT) key computeValue :
  capacities_ok m ->
  match insert_body key (keyHash1 key) (keyHash2 key) computeValue m with
  | inl m' => capacities_ok m'
  | inr (Returns m' (pos, b)) => insert_post m' key computeValue pos b
  | inr _ => True
  end.
Proof.
  intros Hok. pose proof Hok as [Hn Hf].
  assert (Hlast : 0 <= getNumSubmaps m - 1 < getNumSubmaps m).
  { unfold getNumSubmaps. destruct (submaps m); [contradiction|simpl length; lia]. }
  unfold Fcmm.insert_body.
  destruct (if getNumSubmaps m - 1 >? 0
            then findHelper key_eq_dec default_key default_value m key (keyHash1 key) (keyHash2 key)
                   (getNumSubmaps m - 1 - 1)
            else None) as [pos|] eqn:F.
  - destruct (getNumSubmaps m - 1 >? 0) eqn:G; [|discriminate].
    unfold findHelper in F.
    pose proof (FcmmFacts.findHelper_scan_spec key_eq_dec default_key default_value
                  m key (keyHash1 key) (keyHash2 key) (Z.to_nat (getNumSubmaps m - 1 - 1 + 1))) as S.
    rewrite F in S. destruct pos as [s idx]. destruct S as (_ & Hs & _).
    split; [exact (entry_found m key s idx Hs)|]. split; [|discriminate].
    unfold Fcmm.find, Fcmm.findHelper.
    apply (findHelper_scan_more m key _ _ _ _ _ F). lia.
  - destruct (isOverloaded loadFactorReached (getSubmap m (getNumSubmaps m - 1))).
    + apply restart_post. exact Hok.
    + assert (Hc : 0 < getCapacity (getSubmap m (getNumSubmaps m - 1))).
      { rewrite Forall_forall in Hf. apply Hf. apply getSubmap_In. exact Hlast. }
      pose proof (Submap_insert_find key_eq_dec default_key default_value
                    (getSubmap m (getNumSubmaps m - 1)) key (keyHash1 key) (keyHash2 key)
                    computeValue Hc) as I.
      destruct (Submap_insert _ key (keyHash1 key) (keyHash2 key) computeValue) as [sm' [i|i|]].
      * destruct I as (_ & Hb & _ & _ & _ & Hfi).
        assert (Hfind : find (incrementNumEntries (setSubmap m (getNumSubmaps m - 1) sm')) key =
                        Some (getNumSubmaps m - 1, i)).
        { rewrite <- (getNumSubmaps_setSubmap m (getNumSubmaps m - 1) sm') at 2.
          apply find_last.
          - simpl. intros E. apply (f_equal (@length _)) in E.
            rewrite FcmmFacts.length_list_set in E. destruct (submaps m); [contradiction|discriminate].
          - rewrite getNumSubmaps_setSubmap, getSubmap_setSubmap_eq by exact Hlast. exact Hfi. }
        assert (He : entryAt (incrementNumEntries (setSubmap m (getNumSubmaps m - 1) sm'))
                       (getNumSubmaps m - 1, i) = (key, computeValue key)).
        { unfold Fcmm.entryAt. simpl fst. simpl snd.
          rewrite getSubmap_setSubmap_eq by exact Hlast. rewrite Hb. reflexivity. }
        split; [rewrite He; reflexivity|]. split; [eexists; exact Hfind|].
        intros _. split; [exact Hfind|rewrite He; reflexivity].
      * destruct I as [_ Hfi].
        split; [exact (entry_found m key _ i Hfi)|]. split; [|discriminate].
        exists (getNumSubmaps m - 1, i). apply find_last; [exact Hn|exact Hfi].
      * apply restart_post. exact Hok.
Qed.

Lemma insert_post_loop (m : FcmmT) key computeValue :
  capacities_ok m ->
  match insert m key computeValue with
  | Returns m' (pos, b) => insert_post m' key computeValue pos b
  | _ => True
  end.
Proof.
  intros Hok. unfold Fcmm.insert, Fcmm.insertHelper.
  pose proof (loop_inv (insert_body key (keyHash1 key) (keyHash2 key) computeValue)
    capacities_ok
    (fun o => match o with
              | Returns m' (pos, b) => insert_post m' key computeValue pos b
              | _ => True
              end)) as L.
  assert (Hb : forall m1, capacities_ok m1 ->
    match insert_body key (keyHash1 key) (keyHash2 key) computeValue m1 with
    | inl m2 => capacities_ok m2
    | inr o => match o with
               | Returns m' (pos, b) => insert_post m' key computeValue pos b
               | _ => True
               end
    end).
  { intros m1 H1. pose proof (insert_body_post m1 key computeValue H1) as P.
    destruct (insert_body _ _ _ _ m1) as [m2|[m' [pos b]|m' e|m']]; exact P. }
  specialize (L Hb loop_bound m Hok).
  destruct (loop _ loop_bound m) as [m'|o]; [exact I|exact L].
Qed.

(** [insert] followed by [find] / [at] of the same key (single-threaded,
    on a map whose submaps have positive capacities): when [insert]
    returns [(pos, inserted)], the entry at [pos] has the key and [at(key)]
    no longer throws; when [inserted] is true, [find(key)] returns [pos]
    and [at(key)] returns [computeValue(key)].  The same holds for
    [emplace(key, value)] with the value [value]. *)
Theorem insert_then_find (m : FcmmT) key computeValue value :
  capacities_ok m ->
  (match insert m key computeValue with
   | Returns m' (pos, inserted) =>
       fst (entryAt m' pos) = key /\ (exists v, at_ m' key = inr v) /\
       (inserted = true -> find m' key = Some pos /\ at_ m' key = inr (computeValue key))
   | _ => True
   end) /\
  (match emplace m key value with
   | Returns m' (pos, inserted) =>
       fst (entryAt m' pos) = key /\ (exists v, at_ m' key = inr v) /\
       (inserted = true -> find m' key = Some pos /\ at_ m' key = inr value)
   | _ => True
   end).
Proof.
  intros Hok.
  assert (G : forall cv, match insert m key cv with
   | Returns m' (pos, inserted) =>
       fst (entryAt m' pos) = key /\ (exists v, at_ m' key = inr v) /\
       (inserted = true -> find m' key = Some pos /\ at_ m' key = inr (cv key))
   | _ => True
   end).
  { intros cv. pose proof (insert_post_loop m key cv Hok) as P.
    destruct (insert m key cv) as [m' [pos b]|m' e|m']; [|exact I|exact I].
    destruct P as (Hk & [pos' Hf] & Hb). split; [exact Hk|].
    unfold Fcmm.at_. split; [rewrite Hf; eexists; reflexivity|].
    intros Hbt. destruct (Hb Hbt) as [Hf' Hv]. rewrite Hf'. split; [reflexivity|].
    rewrite Hv. reflexivity. }
  split; [apply G|]. unfold Fcmm.emplace. apply (G (fun _ => value)).
Qed.

(** The submaps [find] may find a key in. *)
Definition found_in (m : FcmmT) key : Prop :=
  exists s idx, 0 <= s < getNumSubmaps m /\
    Submap_find (getSubmap m s) key (keyHash1 key) (keyHash2 key) = (idx, true).

Lemma findHelper_scan_found (m : FcmmT) key n s idx :
  0 <= s < Z.of_nat n ->
  Submap_find (getSubmap m s) key (keyHash1 key) (keyHash2 key) = (idx, true) ->
  exists p, findHelper_scan m key (keyHash1 key) (keyHash2 key) n = Some p.
Proof.
  intros Hs Hf. induction n as [|n IH]; [simpl in Hs; lia|].
  simpl. destruct (Submap_find (getSubmap m (Z.of_nat n)) key _ _) as [index [|]] eqn:E;
    [eexists; reflexivity|].
  apply IH. destruct (Z.eq_dec s (Z.of_nat n)) as [->|Hne]; [congruence|lia].
Qed.

Lemma find_found_in (m : FcmmT) key : find m key <> None <-> found_in m key.
Proof.
  unfold Fcmm.find, Fcmm.findHelper. split.
  - intros H.
    pose proof (FcmmFacts.findHelper_scan_spec key_eq_dec default_key default_value
                  m key (keyHash1 key) (keyHash2 key) (Z.to_nat (getNumSubmaps m - 1 + 1))) as S.
    destruct (findHelper_scan m key _ _ _) as [[s idx]|]; [|contradiction].
    destruct S as (Hs & Hf & _). exists s, idx. split; [|exact Hf].
    unfold getNumSubmaps in *. lia.
  - intros (s & idx & Hs & Hf).
    destruct (findHelper_scan_found m key (Z.to_nat (getNumSubmaps m - 1 + 1)) s idx) as [p Hp];
      [lia|exact Hf|].
    rewrite Hp. discriminate.
Qed.

Lemma expand_outcome_submaps (m : FcmmT) :
  submaps (outcome_map (expand m)) = submaps m \/
  exists c, 1 <= c /\ submaps (outcome_map (expand m)) = submaps m ++ [Submap_new c].
Proof.
  unfold Fcmm.expand.
  destruct (expanding m); [left; reflexivity|].
  destruct (_ =? _); [left; reflexivity|].
  destruct (isOverloaded _ _); [|left; reflexivity].
  destruct (_ >? VECTOR_MAX_SIZE); [left; reflexivity|].
  right. eexists. split; [apply newSubmapCapacity_pos|reflexivity].
Qed.

(** The invariant of the loop of [insertHelper] for a key [key] found
    before the insertion. *)
Definition keeps_found (key : Key) (m : FcmmT) : Prop := capacities_ok m /\ found_in m key.

Lemma expand_keeps_found key (m : FcmmT) :
  keeps_found key m -> keeps_found key (outcome_map (expand m)).
Proof.
  intros [[Hn Hf] (s & idx & Hs & Hfi)].
  destruct (expand_outcome_submaps m) as [E|(c & Hc & E)].
  - split; [unfold capacities_ok; rewrite E; split; assumption|].
    exists s, idx. unfold getNumSubmaps, Fcmm.getSubmap in *. rewrite E. split; assumption.
  - split.
    + unfold capacities_ok. rewrite E. split; [destruct (submaps m); discriminate|].
      apply Forall_app. split; [exact Hf|]. constructor; [|constructor].
      rewrite getCapacity_Submap_new by lia. lia.
    + exists s, idx. unfold getNumSubmaps, Fcmm.getSubmap in *. rewrite E.
      rewrite length_app. split; [simpl; lia|]. rewrite app_nth1 by lia. exact Hfi.
Qed.

Lemma insert_body_keeps_found key k2 computeValue (m : FcmmT) :
  keeps_found key m ->
  match insert_body k2 (keyHash1 k2) (keyHash2 k2) computeValue m with
  | inl m' => keeps_found key m'
  | inr o => keeps_found key (outcome_map o)
  end.
Proof.
  intros Hk. pose proof Hk as [[Hn Hf] (s & idx & Hs & Hfi)].
  assert (Hlast : 0 <= getNumSubmaps m - 1 < getNumSubmaps m).
  { unfold getNumSubmaps. destruct (submaps m); [contradiction|simpl length; lia]. }
  assert (Hr : forall o : Outcome bool,
             keeps_found key (outcome_map o) ->
             match restartAfterExpand (A := (Z * Z) * bool) o with
             | inl m' => keeps_found key m'
             | inr o' => keeps_found key (outcome_map o')
             end).
  { intros o Ho. destruct o; exact Ho. }
  unfold Fcmm.insert_body.
  destruct (if getNumSubmaps m - 1 >? 0 then _ else None) as [pos|]; [exact Hk|].
  destruct (isOverloaded loadFactorReached (getSubmap m (getNumSubmaps m - 1))).
  - apply Hr. apply expand_keeps_found. exact Hk.
  - assert (Hc : 0 < getCapacity (getSubmap m (getNumSubmaps m - 1))).
    { rewrite Forall_forall in Hf. apply Hf. apply getSubmap_In. exact Hlast. }
    destruct (Submap_insert (getSubmap m (getNumSubmaps m - 1)) k2 (keyHash1 k2) (keyHash2 k2)
                computeValue) as [sm' [i|i|]] eqn:Ei.
    + pose proof (Submap_insert_find key_eq_dec default_key default_value _ k2 (keyHash1 k2)
                    (keyHash2 k2) computeValue Hc) as I.
      rewrite Ei in I. destruct I as (_ & _ & _ & Hcap & _).
      simpl outcome_map. split.
      * unfold capacities_ok. simpl. split.
        -- intros E. apply (f_equal (@length _)) in E. rewrite FcmmFacts.length_list_set in E.
           destruct (submaps m); [contradiction|discriminate].
        -- rewrite Forall_forall in Hf |- *. intros sm Hin.
           apply In_nth with (d := Submap_new 0) in Hin. destruct Hin as (n & Hnl & <-).
           rewrite FcmmFacts.length_list_set in Hnl.
           destruct (Nat.eq_dec (Z.to_nat (getNumSubmaps m - 1)) n) as [<-|Hne].
           ++ rewrite FcmmFacts.nth_list_set_eq by exact Hnl. rewrite Hcap. exact Hc.
           ++ rewrite FcmmFacts.nth_list_set_neq by exact Hne. apply Hf. apply nth_In. exact Hnl.
      * exists s, idx. rewrite getNumSubmaps_setSubmap. split; [exact Hs|].
        destruct (Z.eq_dec s (getNumSubmaps m - 1)) as [->|Hne].
        -- rewrite getSubmap_setSubmap_eq by exact Hlast.
           exact (Submap_insert_keeps_find key_eq_dec default_key default_value _ key k2 _ _ _ _ computeValue sm' i idx Hc Ei Hfi).
        -- unfold Fcmm.getSubmap in *. simpl.
           rewrite FcmmFacts.nth_list_set_neq by lia. exact Hfi.
    + exact Hk.
    + apply Hr. apply expand_keeps_found. exact Hk.
Qed.

Lemma insert_keeps_found key k2 computeValue (m : FcmmT) :
  keeps_found key m -> keeps_found key (outcome_map (insert m k2 computeValue)).
Proof.
  intros Hk. unfold Fcmm.insert, Fcmm.insertHelper.
  pose proof (loop_inv (insert_body k2 (keyHash1 k2) (keyHash2 k2) computeValue)
    (keeps_found key) (fun o => keeps_found key (outcome_map o))
    (fun m1 H1 => insert_body_keeps_found key k2 computeValue m1 H1) loop_bound m Hk) as L.
  destruct (loop _ loop_bound m) as [m'|o]; exact L.
Qed.

(** Once [find(key)] succeeds (so [at(key)] returns a value), it keeps
    succeeding through any sequence of [find], [at], [insert], [emplace]
    and iteration operations, whatever their outcome (on a map whose
    submaps have positive capacities). *)
Theorem find_stays_successful (m : FcmmT) key ops :
  capacities_ok m -> find m key <> None ->
  find (run_ops key_eq_dec default_key default_value loadFactorReached keyHash1 keyHash2 m ops) key
    <> None /\
  exists v, at_ (run_ops key_eq_dec default_key default_value loadFactorReached keyHash1 keyHash2 m ops)
              key = inr v.
Proof.
  intros Hok Hf.
  assert (K : keeps_found key (run_ops key_eq_dec default_key default_value loadFactorReached
                                 keyHash1 keyHash2 m ops)).
  { unfold Fcmm.run_ops. assert (H0 : keeps_found key m)
      by (split; [exact Hok|apply find_found_in; exact Hf]).
    revert m Hok Hf H0. induction ops as [|op ops IH]; intros m Hok Hf H0; [exact H0|].
    simpl. destruct op as [k|k|k cv|k v|]; simpl; try (apply IH; assumption).
    - pose proof (insert_keeps_found key k cv m H0) as H1.
      apply IH; [exact (proj1 H1)|apply find_found_in; exact (proj2 H1)|exact H1].
    - pose proof (insert_keeps_found key k (fun _ => v) m H0) as H1.
      apply IH; [exact (proj1 H1)|apply find_found_in; exact (proj2 H1)|exact H1]. }
  pose proof (proj2 (find_found_in _ key) (proj2 K)) as F. split; [exact F|].
  clear Hf. revert F. unfold Fcmm.at_. destruct (Fcmm.find _ _ _ _ _ _ key); intros F;
    [eexists; reflexivity|contradiction].
Qed.

Lemma submapEntries_new c : submapEntries (Submap_new c) = [].
Proof.
  unfold submapEntries, Fcmm.Submap_new. simpl. generalize (Z.to_nat c).
  induction n as [|n IH]; [reflexivity|exact IH].
Qed.

Lemma expand_entries (m : FcmmT) :
  entries (outcome_map (expand m)) = entries m /\
  numEntries (outcome_map (expand m)) = numEntries m.
Proof.
  split.
  - destruct (expand_outcome_submaps m) as [E|(c & _ & E)]; unfold entries; rewrite E;
      [reflexivity|].
    rewrite flat_map_app. simpl. rewrite submapEntries_new, !app_nil_r. reflexivity.
  - unfold Fcmm.expand.
    destruct (expanding m); [reflexivity|].
    destruct (_ =? _); [reflexivity|].
    destruct (isOverloaded _ _); [|reflexivity].
    destruct (_ >? VECTOR_MAX_SIZE); reflexivity.
Qed.

Lemma loop_ext {S R : Type} (b1 b2 : S -> S + R) (Inv : S -> Prop) :
  (forall s, Inv s -> match b1 s with inl s' => Inv s' | inr _ => True end) ->
  (forall s, Inv s -> b1 s = b2 s) ->
  forall p s, Inv s -> loop b1 p s = loop b2 p s.
Proof.
  intros Hi He. induction p as [p IH|p IH|]; intros s Hs; simpl.
  - rewrite <- (He s Hs). pose proof (Hi s Hs) as H0.
    destruct (b1 s) as [s0|r]; [|reflexivity]. rewrite <- (IH s0 H0).
    pose proof (loop_inv b1 Inv (fun _ => True) Hi p s0 H0) as L.
    destruct (loop b1 p s0); [apply IH; exact L|reflexivity].
  - rewrite <- (IH s Hs).
    pose proof (loop_inv b1 Inv (fun _ => True) Hi p s Hs) as L.
    destruct (loop b1 p s); [apply IH; exact L|reflexivity].
  - apply He; exact Hs.
Qed.

(** The invariant of the loop of [insertHelper] inserting a key found
    before the insertion. *)
Definition present_inv (m0 : FcmmT) (key : Key) (m : FcmmT) : Prop :=
  keeps_found key m /\ entries m = entries m0 /\ numEntries m = numEntries m0.

Definition present_post (m0 : FcmmT) (key : Key) (o : Outcome ((Z * Z) * bool)) : Prop :=
  entries (outcome_map o) = entries m0 /\ numEntries (outcome_map o) = numEntries m0 /\
  match o with
  | Returns m' (pos, inserted) => inserted = false /\ fst (entryAt m' pos) = key
  | _ => True
  end.

Lemma present_last (m : FcmmT) key :
  keeps_found key m ->
  (if getNumSubmaps m - 1 >? 0
   then Fcmm.findHelper key_eq_dec default_key default_value m key (keyHash1 key) (keyHash2 key)
          (getNumSubmaps m - 1 - 1) else None) = None ->
  exists idx, Submap_find (getSubmap m (getNumSubmaps m - 1)) key (keyHash1 key) (keyHash2 key)
              = (idx, true).
Proof.
  intros [_ (s & idx & Hs & Hf)] Hn. exists idx.
  destruct (Z.eq_dec s (getNumSubmaps m - 1)) as [<-|Hne]; [exact Hf|].
  destruct (getNumSubmaps m - 1 >? 0) eqn:Eg; [|lia].
  unfold Fcmm.findHelper in Hn.
  destruct (findHelper_scan_found m key (Z.to_nat (getNumSubmaps m - 1 - 1 + 1)) s idx)
    as [p Hp]; [lia|exact Hf|]. congruence.
Qed.

Lemma insert_body_present (m0 : FcmmT) key computeValue computeValue' (m : FcmmT) :
  present_inv m0 key m ->
  insert_body key (keyHash1 key) (keyHash2 key) computeValue m =
  insert_body key (keyHash1 key) (keyHash2 key) computeValue' m /\
  match insert_body key (keyHash1 key) (keyHash2 key) computeValue m with
  | inl m' => present_inv m0 key m'
  | inr o => present_post m0 key o
  end.
Proof.
  intros Hp. pose proof Hp as (Hk & He & Hne).
  assert (Hx : forall o : Outcome bool, o = expand m ->
             match restartAfterExpand (A := (Z * Z) * bool) o with
             | inl m' => present_inv m0 key m'
             | inr o' => present_post m0 key o'
             end).
  { intros o ->. pose proof (expand_keeps_found key m Hk) as K.
    destruct (expand_entries m) as [E1 E2].
    destruct (expand m); simpl in *.
    - split; [exact K|split; congruence].
    - unfold present_post; simpl. split; [congruence|split; [congruence|exact I]].
    - unfold present_post; simpl. split; [congruence|split; [congruence|exact I]]. }
  unfold Fcmm.insert_body.
  destruct (if getNumSubmaps m - 1 >? 0 then _ else None) as [pos|] eqn:Ef.
  - split; [reflexivity|]. repeat split; try assumption.
    destruct (getNumSubmaps m - 1 >? 0); [|discriminate].
    unfold Fcmm.findHelper in Ef.
    pose proof (FcmmFacts.findHelper_scan_spec key_eq_dec default_key default_value
                  m key (keyHash1 key) (keyHash2 key) (Z.to_nat (getNumSubmaps m - 1 - 1 + 1))) as S.
    rewrite Ef in S. destruct pos as [s idx]. destruct S as (_ & Hf & _).
    apply entry_found; exact Hf.
  - destruct (present_last m key Hk Ef) as [idx Hf].
    destruct (isOverloaded loadFactorReached (getSubmap m (getNumSubmaps m - 1))).
    + split; [reflexivity|]. apply Hx; reflexivity.
    + rewrite !(Submap_insert_present key_eq_dec default_key default_value _ _ _ _ _ _ Hf).
      split; [reflexivity|]. repeat split; try assumption. apply entry_found; exact Hf.
Qed.

(** Inserting or emplacing a key that [find] already finds (on a map
    whose submaps have positive capacities) never inserts: when it
    returns, [inserted] is false and the iterator points to an entry with
    that key; whatever the outcome, the entries and [numEntries] of the
    map are unchanged, and [computeValue] is never used: the outcome is
    the same for every [computeValue]. *)
Theorem insert_present_key (m : FcmmT) key computeValue computeValue' :
  capacities_ok m -> find m key <> None ->
  insert m key computeValue = insert m key computeValue' /\
  entries (outcome_map (insert m key computeValue)) = entries m /\
  numEntries (outcome_map (insert m key computeValue)) = numEntries m /\
  match insert m key computeValue with
  | Returns m' (pos, inserted) => inserted = false /\ fst (entryAt m' pos) = key
  | _ => True
  end.
Proof.
  intros Hok Hf.
  assert (H0 : present_inv m key m).
  { split; [split; [exact Hok|apply find_found_in; exact Hf]|split; reflexivity]. }
  unfold Fcmm.insert, Fcmm.insertHelper.
  rewrite (loop_ext (insert_body key (keyHash1 key) (keyHash2 key) computeValue)
             (insert_body key (keyHash1 key) (keyHash2 key) computeValue') (present_inv m key))
    with (p := loop_bound) (s := m); [split; [reflexivity|]| | |exact H0].
  - pose proof (loop_inv (insert_body key (keyHash1 key) (keyHash2 key) computeValue')
      (present_inv m key) (present_post m key)
      (fun m1 H1 => proj2 (insert_body_present m key computeValue' computeValue' m1 H1))
      loop_bound m H0) as L.
    destruct (loop _ loop_bound m) as [m'|o]; [|exact L].
    destruct L as (_ & E1 & E2). simpl. repeat split; assumption.
  - intros m1 H1. pose proof (proj2 (insert_body_present m key computeValue computeValue m1 H1)) as P.
    destruct (insert_body _ _ _ _ m1); [exact P|exact I].
  - intros m1 H1. exact (proj1 (insert_body_present m key computeValue computeValue' m1 H1)).
Qed.

Lemma flat_map_list_set_length {A B : Type} (g : A -> list B) (l : list A) n x d :
  (n < length l)%nat ->
  (length (flat_map g (list_set l n x)) + length (g (nth n l d)) =
   length (flat_map g l) + length (g x))%nat.
Proof.
  revert n. induction l as [|y l IH]; intros n Hn; simpl in *; [lia|].
  destruct n as [|n]; simpl; rewrite !length_app; [lia|].
  specialize (IH n ltac:(lia)). lia.
Qed.

Lemma Forall_list_set {A : Type} (P : A -> Prop) (l : list A) n x :
  Forall P l -> P x -> Forall P (list_set l n x).
Proof.
  revert n. induction l as [|y l IH]; intros n Hl Hx; [constructor|].
  inversion Hl; subst. destruct n as [|n]; simpl; constructor; auto.
Qed.

Lemma capacities_ok_setSubmap (m : FcmmT) s sm :
  capacities_ok m -> 0 < getCapacity sm -> capacities_ok (setSubmap m s sm).
Proof.
  intros [Hn Hf] Hc. split; simpl.
  - intros E. apply (f_equal (@length _)) in E. rewrite FcmmFacts.length_list_set in E.
    destruct (submaps m); [contradiction|discriminate].
  - apply Forall_list_set; assumption.
Qed.

(** The size invariant: [numEntries] is the number of VALID buckets, and
    each submap's [numValidBuckets] the number of its VALID buckets. *)
Definition size_inv (m : FcmmT) : Prop :=
  capacities_ok m /\ numEntries m = Z.of_nat (length (entries m)) /\
  Forall (fun sm => numValidBuckets sm = Z.of_nat (length (submapEntries sm))) (submaps m).

Lemma expand_size_inv (m : FcmmT) : size_inv m -> size_inv (outcome_map (expand m)).
Proof.
  intros (Hok & Hn & Hv). destruct (expand_entries m) as [E1 E2].
  split; [|split; [rewrite E1, E2; exact Hn|]].
  - destruct Hok as [Hne Hf].
    destruct (expand_outcome_submaps m) as [E|(c & Hc & E)]; unfold capacities_ok; rewrite E;
      [split; assumption|].
    split; [destruct (submaps m); discriminate|].
    apply Forall_app. split; [exact Hf|]. constructor; [|constructor].
    rewrite getCapacity_Submap_new by lia. lia.
  - destruct (expand_outcome_submaps m) as [E|(c & Hc & E)]; rewrite E; [exact Hv|].
    apply Forall_app. split; [exact Hv|]. constructor; [|constructor].
    rewrite submapEntries_new. reflexivity.
Qed.

Lemma insert_body_size_inv key hash1 hash2 computeValue (m : FcmmT) :
  size_inv m ->
  match insert_body key hash1 hash2 computeValue m with
  | inl m' => size_inv m'
  | inr o => size_inv (outcome_map o)
  end.
Proof.
  intros Hs. pose proof Hs as ((Hn & Hf) & Hne & Hv).
  assert (Hlast : 0 <= getNumSubmaps m - 1 < getNumSubmaps m).
  { unfold getNumSubmaps. destruct (submaps m); [contradiction|simpl length; lia]. }
  assert (Hr : forall o : Outcome bool,
             size_inv (outcome_map o) ->
             match restartAfterExpand (A := (Z * Z) * bool) o with
             | inl m' => size_inv m'
             | inr o' => size_inv (outcome_map o')
             end).
  { intros o Ho. destruct o; exact Ho. }
  unfold Fcmm.insert_body.
  destruct (if getNumSubmaps m - 1 >? 0 then _ else None) as [pos|]; [exact Hs|].
  destruct (isOverloaded loadFactorReached (getSubmap m (getNumSubmaps m - 1))).
  - apply Hr. apply expand_size_inv. exact Hs.
  - assert (Hc : 0 < getCapacity (getSubmap m (getNumSubmaps m - 1))).
    { rewrite Forall_forall in Hf. apply Hf. apply getSubmap_In. exact Hlast. }
    destruct (Submap_insert (getSubmap m (getNumSubmaps m - 1)) key hash1 hash2 computeValue)
      as [sm' [i|i|]] eqn:Ei.
    + pose proof (Submap_insert_find key_eq_dec default_key default_value _ key hash1
                    hash2 computeValue Hc) as I.
      rewrite Ei in I. destruct I as (_ & _ & _ & Hcap & _).
      destruct (Submap_insert_count key_eq_dec default_key default_value _ key hash1 hash2
                  computeValue sm' i Hc Ei) as [Hl Hnv].
      assert (Hlt : (Z.to_nat (getNumSubmaps m - 1) < length (submaps m))%nat)
        by (unfold getNumSubmaps in *; lia).
      simpl outcome_map. split; [|split].
      * apply capacities_ok_setSubmap; [split; assumption|]. rewrite Hcap. exact Hc.
      * unfold entries. simpl.
        pose proof (flat_map_list_set_length submapEntries (submaps m)
                      (Z.to_nat (getNumSubmaps m - 1)) sm' (Submap_new 0) Hlt) as L.
        unfold Fcmm.getSubmap in Hl. unfold entries in Hne. lia.
      * simpl. apply Forall_list_set.
        -- exact Hv.
        -- rewrite Forall_forall in Hv.
           rewrite Hnv, Hl, (Hv _ (getSubmap_In m _ Hlast)). lia.
    + exact Hs.
    + apply Hr. apply expand_size_inv. exact Hs.
Qed.

Lemma insert_size_inv key computeValue (m : FcmmT) :
  size_inv m -> size_inv (outcome_map (insert m key computeValue)).
Proof.
  intros Hs. unfold Fcmm.insert, Fcmm.insertHelper.
  pose proof (loop_inv (insert_body key (keyHash1 key) (keyHash2 key) computeValue)
    size_inv (fun o => size_inv (outcome_map o))
    (fun m1 H1 => insert_body_size_inv key _ _ computeValue m1 H1) loop_bound m Hs) as L.
  destruct (loop _ loop_bound m) as [m'|o]; exact L.
Qed.

(** A map returned by the constructor, after any sequence of [find],
    [at], [insert], [emplace] and iteration operations (whatever their
    outcome): [size()] is the number of VALID buckets, i.e. of the
    entries iteration visits, each submap's [numValidBuckets] is the
    number of its VALID buckets, and [empty()] holds exactly when no
    bucket is VALID. *)
Theorem size_counts_entries estimate maxNumSubmaps (m : FcmmT) ops :
  Fcmm_new default_key default_value estimate maxNumSubmaps = inr m ->
  let m' := run_ops key_eq_dec default_key default_value loadFactorReached keyHash1 keyHash2 m ops in
  size m' = Z.of_nat (length (entries m')) /\
  Forall (fun sm => numValidBuckets sm = Z.of_nat (length (submapEntries sm))) (submaps m') /\
  (empty m' = true <-> entries m' = []).
Proof.
  intros Hnew m'.
  assert (H0 : size_inv m).
  { unfold Fcmm.Fcmm_new in Hnew.
    destruct (maxNumSubmaps <? 1); [discriminate|].
    destruct (_ >? VECTOR_MAX_SIZE); [discriminate|]. injection Hnew as <-.
    split; [split; [discriminate|]|split].
    - constructor; [|constructor]. rewrite getCapacity_Submap_new.
      + unfold firstSubmapCapacity, FCMM_FIRST_SUBMAP_MIN_CAPACITY. lia.
      + unfold firstSubmapCapacity, FCMM_FIRST_SUBMAP_MIN_CAPACITY. lia.
    - unfold entries. simpl. rewrite submapEntries_new. reflexivity.
    - constructor; [|constructor]. rewrite submapEntries_new. reflexivity. }
  assert (H : size_inv m').
  { subst m'. unfold Fcmm.run_ops. clear Hnew. revert m H0.
    induction ops as [|op ops IH]; intros m H0; [exact H0|].
    simpl. apply IH. destruct op; simpl; try exact H0; apply insert_size_inv; exact H0. }
  destruct H as (_ & Hn & Hv). unfold Fcmm.size, Fcmm.empty, getNumEntries.
  split; [exact Hn|]. split; [exact Hv|]. rewrite Hn.
  destruct (entries m'); simpl; split; (discriminate || reflexivity || lia).
Qed.

(** The bounds the constructor and [expand] keep: at most [maxNumSubmaps]
    submaps, a [std::size_t] bound, and capacities in [(0, VECTOR_MAX_SIZE]]. *)
Definition bounds_inv (m : FcmmT) : Prop :=
  capacities_ok m /\ getNumSubmaps m <= maxNumSubmaps m < size_t_modulus /\
  Forall (fun sm => getCapacity sm <= VECTOR_MAX_SIZE) (submaps m).

Lemma bounds_same (m m' : FcmmT) :
  submaps m' = submaps m -> maxNumSubmaps m' = maxNumSubmaps m -> bounds_inv m -> bounds_inv m'.
Proof.
  intros Es Em (Hok & Hn & Hf). unfold bounds_inv, capacities_ok, getNumSubmaps in *.
  rewrite Es, Em. auto.
Qed.

Lemma expand_bounds (m : FcmmT) : bounds_inv m -> bounds_inv (outcome_map (expand m)).
Proof.
  intros Hb. unfold Fcmm.expand.
  destruct (expanding m); [exact Hb|].
  destruct (getNumSubmaps (setExpanding m true) =? getMaxNumSubmaps (setExpanding m true)) eqn:Eq;
    [apply (bounds_same m); auto|].
  destruct (isOverloaded _ _); [|apply (bounds_same m); auto].
  destruct (_ >? VECTOR_MAX_SIZE) eqn:Ev; [apply (bounds_same m); auto|].
  destruct Hb as ((Hne & Hf) & Hn & Hv). simpl.
  rewrite Z.gtb_ltb, Z.ltb_ge in Ev. apply Z.eqb_neq in Eq.
  unfold getNumSubmaps, getMaxNumSubmaps in *. simpl in Eq.
  change (submaps (setExpanding m true)) with (submaps m) in *.
  split; [split|split]; simpl.
  - destruct (submaps m); discriminate.
  - apply Forall_app. split; [exact Hf|]. constructor; [|constructor].
    rewrite getCapacity_Submap_new; pose proof (newSubmapCapacity_pos
      (getCapacity (getSubmap (setExpanding m true) (Z.of_nat (length (submaps m)) - 1)))); lia.
  - unfold getNumSubmaps. simpl. rewrite length_app. simpl length. lia.
  - apply Forall_app. split; [exact Hv|]. constructor; [|constructor].
    rewrite getCapacity_Submap_new; pose proof (newSubmapCapacity_pos
      (getCapacity (getSubmap (setExpanding m true) (Z.of_nat (length (submaps m)) - 1)))); lia.
Qed.

Lemma insert_body_bounds key hash1 hash2 computeValue (m : FcmmT) :
  bounds_inv m ->
  match insert_body key hash1 hash2 computeValue m with
  | inl m' => bounds_inv m'
  | inr o => bounds_inv (outcome_map o)
  end.
Proof.
  intros Hb. pose proof Hb as ((Hn & Hf) & Hns & Hv).
  assert (Hlast : 0 <= getNumSubmaps m - 1 < getNumSubmaps m).
  { unfold getNumSubmaps. destruct (submaps m); [contradiction|simpl length; lia]. }
  assert (Hr : forall o : Outcome bool,
             bounds_inv (outcome_map o) ->
             match restartAfterExpand (A := (Z * Z) * bool) o with
             | inl m' => bounds_inv m'
             | inr o' => bounds_inv (outcome_map o')
             end).
  { intros o Ho. destruct o; exact Ho. }
  unfold Fcmm.insert_body.
  destruct (if getNumSubmaps m - 1 >? 0 then _ else None) as [pos|]; [exact Hb|].
  destruct (isOverloaded loadFactorReached (getSubmap m (getNumSubmaps m - 1))).
  - apply Hr. apply expand_bounds. exact Hb.
  - assert (Hc : 0 < getCapacity (getSubmap m (getNumSubmaps m - 1))).
    { rewrite Forall_forall in Hf. apply Hf. apply getSubmap_In. exact Hlast. }
    destruct (Submap_insert (getSubmap m (getNumSubmaps m - 1)) key hash1 hash2 computeValue)
      as [sm' [i|i|]] eqn:Ei.
    + pose proof (Submap_insert_find key_eq_dec default_key default_value _ key hash1
                    hash2 computeValue Hc) as I.
      rewrite Ei in I. destruct I as (_ & _ & _ & Hcap & _).
      simpl outcome_map. split; [|split].
      * apply capacities_ok_setSubmap; [split; assumption|]. rewrite Hcap. exact Hc.
      * unfold getNumSubmaps in *. simpl. rewrite FcmmFacts.length_list_set. exact Hns.
      * simpl. apply Forall_list_set; [exact Hv|]. rewrite Hcap.
        rewrite Forall_forall in Hv. apply Hv. apply getSubmap_In. exact Hlast.
    + exact Hb.
    + apply Hr. apply expand_bounds. exact Hb.
Qed.

Lemma insert_bounds key computeValue (m : FcmmT) :
  bounds_inv m -> bounds_inv (outcome_map (insert m key computeValue)).
Proof.
  intros Hb. unfold Fcmm.insert, Fcmm.insertHelper.
  pose proof (loop_inv (insert_body key (keyHash1 key) (keyHash2 key) computeValue)
    bounds_inv (fun o => bounds_inv (outcome_map o))
    (fun m1 H1 => insert_body_bounds key _ _ computeValue m1 H1) loop_bound m Hb) as L.
  destruct (loop _ loop_bound m) as [m'|o]; exact L.
Qed.

Lemma run_ops_preserves (P : FcmmT -> Prop) :
  (forall m key computeValue, P m -> P (outcome_map (insert m key computeValue))) ->
  forall ops m, P m ->
  P (run_ops key_eq_dec default_key default_value loadFactorReached keyHash1 keyHash2 m ops).
Proof.
  intros Hi ops. unfold Fcmm.run_ops. induction ops as [|op ops IH]; intros m H0; [exact H0|].
  simpl. apply IH. destruct op; simpl; try exact H0; apply Hi; exact H0.
Qed.

Lemma Fcmm_new_inv estimate maxNumSubmaps (m : FcmmT) :
  Fcmm_new default_key default_value estimate maxNumSubmaps = inr m ->
  is_size_t maxNumSubmaps -> size_inv m /\ bounds_inv m.
Proof.
  intros Hnew Hmax. unfold Fcmm.Fcmm_new in Hnew.
  destruct (maxNumSubmaps <? 1) eqn:E1; [discriminate|].
  destruct (_ >? VECTOR_MAX_SIZE) eqn:E2; [discriminate|]. injection Hnew as <-.
  rewrite Z.ltb_ge in E1. rewrite Z.gtb_ltb, Z.ltb_ge in E2.
  assert (Hc : 0 < firstSubmapCapacity estimate)
    by (unfold firstSubmapCapacity, FCMM_FIRST_SUBMAP_MIN_CAPACITY; lia).
  assert (Hok : capacities_ok (mkFcmm [Submap_new (firstSubmapCapacity estimate)] maxNumSubmaps 0 false)).
  { split; [discriminate|]. constructor; [|constructor].
    rewrite getCapacity_Submap_new; lia. }
  split; split; try exact Hok.
  - split.
    + unfold entries. simpl. rewrite submapEntries_new. reflexivity.
    + constructor; [|constructor]. rewrite submapEntries_new. reflexivity.
  - unfold is_size_t in Hmax. split; [unfold getNumSubmaps; simpl; lia|].
    constructor; [|constructor]. rewrite getCapacity_Submap_new; lia.
Qed.

(** On a map returned by the constructor with a [std::size_t]
    [maxNumSubmaps], after any sequence of operations (whatever their
    outcome), a loop from [begin()] to [end()] of at most [size() + 1]
    iterations visits exactly the entries of the VALID buckets, and it
    visits [size()] of them. *)
Theorem iterate_visits_size estimate maxNumSubmaps (m : FcmmT) ops :
  Fcmm_new default_key default_value estimate maxNumSubmaps = inr m ->
  is_size_t maxNumSubmaps ->
  let m' := run_ops key_eq_dec default_key default_value loadFactorReached keyHash1 keyHash2 m ops in
  iterate default_key default_value m' (S (Z.to_nat (size m'))) = entries m' /\
  Z.of_nat (length (iterate default_key default_value m' (S (Z.to_nat (size m'))))) = size m'.
Proof.
  intros Hnew Hmax m'. destruct (Fcmm_new_inv _ _ m Hnew Hmax) as [Hs Hb].
  assert (Hs' : size_inv m') by (apply run_ops_preserves; [intros m1 k cv; apply insert_size_inv|exact Hs]).
  assert (Hb' : bounds_inv m') by (apply run_ops_preserves; [intros m1 k cv; apply insert_bounds|exact Hb]).
  destruct Hs' as (_ & Hn & _). destruct Hb' as ((Hne & _) & Hns & Hv).
  assert (Hok : iter_ok m').
  { split; [exact Hne|]. split; [lia|].
    rewrite Forall_forall in Hv |- *. intros sm Hin. specialize (Hv sm Hin).
    unfold VECTOR_MAX_SIZE, size_t_modulus in *. lia. }
  assert (Hi : iterate default_key default_value m' (S (Z.to_nat (size m'))) = entries m').
  { apply (iterate_entries default_key default_value m' _ Hok).
    unfold Fcmm.size, getNumEntries. rewrite Hn. lia. }
  split; [exact Hi|]. rewrite Hi. unfold Fcmm.size, getNumEntries. lia.
Qed.

Lemma Submap_find_new c key hash1 hash2 :
  snd (Submap_find (Submap_new c) key hash1 hash2) = false.
Proof.
  unfold Fcmm.Submap_find. destruct (length (buckets (Submap_new c))); simpl;
    unfold Fcmm.getBucket, Fcmm.Submap_new; simpl; rewrite nth_repeat; reflexivity.
Qed.

(** A map returned by the constructor is empty: [size()] is 0, [empty()]
    holds, [find] finds no key and [at] throws [std::out_of_range] for
    every key. *)
Theorem new_map_empty estimate maxNumSubmaps (m : FcmmT) :
  Fcmm_new default_key default_value estimate maxNumSubmaps = inr m ->
  size m = 0 /\ empty m = true /\
  forall key, find m key = None /\ at_ m key = inl OutOfRange.
Proof.
  intros Hnew. unfold Fcmm.Fcmm_new in Hnew.
  destruct (maxNumSubmaps <? 1); [discriminate|].
  destruct (_ >? VECTOR_MAX_SIZE); [discriminate|]. injection Hnew as <-.
  split; [reflexivity|]. split; [reflexivity|]. intros key.
  assert (Hf : find (mkFcmm [Submap_new (firstSubmapCapacity estimate)] maxNumSubmaps 0 false) key
               = None).
  { unfold Fcmm.find, Fcmm.findHelper. generalize (Z.to_nat (getNumSubmaps
      (mkFcmm [Submap_new (firstSubmapCapacity estimate)] maxNumSubmaps 0 false) - 1 + 1)).
    induction n as [|n IH]; [reflexivity|]. simpl.
    assert (Hs : forall s, exists c, getSubmap (mkFcmm [Submap_new (firstSubmapCapacity estimate)]
                                        maxNumSubmaps 0 false) s = Submap_new c).
    { intros s. unfold Fcmm.getSubmap. simpl. destruct (Z.to_nat s) as [|[|k]];
        eexists; reflexivity. }
    destruct (Hs (Z.of_nat n)) as [c ->].
    pose proof (Submap_find_new c key (keyHash1 key) (keyHash2 key)) as Hn.
    destruct (Submap_find (Submap_new c) key _ _) as [idx [|]]; [discriminate|exact IH]. }
  split; [exact Hf|]. unfold Fcmm.at_. rewrite Hf. reflexivity.
Qed.

(** The capacity of the [k]-th submap is [submapCapacity estimate k]. *)
Definition capacities_follow (estimate : Z) (m : FcmmT) : Prop :=
  forall k sm, nth_error (submaps m) k = Some sm -> getCapacity sm = submapCapacity estimate k.

Lemma nth_error_list_set {A : Type} (l : list A) i x k y :
  nth_error (list_set l i x) k = Some y ->
  (k <> i /\ nth_error l k = Some y) \/ (k = i /\ y = x /\ exists y0, nth_error l k = Some y0).
Proof.
  revert i k. induction l as [|h t IH]; intros i k H; [destruct k; discriminate|].
  destruct i as [|i], k as [|k]; simpl in H.
  - right. injection H as <-. split; [reflexivity|]. split; [reflexivity|]. eexists; reflexivity.
  - left. split; [lia|exact H].
  - left. split; [lia|exact H].
  - destruct (IH i k H) as [[Hk E]|[Hk [E [y0 E0]]]].
    + left. split; [lia|exact E].
    + right. split; [lia|]. split; [exact E|]. exists y0. exact E0.
Qed.

Lemma capacities_follow_same estimate (m m' : FcmmT) :
  submaps m' = submaps m -> capacities_follow estimate m -> capacities_follow estimate m'.
Proof. intros E H k sm Hk. rewrite E in Hk. exact (H k sm Hk). Qed.

Lemma expand_capacities_follow estimate (m : FcmmT) :
  bounds_inv m -> capacities_follow estimate m ->
  capacities_follow estimate (outcome_map (expand m)).
Proof.
  intros Hb Hf. unfold Fcmm.expand.
  destruct (expanding m); [exact Hf|].
  destruct (_ =? _); [exact (capacities_follow_same estimate m _ eq_refl Hf)|].
  destruct (isOverloaded _ _); [|exact (capacities_follow_same estimate m _ eq_refl Hf)].
  destruct (_ >? VECTOR_MAX_SIZE); [exact (capacities_follow_same estimate m _ eq_refl Hf)|].
  destruct Hb as ((Hne & _) & _ & _).
  unfold outcome_map, Fcmm.setExpanding, getNumSubmaps, Fcmm.getSubmap, capacities_follow.
  cbn [submaps]. intros k sm Hk.
  destruct (Nat.lt_ge_cases k (length (submaps m))) as [Hlt|Hge].
  - rewrite nth_error_app1 in Hk by exact Hlt. exact (Hf k sm Hk).
  - rewrite nth_error_app2 in Hk by exact Hge.
    destruct (k - length (submaps m))%nat as [|j] eqn:Ek; [|destruct j; discriminate].
    injection Hk as <-.
    assert (Hlen : (0 < length (submaps m))%nat) by (destruct (submaps m); [contradiction|simpl; lia]).
    assert (Hk : k = S (length (submaps m) - 1)) by lia.
    rewrite Hk. cbn [submapCapacity].
    replace (Z.to_nat (Z.of_nat (length (submaps m)) - 1)) with (length (submaps m) - 1)%nat by lia.
    assert (Hl : nth_error (submaps m) (length (submaps m) - 1)
                 = Some (nth (length (submaps m) - 1) (submaps m) (Submap_new 0))).
    { apply nth_error_nth'. lia. }
    rewrite <- (Hf _ _ Hl).
    apply getCapacity_Submap_new. pose proof (newSubmapCapacity_pos
      (getCapacity (nth (length (submaps m) - 1) (submaps m) (Submap_new 0)))). lia.
Qed.

Lemma insert_body_capacities_follow estimate key hash1 hash2 computeValue (m : FcmmT) :
  bounds_inv m /\ capacities_follow estimate m ->
  match insert_body key hash1 hash2 computeValue m with
  | inl m' => bounds_inv m' /\ capacities_follow estimate m'
  | inr o => bounds_inv (outcome_map o) /\ capacities_follow estimate (outcome_map o)
  end.
Proof.
  intros [Hb Hf]. pose proof (insert_body_bounds key hash1 hash2 computeValue m Hb) as HB.
  pose proof Hb as ((Hn & Hpos) & _ & _).
  assert (Hlast : 0 <= getNumSubmaps m - 1 < getNumSubmaps m).
  { unfold getNumSubmaps. destruct (submaps m); [contradiction|simpl length; lia]. }
  assert (Hr : forall o : Outcome bool,
             bounds_inv (outcome_map o) /\ capacities_follow estimate (outcome_map o) ->
             match restartAfterExpand (A := (Z * Z) * bool) o with
             | inl m' => bounds_inv m' /\ capacities_follow estimate m'
             | inr o' => bounds_inv (outcome_map o') /\ capacities_follow estimate (outcome_map o')
             end).
  { intros o Ho. destruct o; exact Ho. }
  assert (He : bounds_inv (outcome_map (expand m)) /\ capacities_follow estimate (outcome_map (expand m)))
    by (split; [apply expand_bounds | apply expand_capacities_follow]; assumption).
  revert HB. unfold Fcmm.insert_body.
  destruct (if getNumSubmaps m - 1 >? 0 then _ else None) as [pos|]; [intros HB; split; assumption|].
  destruct (isOverloaded loadFactorReached (getSubmap m (getNumSubmaps m - 1))).
  - intros _. apply Hr. exact He.
  - assert (Hc : 0 < getCapacity (getSubmap m (getNumSubmaps m - 1))).
    { rewrite Forall_forall in Hpos. apply Hpos. apply getSubmap_In. exact Hlast. }
    destruct (Submap_insert (getSubmap m (getNumSubmaps m - 1)) key hash1 hash2 computeValue)
      as [sm' [i|i|]] eqn:Ei; intros HB.
    + split; [exact HB|].
      pose proof (Submap_insert_find key_eq_dec default_key default_value _ key hash1
                    hash2 computeValue Hc) as I.
      rewrite Ei in I. destruct I as (_ & _ & _ & Hcap & _).
      intros k sm Hk. simpl in Hk.
      destruct (nth_error_list_set _ _ _ _ _ Hk) as [[_ E]|[Ek [-> [y0 E0]]]].
      * exact (Hf k sm E).
      * rewrite Hcap. rewrite <- (Hf k y0 E0). f_equal.
        unfold Fcmm.getSubmap. subst k. apply nth_error_nth. exact E0.
    + split; assumption.
    + apply Hr. exact He.
Qed.

Lemma insert_capacities_follow estimate key computeValue (m : FcmmT) :
  bounds_inv m /\ capacities_follow estimate m ->
  bounds_inv (outcome_map (insert m key computeValue)) /\
  capacities_follow estimate (outcome_map (insert m key computeValue)).
Proof.
  intros Hb. unfold Fcmm.insert, Fcmm.insertHelper.
  pose proof (loop_inv (insert_body key (keyHash1 key) (keyHash2 key) computeValue)
    (fun m1 => bounds_inv m1 /\ capacities_follow estimate m1)
    (fun o => bounds_inv (outcome_map o) /\ capacities_follow estimate (outcome_map o))
    (fun m1 H1 => insert_body_capacities_follow estimate key _ _ computeValue m1 H1)
    loop_bound m Hb) as L.
  destruct (loop _ loop_bound m) as [m'|o]; exact L.
Qed.

(** Claim C8: on a map returned by the constructor (with [std::size_t]
    arguments), after any sequence of operations, whatever their outcome,
    every submap has a prime capacity: the [k]-th one has capacity
    [submapCapacity estimate k], the first one [max(65537, nextPrime(estimate))]
    (with [65537] prime), each later one [nextPrime(8 * c)] for the capacity
    [c] of the submap before it, with no wrap-around of [8 * c]; and the
    probe increment of every submap is coprime with its capacity. *)
Theorem submap_capacities_prime estimate maxNumSubmaps (m : FcmmT) ops :
  Fcmm_new default_key default_value estimate maxNumSubmaps = inr m ->
  is_size_t estimate -> is_size_t maxNumSubmaps ->
  let m' := run_ops key_eq_dec default_key default_value loadFactorReached keyHash1 keyHash2 m ops in
  Z.prime FCMM_FIRST_SUBMAP_MIN_CAPACITY /\
  forall k sm, nth_error (submaps m') k = Some sm ->
    getCapacity sm = submapCapacity estimate k /\
    (k = O -> getCapacity sm = Z.max 65537 (Primes.fcmmNextPrime estimate)) /\
    (forall k' sm0, k = S k' -> nth_error (submaps m') k' = Some sm0 ->
       getCapacity sm = Primes.fcmmNextPrime (8 * getCapacity sm0)) /\
    Z.prime (getCapacity sm) /\
    (forall hash2, Z.coprime (getCapacity sm) (calculateProbeIncrement sm hash2)).
Proof.
  intros Hnew He Hmax m'.
  destruct (Fcmm_new_inv _ _ m Hnew Hmax) as [_ Hb].
  assert (Hf : capacities_follow estimate m).
  { unfold Fcmm.Fcmm_new in Hnew.
    destruct (maxNumSubmaps <? 1); [discriminate|].
    destruct (_ >? VECTOR_MAX_SIZE); [discriminate|]. injection Hnew as <-.
    intros [|k] sm Hk; [|destruct k; discriminate]. injection Hk as <-.
    rewrite getCapacity_Submap_new; [reflexivity|].
    unfold firstSubmapCapacity, FCMM_FIRST_SUBMAP_MIN_CAPACITY. lia. }
  assert (H' : bounds_inv m' /\ capacities_follow estimate m').
  { apply run_ops_preserves; [|split; assumption].
    intros m1 key cv. apply insert_capacities_follow. }
  destruct H' as [((_ & _) & _ & Hv) Hf'].
  assert (Hprime : forall k sm, nth_error (submaps m') k = Some sm -> Z.prime (getCapacity sm)).
  { intros k sm Hk. rewrite (Hf' k sm Hk).
    destruct k as [|k]; [apply FcmmFacts.firstSubmapCapacity_prime; exact He|].
    assert (Hk' : (k < length (submaps m'))%nat)
      by (apply nth_error_Some in Hk || (assert (nth_error (submaps m') (S k) <> None)
            by congruence; apply nth_error_Some in H); lia).
    destruct (nth_error (submaps m') k) as [sm0|] eqn:E0;
      [|apply nth_error_None in E0; lia].
    simpl. rewrite <- (Hf' k sm0 E0).
    rewrite Forall_forall in Hv. pose proof (Hv sm0 (nth_error_In _ _ E0)).
    apply FcmmFacts.newSubmapCapacity_prime. split; [unfold getCapacity; lia|assumption]. }
  split; [exact PrimeFacts.prime_65537|].
  intros k sm Hk. split; [exact (Hf' k sm Hk)|].
  split; [intros ->; rewrite (Hf' O sm Hk); reflexivity|].
  split.
  { intros k' sm0 -> Hk0. rewrite (Hf' _ sm Hk). simpl. rewrite <- (Hf' k' sm0 Hk0).
    rewrite Forall_forall in Hv. pose proof (Hv sm0 (nth_error_In _ _ Hk0)).
    apply FcmmFacts.newSubmapCapacity_prime. split; [unfold getCapacity; lia|assumption]. }
  split; [exact (Hprime k sm Hk)|].
  intros hash2. pose proof (Hprime k sm Hk) as Hp. pose proof (Z.prime_ge_2 _ Hp).
  apply Z.coprime_prime_small; [exact Hp|].
  pose proof (FcmmFacts.probeIncrement_range sm hash2 ltac:(lia)). lia.
Qed.

End MapOps.

(** ** Instances of the properties above *)

Import FcmmExamples.

Definition sample_new_map : @FcmmT Z Z :=
  mkFcmm [Submap_new 0 0 (firstSubmapCapacity 5)] 1 0 false.

Definition sample_ops : list (@MapOp Z Z) :=
  [OpInsert 1 (fun k => 10 * k); OpEmplace 2 20; OpFind 1; OpInsert 1 (fun k => 0); OpIterate].

Lemma sample_map_capacities_ok : capacities_ok sample_map.
Proof. split; [discriminate|]. repeat constructor. Qed.

Lemma sample_new_map_built : Fcmm_new 0 0 5 1 = inr sample_new_map.
Proof.
  assert (E : firstSubmapCapacity 5 = 65537) by (vm_compute; reflexivity).
  unfold Fcmm_new, sample_new_map. rewrite E. reflexivity.
Qed.

(** The map built with room for four submaps. *)
Definition sample_new_map4 : @FcmmT Z Z :=
  mkFcmm [Submap_new 0 0 (firstSubmapCapacity 5)] 4 0 false.

Lemma sample_new_map4_built : Fcmm_new 0 0 5 4 = inr sample_new_map4.
Proof.
  assert (E : firstSubmapCapacity 5 = 65537) by (vm_compute; reflexivity).
  unfold Fcmm_new, sample_new_map4. rewrite E. reflexivity.
Qed.

Lemma Submap_insert_find_witness :
  0 < getCapacity sample_empty_submap /\
  Submap_find Z.eq_dec 0 0
    (fst (Submap_insert Z.eq_dec 0 0 sample_empty_submap 1 1 5 (fun k => 10 * k))) 1 1 5 = (1, true).
Proof.
  assert (Hc : 0 < getCapacity sample_empty_submap) by (vm_compute; reflexivity).
  split; [exact Hc|].
  pose proof (Submap_insert_find Z.eq_dec 0 0 sample_empty_submap 1 1 5 (fun k => 10 * k) Hc) as T.
  destruct (Submap_insert Z.eq_dec 0 0 sample_empty_submap 1 1 5 (fun k => 10 * k))
    as [sm' r] eqn:E.
  vm_compute in E. injection E as <- <-. simpl fst.
  destruct T as (_ & _ & _ & _ & _ & Hf). exact Hf.
Defined.

Lemma insert_then_find_witness :
  capacities_ok sample_map /\
  match insert Z.eq_dec 0 0 never_overloaded sample_hash1 sample_hash2
          sample_map 1 (fun k => 10 * k) with
  | Returns m' (pos, inserted) =>
      fst (entryAt 0 0 m' pos) = 1 /\ (exists v, at_ Z.eq_dec 0 0 sample_hash1 sample_hash2 m' 1 = inr v) /\
      (inserted = true -> find Z.eq_dec 0 0 sample_hash1 sample_hash2 m' 1 = Some pos /\
                          at_ Z.eq_dec 0 0 sample_hash1 sample_hash2 m' 1 = inr 10)
  | _ => True
  end.
Proof.
  split; [exact sample_map_capacities_ok|].
  exact (proj1 (insert_then_find Z.eq_dec 0 0 never_overloaded sample_hash1 sample_hash2
                  sample_map 1 (fun k => 10 * k) 7 sample_map_capacities_ok)).
Defined.

Lemma find_stays_successful_witness :
  capacities_ok sample_map /\
  find Z.eq_dec 0 0 sample_hash1 sample_hash2 sample_map 0 <> None /\
  exists v, at_ Z.eq_dec 0 0 sample_hash1 sample_hash2
    (run_ops Z.eq_dec 0 0 always_overloaded sample_hash1 sample_hash2 sample_map sample_ops) 0
    = inr v.
Proof.
  assert (Hf : find Z.eq_dec 0 0 sample_hash1 sample_hash2 sample_map 0 <> None)
    by (vm_compute; discriminate).
  split; [exact sample_map_capacities_ok|]. split; [exact Hf|].
  exact (proj2 (find_stays_successful Z.eq_dec 0 0 always_overloaded sample_hash1 sample_hash2
                  sample_map 0 sample_ops sample_map_capacities_ok Hf)).
Defined.

Lemma insert_present_key_witness :
  capacities_ok sample_map /\
  find Z.eq_dec 0 0 sample_hash1 sample_hash2 sample_map 0 <> None /\
  insert Z.eq_dec 0 0 never_overloaded sample_hash1 sample_hash2 sample_map 0 (fun k => 1) =
  insert Z.eq_dec 0 0 never_overloaded sample_hash1 sample_hash2 sample_map 0 (fun k => 2).
Proof.
  assert (Hf : find Z.eq_dec 0 0 sample_hash1 sample_hash2 sample_map 0 <> None)
    by (vm_compute; discriminate).
  split; [exact sample_map_capacities_ok|]. split; [exact Hf|].
  exact (proj1 (insert_present_key Z.eq_dec 0 0 never_overloaded sample_hash1 sample_hash2
                  sample_map 0 (fun k => 1) (fun k => 2) sample_map_capacities_ok Hf)).
Defined.

Lemma iterate_entries_witness :
  iter_ok sample_map /\ (length (entries sample_map) < 2)%nat /\
  iterate 0 0 sample_map 2 = entries sample_map.
Proof.
  assert (Hok : iter_ok sample_map).
  { split; [discriminate|]. split; [vm_compute; reflexivity|].
    repeat constructor. }
  assert (Hl : (length (entries sample_map) < 2)%nat) by (vm_compute; lia).
  split; [exact Hok|]. split; [exact Hl|].
  exact (proj1 (iterate_entries 0 0 sample_map 2 Hok Hl)).
Defined.

Lemma size_counts_entries_witness :
  Fcmm_new 0 0 5 1 = inr sample_new_map /\
  size (run_ops Z.eq_dec 0 0 never_overloaded sample_hash1 sample_hash2 sample_new_map sample_ops) =
  Z.of_nat (length (entries (run_ops Z.eq_dec 0 0 never_overloaded sample_hash1 sample_hash2
                               sample_new_map sample_ops))).
Proof.
  split; [exact sample_new_map_built|].
  exact (proj1 (size_counts_entries Z.eq_dec 0 0 never_overloaded sample_hash1 sample_hash2
                  5 1 sample_new_map sample_ops sample_new_map_built)).
Defined.

Lemma iterate_visits_size_witness :
  Fcmm_new 0 0 5 1 = inr sample_new_map /\ is_size_t 1 /\
  Z.of_nat (length (iterate 0 0
    (run_ops Z.eq_dec 0 0 never_overloaded sample_hash1 sample_hash2 sample_new_map sample_ops)
    (S (Z.to_nat (size (run_ops Z.eq_dec 0 0 never_overloaded sample_hash1 sample_hash2
                           sample_new_map sample_ops)))))) =
  size (run_ops Z.eq_dec 0 0 never_overloaded sample_hash1 sample_hash2 sample_new_map sample_ops).
Proof.
  assert (Hs : is_size_t 1) by (unfold is_size_t, size_t_modulus; lia).
  split; [exact sample_new_map_built|]. split; [exact Hs|].
  exact (proj2 (iterate_visits_size Z.eq_dec 0 0 never_overloaded sample_hash1 sample_hash2
                  5 1 sample_new_map sample_ops sample_new_map_built Hs)).
Defined.

Lemma new_map_empty_witness :
  Fcmm_new 0 0 5 1 = inr sample_new_map /\
  at_ Z.eq_dec 0 0 sample_hash1 sample_hash2 sample_new_map 3 = inl OutOfRange.
Proof.
  split; [exact sample_new_map_built|].
  exact (proj2 (proj2 (proj2 (new_map_empty Z.eq_dec 0 0 sample_hash1 sample_hash2 5 1
                                sample_new_map sample_new_map_built)) 3)).
Defined.

Lemma submap_capacities_prime_witness :
  Fcmm_new 0 0 5 4 = inr sample_new_map4 /\ is_size_t 5 /\ is_size_t 4 /\
  Z.prime FCMM_FIRST_SUBMAP_MIN_CAPACITY /\
  forall k sm,
    nth_error (submaps (run_ops Z.eq_dec 0 0 always_overloaded sample_hash1 sample_hash2
                          sample_new_map4 sample_ops)) k = Some sm ->
    Z.prime (getCapacity sm).
Proof.
  assert (H5 : is_size_t 5) by (unfold is_size_t, size_t_modulus; lia).
  assert (H4 : is_size_t 4) by (unfold is_size_t, size_t_modulus; lia).
  pose proof (submap_capacities_prime Z.eq_dec 0 0 always_overloaded sample_hash1 sample_hash2
                5 4 sample_new_map4 sample_ops sample_new_map4_built H5 H4) as T.
  split; [exact sample_new_map4_built|]. split; [exact H5|]. split; [exact H4|].
  split; [exact (proj1 T)|].
  intros k sm Hk. exact (proj1 (proj2 (proj2 (proj2 (proj2 T k sm Hk))))).
Defined.

End FcmmOps.

(** ** Further properties of the hashing and of the per-thread stack *)

Module MemoOps.

Import CppMemo.

Definition FNV_PRIME_INVERSE : Z := 9778875398352553115.

Lemma lxor_size_t a b : is_size_t a -> is_size_t b -> is_size_t (Z.lxor a b).
Proof.
  unfold is_size_t, size_t_modulus. intros Ha Hb.
  assert (H0 : 0 <= Z.lxor a b) by (apply Z.lxor_nonneg; split; intros; lia).
  split; [exact H0|].
  destruct (Z.eq_dec (Z.lxor a b) 0) as [->|Hne]; [lia|].
  assert (Hp : 0 < Z.lxor a b) by lia.
  apply Z.log2_lt_pow2; [exact Hp|].
  pose proof (Z.log2_lxor a b (proj1 Ha) (proj1 Hb)) as L.
  assert (La : Z.log2 a < 64).
  { destruct (Z.eq_dec a 0) as [->|]; [simpl; lia|]. apply Z.log2_lt_pow2; lia. }
  assert (Lb : Z.log2 b < 64).
  { destruct (Z.eq_dec b 0) as [->|]; [simpl; lia|]. apply Z.log2_lt_pow2; lia. }
  lia.
Qed.

Lemma lxor_cancel a b c : Z.lxor a c = Z.lxor b c -> a = b.
Proof.
  intros H. apply (f_equal (fun z => Z.lxor z c)) in H.
  rewrite !Z.lxor_assoc, Z.lxor_nilpotent, !Z.lxor_0_r in H. exact H.
Qed.

Lemma wrap_mul_prime_inj x y :
  is_size_t x -> is_size_t y ->
  size_t_wrap (x * FNV_PRIME) = size_t_wrap (y * FNV_PRIME) -> x = y.
Proof.
  unfold is_size_t, size_t_wrap. intros Hx Hy H.
  assert (Inv : forall z, is_size_t z -> (z * FNV_PRIME mod size_t_modulus) * FNV_PRIME_INVERSE
                                             mod size_t_modulus = z).
  { intros z Hz. unfold is_size_t in Hz.
    rewrite Zmult_mod_idemp_l, <- Z.mul_assoc.
    replace (FNV_PRIME * FNV_PRIME_INVERSE)
      with (1 + 8894049 * size_t_modulus) by reflexivity.
    rewrite Z.mul_add_distr_l, Z.mul_1_r, Z.mul_assoc, Z.mod_add
      by (unfold size_t_modulus; lia).
    apply Z.mod_small; exact Hz. }
  rewrite <- (Inv x Hx), <- (Inv y Hy), H. reflexivity.
Qed.

Lemma wrap_size_t x : is_size_t (size_t_wrap x).
Proof. unfold is_size_t, size_t_wrap, size_t_modulus. apply Z.mod_pos_bound. lia. Qed.

(** For [std::size_t] hashes, [fnv1Hash] is a [std::size_t], and it is
    injective in each argument: two pairs whose hashes agree in one
    component and differ in the other get different [PairHash1]s. *)
Theorem fnv1Hash_injective x x' y y' :
  is_size_t x -> is_size_t x' -> is_size_t y -> is_size_t y' ->
  is_size_t (fnv1Hash x y) /\
  (fnv1Hash x y = fnv1Hash x' y -> x = x') /\
  (fnv1Hash x y = fnv1Hash x y' -> y = y').
Proof.
  intros Hx Hx' Hy Hy'. unfold fnv1Hash. split; [|split].
  - apply lxor_size_t; [apply wrap_size_t|exact Hy].
  - intros H. apply lxor_cancel in H. apply wrap_mul_prime_inj in H;
      [|apply lxor_size_t; [apply wrap_size_t|exact Hx]|apply lxor_size_t; [apply wrap_size_t|exact Hx']].
    apply (lxor_cancel x x' (size_t_wrap (FNV_OFFSET_BASIS * FNV_PRIME))).
    rewrite !(Z.lxor_comm _ (size_t_wrap _)). exact H.
  - intros H. apply (lxor_cancel y y' (size_t_wrap (Z.lxor (size_t_wrap (FNV_OFFSET_BASIS * FNV_PRIME)) x * FNV_PRIME))).
    rewrite !(Z.lxor_comm _ (size_t_wrap (Z.lxor _ x * _))). exact H.
Qed.

Section Stack.

Context {Key : Type}.
Variable key_eq_dec : forall x y : Key, {x = y} + {x <> y}.

Local Abbreviation push := (CppMemo.push key_eq_dec).
Local Abbreviation pop := (CppMemo.pop key_eq_dec).
Local Abbreviation finalizeGroup := (CppMemo.finalizeGroup key_eq_dec).
Local Abbreviation set_insert := (CppMemo.set_insert key_eq_dec).
Local Abbreviation set_erase := (CppMemo.set_erase key_eq_dec).

(** [stack.push(key)] for each key of [ks] in turn, as the prerequisites
    gatherer does. *)
Fixpoint push_all (st : ThreadItemsStack Key) (ks : list Key) : MemoError Key + ThreadItemsStack Key :=
  match ks with
  | [] => inr st
  | k :: ks' => match push st k with inl e => inl e | inr st' => push_all st' ks' end
  end.

(** [stack.pop()] [n] times. *)
Fixpoint pop_n (st : ThreadItemsStack Key) (n : nat) : MemoError Key + ThreadItemsStack Key :=
  match n with
  | O => inr st
  | S n' => match pop st with inl e => inl e | inr st' => pop_n st' n' end
  end.

Lemma push_all_spec st ks :
  (detectCircularDependencies st = true -> forall k, In k ks -> ~ In k (itemsSet st)) ->
  push_all st ks = inr (mkStack (threadNo st) (groupSize st + length ks)
                          (detectCircularDependencies st)
                          (rev (map (fun k => mkItem k false) ks) ++ items st) (itemsSet st)).
Proof.
  revert st. induction ks as [|k ks IH]; intros st Hd; simpl.
  - destruct st; simpl. rewrite Nat.add_0_r. reflexivity.
  - unfold CppMemo.push.
    destruct (detectCircularDependencies st && set_find key_eq_dec (itemsSet st) k) eqn:E.
    + apply andb_prop in E. destruct E as [E1 E2].
      apply MemoFacts.set_find_In in E2. exfalso. exact (Hd E1 k (or_introl eq_refl) E2).
    + rewrite IH by (intros D k' Hk'; apply Hd; [exact D|right; exact Hk']). simpl.
      rewrite <- app_assoc. simpl. f_equal. f_equal. lia.
Qed.

Lemma fold_set_insert_fresh l s :
  NoDup l -> (forall k, In k l -> ~ In k s) -> fold_left set_insert l s = rev l ++ s.
Proof.
  revert s. induction l as [|k l IH]; intros s Hn Hd; [reflexivity|].
  inversion Hn as [|? ? Hk Hl]; subst. simpl.
  unfold CppMemo.set_insert at 2.
  destruct (set_find key_eq_dec s k) eqn:E.
  - apply MemoFacts.set_find_In in E. exfalso. exact (Hd k (or_introl eq_refl) E).
  - rewrite IH; [rewrite <- app_assoc; reflexivity|exact Hl|].
    intros k' Hk' [->|Hs]; [contradiction|exact (Hd k' (or_intror Hk') Hs)].
Qed.

Lemma set_erase_fresh s k : ~ In k s -> set_erase s k = s.
Proof.
  induction s as [|x s IH]; intros Hk; [reflexivity|].
  unfold CppMemo.set_erase in *. simpl.
  rewrite IH by (intros H; apply Hk; right; exact H).
  unfold CppMemo.keyEqual. destruct (key_eq_dec x k) as [->|]; [exfalso; apply Hk; left; reflexivity|].
  reflexivity.
Qed.

Lemma set_erase_app a b k : set_erase (a ++ b) k = set_erase a k ++ set_erase b k.
Proof. unfold CppMemo.set_erase. apply filter_app. Qed.

Lemma set_erase_self k : set_erase [k] k = [].
Proof.
  unfold CppMemo.set_erase, CppMemo.keyEqual. simpl.
  destruct (key_eq_dec k k); [reflexivity|congruence].
Qed.

Lemma pop_n_group tn d (g rest : list (Item Key)) s0 :
  NoDup (map item_key g) -> (d = true -> forall k, In k (map item_key g) -> ~ In k s0) ->
  pop_n (mkStack tn 0 d (g ++ rest) (if d then rev (map item_key g) ++ s0 else s0)) (length g) =
  inr (mkStack tn 0 d rest s0).
Proof.
  revert s0. induction g as [|it g IH]; intros s0 Hn Hd; [simpl; destruct d; reflexivity|].
  simpl in Hn. inversion Hn as [|? ? Hk Hl]; subst.
  assert (IH' : d = true -> forall k, In k (map item_key g) -> ~ In k s0)
    by (intros D k Hk'; apply Hd; [exact D|right; exact Hk']).
  destruct d.
  - assert (E : set_erase ((rev (map item_key g) ++ [item_key it]) ++ s0) (item_key it)
                = rev (map item_key g) ++ s0).
    { rewrite <- app_assoc, !set_erase_app, set_erase_self.
      rewrite !set_erase_fresh; [reflexivity| |].
      + exact (Hd eq_refl _ (or_introl eq_refl)).
      + rewrite <- in_rev. exact Hk. }
    simpl. rewrite E. apply IH; [exact Hl|exact IH'].
  - simpl. apply IH; [exact Hl|exact IH'].
Qed.

(** A group of distinct keys that are not in [itemsSet] pushed on a
    stack with no open group, then finalized (whatever the thread's
    order: kept, reversed or shuffled by a permutation) and popped again
    leaves the stack exactly as it was, [itemsSet] included. *)
Theorem push_finalize_pop_restores (st : ThreadItemsStack Key) ks shuffle :
  groupSize st = 0%nat -> (forall l, Permutation l (shuffle l)) -> NoDup ks ->
  (detectCircularDependencies st = true -> forall k, In k ks -> ~ In k (itemsSet st)) ->
  match push_all st ks with
  | inr st1 => pop_n (finalizeGroup shuffle st1) (length ks) = inr st
  | inl _ => False
  end.
Proof.
  intros G Hsh Hn Hd. rewrite (push_all_spec st ks Hd). rewrite G. simpl.
  set (group := rev (map (fun k => mkItem k false) ks)).
  assert (Hlen : length group = length ks) by (subst group; rewrite length_rev, length_map; reflexivity).
  unfold CppMemo.finalizeGroup. simpl.
  rewrite firstn_app, <- Hlen, Nat.sub_diag, firstn_O, app_nil_r, firstn_all.
  rewrite skipn_app, Nat.sub_diag, skipn_O, skipn_all. simpl.
  set (group' := if negb (threadNo st =? 0) && Nat.ltb 1 (length group)
                 then if threadNo st =? 1 then rev group else shuffle group else group).
  assert (Hp : Permutation group group').
  { subst group'. destruct (_ && _); [|reflexivity].
    destruct (_ =? 1); [apply Permutation_rev|apply Hsh]. }
  assert (Hkeys : Permutation ks (map item_key group')).
  { apply (Permutation_trans (l' := map item_key group)); [|apply Permutation_map; exact Hp].
    subst group. rewrite map_rev, map_map. simpl. rewrite map_id. apply Permutation_rev. }
  rewrite (Permutation_length Hp).
  destruct (detectCircularDependencies st) eqn:D.
  - rewrite fold_set_insert_fresh.
    + rewrite (pop_n_group (threadNo st) true group' (items st) (itemsSet st)).
      * destruct st; simpl in *; subst; reflexivity.
      * exact (Permutation_NoDup Hkeys Hn).
      * intros _ k Hk. apply (Hd eq_refl). apply (Permutation_in _ (Permutation_sym Hkeys)). exact Hk.
    + exact (Permutation_NoDup Hkeys Hn).
    + intros k Hk. apply (Hd eq_refl). apply (Permutation_in _ (Permutation_sym Hkeys)). exact Hk.
  - rewrite (pop_n_group (threadNo st) false group' (items st) (itemsSet st)).
    + destruct st; simpl in *; subst; reflexivity.
    + exact (Permutation_NoDup Hkeys Hn).
    + discriminate.
Qed.

End Stack.

Definition sample_stack : ThreadItemsStack Z := mkStack 2 0 true [mkItem 7 true] [7].

Lemma fnv1Hash_injective_witness :
  is_size_t 1 /\ is_size_t 3 /\ is_size_t 2 /\ fnv1Hash 1 2 <> fnv1Hash 3 2.
Proof.
  assert (H1 : is_size_t 1) by (unfold is_size_t, size_t_modulus; lia).
  assert (H3 : is_size_t 3) by (unfold is_size_t, size_t_modulus; lia).
  assert (H2 : is_size_t 2) by (unfold is_size_t, size_t_modulus; lia).
  split; [exact H1|]. split; [exact H3|]. split; [exact H2|].
  intros E. pose proof (proj1 (proj2 (fnv1Hash_injective 1 3 2 2 H1 H3 H2 H2)) E). discriminate.
Defined.

Lemma push_finalize_pop_restores_witness :
  NoDup [1; 2; 3] /\
  match push_all Z.eq_dec sample_stack [1; 2; 3] with
  | inr st1 => pop_n Z.eq_dec (finalizeGroup Z.eq_dec (@rev _) st1) 3 = inr sample_stack
  | inl _ => False
  end.
Proof.
  assert (Hn : NoDup [1; 2; 3]).
  { repeat constructor; simpl; intuition discriminate. }
  split; [exact Hn|].
  apply (push_finalize_pop_restores Z.eq_dec sample_stack [1; 2; 3] (@rev _)).
  - reflexivity.
  - intros l. apply Permutation_rev.
  - exact Hn.
  - intros _ k Hk. simpl in Hk |- *.
    destruct Hk as [<-|[<-|[<-|[]]]]; intuition discriminate.
Defined.

End MemoOps.
